(** * EQL syntax tree: a shallow embedding of [eql/ast.py]

    The development follows the layout of the Python module: host values,
    the node classes, structural equality, the [&], [|] and [~] operators,
    the per-class [optimize] methods, [TimeRange] rendering and macro
    expansion.  Python exceptions are explicit results. *)

From Stdlib Require Import List String Ascii ZArith QArith Qround Qabs Qpower.
From Stdlib Require Import Bool Lia Lqa Arith.
From Stdlib Require Import DecimalString.
Import ListNotations.

Local Open Scope string_scope.
Local Open Scope list_scope.

(* ================================================================== *)
(** * Outcomes of a call *)

(** The Python exceptions the module can raise or let through.
    [HostError] is none of them: it marks a call whose answer in Python
    is outside the values of the model (a float that is an infinity, a
    [str] overload of an arithmetic operator).  The model follows such
    a call no further, and no statement below speaks of what Python
    does from there on. *)
Inductive exn : Type :=
| TypeError
| ValueError (msg : string)
| IndexError
| AttributeError
| ZeroDivisionError
| OverflowError
| NotImplementedError
| HostError (msg : string).

(** A call returns a value, raises, or (for the recursive [optimize]
    only) exhausts the recursion budget of the model. *)
Inductive result (A : Type) : Type :=
| Ok (a : A)
| Raise (e : exn)
| OutOfFuel.

Arguments Ok {A} a.
Arguments Raise {A} e.
Arguments OutOfFuel {A}.

Definition bind {A B : Type} (r : result A) (k : A -> result B) : result B :=
  match r with
  | Ok a => k a
  | Raise e => Raise e
  | OutOfFuel => OutOfFuel
  end.

Notation "x <- e ;; k" := (bind e (fun x => k))
  (at level 61, e at next level, right associativity).

(** [[f(x) for x in xs]] for a fallible [f]: left to right, the first
    failure wins. *)
Section MapM.
Context {A B : Type} (f : A -> result B).

Fixpoint mapM (xs : list A) : result (list B) :=
  match xs with
  | [] => Ok []
  | x :: xs' => y <- f x ;; ys <- mapM xs' ;; Ok (y :: ys)
  end.
End MapM.

(* ================================================================== *)
(** * Host values

    Literal nodes wrap Python values.  A float is represented by the
    rational it denotes (every finite binary64 float is one; the two
    zeros are one value, which [==] does not tell apart either).  The
    infinities and NaN are no values of the model. *)

Inductive pyval : Type :=
| VNone
| VBool (b : bool)
| VInt (z : Z)
| VFloat (q : Q)
| VStr (s : string).

(** The numeric reading of a value: [bool] is a subclass of [int]. *)
Definition as_Q (v : pyval) : option Q :=
  match v with
  | VBool b => Some (inject_Z (if b then 1 else 0))
  | VInt z => Some (inject_Z z)
  | VFloat q => Some q
  | _ => None
  end.

Definition as_Z (v : pyval) : option Z :=
  match v with
  | VBool b => Some (if b then 1 else 0)%Z
  | VInt z => Some z
  | _ => None
  end.

(** Python [==] on values (also the key equality of [dict]). *)
Definition py_eq (a b : pyval) : bool :=
  match as_Q a, as_Q b with
  | Some x, Some y => Qeq_bool x y
  | _, _ =>
    match a, b with
    | VNone, VNone => true
    | VStr s, VStr t => String.eqb s t
    | _, _ => false
    end
  end.

(** Truth value of [if v:]. *)
Definition py_truthy (v : pyval) : bool :=
  match v with
  | VNone => false
  | VBool b => b
  | VInt z => negb (Z.eqb z 0)
  | VFloat q => negb (Qeq_bool q 0)
  | VStr s => negb (String.eqb s "")
  end.

(** [a and b], [a or b], [not a]: the first two return an operand. *)
Definition py_and (a b : pyval) : pyval := if py_truthy a then b else a.
Definition py_or (a b : pyval) : pyval := if py_truthy a then a else b.
Definition py_not (a : pyval) : pyval := VBool (negb (py_truthy a)).

(** [str.lower()] on the letters of ASCII; a character beyond ASCII
    is left as it is. *)
Definition lower_ascii (c : ascii) : ascii :=
  let n := nat_of_ascii c in
  if (Nat.leb 65 n && Nat.leb n 90)%bool then ascii_of_nat (n + 32) else c.

Fixpoint lower_string (s : string) : string :=
  match s with
  | EmptyString => EmptyString
  | String c s' => String (lower_ascii c) (lower_string s')
  end.

(** [v.lower()]: only [str] has the method. *)
Definition py_lower (v : pyval) : result pyval :=
  match v with
  | VStr s => Ok (VStr (lower_string s))
  | _ => Raise AttributeError
  end.

(** Modelled from the spec: [utils.is_string] is not part of the
    sources at hand; the optimizer uses it to decide whether a value is
    a string that is to be compared case-insensitively. *)
Definition is_string (v : pyval) : bool :=
  match v with VStr _ => true | _ => false end.

(** The comparators of [Comparison], and [operator.lt] ... [operator.gt]
    on values.  Ordering follows Python 3: numbers order with numbers,
    strings with strings, anything else raises [TypeError]. *)
Inductive comparator : Type := LT | LE | EQ | NE | GE | GT.

Definition comparator_eqb (a b : comparator) : bool :=
  match a, b with
  | LT, LT | LE, LE | EQ, EQ | NE, NE | GE, GE | GT, GT => true
  | _, _ => false
  end.

Definition of_comparison (c : comparator) (o : comparison) : bool :=
  match c, o with
  | LT, Lt => true
  | LE, (Lt | Eq) => true
  | GE, (Gt | Eq) => true
  | GT, Gt => true
  | _, _ => false
  end.

Definition func_lookup (c : comparator) (a b : pyval) : result pyval :=
  match c with
  | EQ => Ok (VBool (py_eq a b))
  | NE => Ok (VBool (negb (py_eq a b)))
  | _ =>
    match as_Q a, as_Q b with
    | Some x, Some y => Ok (VBool (of_comparison c (Qcompare x y)))
    | _, _ =>
      match a, b with
      | VStr s, VStr t => Ok (VBool (of_comparison c (String.compare s t)))
      | _, _ => Raise TypeError
      end
    end
  end.

(** ** Float arithmetic

    Python's [float] is IEEE 754 binary64: 53 bits of precision, the
    least normal exponent -1022, every result rounded to the nearest
    float, a tie to the one with an even mantissa. *)

(** The exponent of the binade of a positive rational:
    [2 ^ e <= a < 2 ^ (e + 1)]. *)
Definition Qlog2 (a : Q) : Z :=
  let e := (Z.log2 (Qnum a) - Z.log2 (Zpos (Qden a)))%Z in
  if Qle_bool (2 ^ e) a then e else (e - 1)%Z.

(** The nearest integer, a tie going to the even one. *)
Definition round_half_even (x : Q) : Z :=
  let f := Qfloor x in
  match Qcompare (x - inject_Z f) (1 # 2) with
  | Lt => f
  | Eq => if Z.even f then f else (f + 1)%Z
  | Gt => (f + 1)%Z
  end.

(** The float nearest to [x], or [None] when it is an infinity. *)
Definition binary64 (x : Q) : option Q :=
  if Qeq_bool x 0 then Some 0
  else
    let a := Qabs x in
    let e := Z.max (Qlog2 a) (-1022) in
    let ulp := 2 ^ (e - 52) in
    let r := inject_Z (round_half_even (a / ulp)) * ulp in
    if Qle_bool (2 ^ 1024) r then None
    else Some (Qred (if Qle_bool 0 x then r else - r)).

(** The result of a float operation whose exact value is [x]: it
    overflows to an infinity without raising. *)
Definition float_result (x : Q) : result Q :=
  match binary64 x with
  | Some q => Ok q
  | None => Raise (HostError "float infinity")
  end.

(** The float an operand is converted to beside a float operand: an
    [int] too large raises [OverflowError]. *)
Definition float_of (v : pyval) : result Q :=
  match v with
  | VFloat q => Ok q
  | VBool b => Ok (inject_Z (if b then 1 else 0))
  | VInt z =>
    match binary64 (inject_Z z) with
    | Some q => Ok q
    | None => Raise OverflowError
    end
  | _ => Raise TypeError
  end.

(** [int(x)]: truncation towards zero. *)
Definition Qtrunc (x : Q) : Z := Z.quot (Qnum x) (Zpos (Qden x)).

(** [m / n] on two [int]s: the float nearest to the quotient, or
    [OverflowError] when there is none. *)
Definition int_truediv (m n : Z) : result Q :=
  if (n =? 0)%Z then Raise ZeroDivisionError
  else
    match binary64 (inject_Z m / inject_Z n) with
    | Some q => Ok q
    | None => Raise OverflowError
    end.

(** The remainder of the floor division of [x] by [y]: it takes the
    sign of the divisor. *)
Definition Qmod (x y : Q) : Q := x - y * inject_Z (Qfloor (x / y)).

(** [x % y] on two floats: the float nearest to the remainder.  (C's
    [fmod] is exact and has the sign of [x]; Python adds [y] to it when
    its sign is not that of [y], and that sum is rounded.) *)
Definition float_rem (x y : Q) : result Q :=
  if Qeq_bool y 0 then Raise ZeroDivisionError
  else float_result (Qmod x y).

(** The operators of [MathOperation] and [op_lookup]: [operator.mul],
    [truediv], [mod], [add], [sub]. *)
Inductive math_operator : Type := Mul | TrueDiv | Mod | Add | Sub.

Definition math_operator_eqb (a b : math_operator) : bool :=
  match a, b with
  | Mul, Mul | TrueDiv, TrueDiv | Mod, Mod | Add, Add | Sub, Sub => true
  | _, _ => false
  end.

(** On two [int]s ([bool] is a subclass of [int]): exact, but for
    [/]. *)
Definition int_arith (op : math_operator) (m n : Z) : result pyval :=
  match op with
  | Mul => Ok (VInt (m * n))
  | TrueDiv => q <- int_truediv m n ;; Ok (VFloat q)
  | Mod => if (n =? 0)%Z then Raise ZeroDivisionError else Ok (VInt (m mod n))
  | Add => Ok (VInt (m + n))
  | Sub => Ok (VInt (m - n))
  end.

(** On two floats. *)
Definition float_arith (op : math_operator) (x y : Q) : result pyval :=
  q <- match op with
       | Mul => float_result (x * y)
       | TrueDiv =>
         if Qeq_bool y 0 then Raise ZeroDivisionError else float_result (x / y)
       | Mod => float_rem x y
       | Add => float_result (x + y)
       | Sub => float_result (x - y)
       end ;;
  Ok (VFloat q).

(** [op_lookup[operator](a, b)].  Two [int]s stay in [int] arithmetic;
    beside a float, an [int] is converted to a float.  [None] has no
    arithmetic.  With a [str] operand the operators are concatenation,
    repetition and formatting, which are not modelled. *)
Definition op_lookup (op : math_operator) (a b : pyval) : result pyval :=
  match a, b with
  | VStr _, _ | _, VStr _ => Raise (HostError "arithmetic on a str")
  | VNone, _ | _, VNone => Raise TypeError
  | _, _ =>
    match as_Z a, as_Z b with
    | Some m, Some n => int_arith op m n
    | _, _ => x <- float_of a ;; y <- float_of b ;; float_arith op x y
    end
  end.

(* ================================================================== *)
(** * The node classes *)

(** The concrete subclasses of [Literal]. *)
Inductive literal_class : Type := CBoolean | CNull | CNumber | CString.

Definition literal_class_eqb (a b : literal_class) : bool :=
  match a, b with
  | CBoolean, CBoolean | CNull, CNull | CNumber, CNumber | CString, CString => true
  | _, _ => false
  end.

(** A key of a [Field] path: a sub-field name or an array position. *)
Inductive path_key : Type :=
| KeyStr (s : string)
| KeyInt (i : Z).

Definition path_key_eqb (a b : path_key) : bool :=
  match a, b with
  | KeyStr s, KeyStr t => String.eqb s t
  | KeyInt i, KeyInt j => Z.eqb i j
  | _, _ => false
  end.

(** One constructor per class, with the class's [__slots__] as
    arguments.  A [Literal] carries its subclass and its [value]; the
    classes do not check that the two agree.  [TimeRange.delta] is a
    [datetime.timedelta], an integer number of microseconds.
    [EventQuery] stands for the query-level classes, none of which
    overrides [optimize] or defines [&], [|] or [~]. *)
#[warnings="-register-all"]
Inductive node : Type :=
| Literal (cls : literal_class) (value : pyval)
| TimeRange (delta : Z)
| Field (base : string) (path : list path_key)
| FunctionCall (name : string) (arguments : list node) (as_method : bool)
| NamedSubquery (query_type : string) (query : node)
| MathOperation (left : node) (operator : math_operator) (right : node)
| Comparison (left : node) (cmp : comparator) (right : node)
| InSet (expression : node) (container : list node)
| Not (term : node)
| And (terms : list node)
| Or (terms : list node)
| EventQuery (event_type : string) (query : node).

Definition Boolean (v : pyval) : node := Literal CBoolean v.
Definition Number (v : pyval) : node := Literal CNumber v.
Definition String_ (v : pyval) : node := Literal CString v.

Definition isinstance_Literal (n : node) : bool :=
  match n with Literal _ _ => true | _ => false end.

(* ================================================================== *)
(** * Construction ([Literal.__init__], [Null.__init__]) *)

(** The class a constructor is invoked on: the base [Literal] or one
    of its subclasses. *)
Inductive literal_type : Type :=
| TLiteral
| TSub (c : literal_class).

(** [Literal.__init__(self, value)] with [type(self)] given. *)
Definition Literal__init__ (t : literal_type) (value : pyval) : result node :=
  match t with
  | TLiteral => Raise TypeError
  | TSub c => Ok (Literal c value)
  end.

(** [Null.__init__(self, value=None)]: hands [None] to the base
    initialiser whatever it was given. *)
Definition Null__init__ (value : pyval) : result node :=
  Literal__init__ (TSub CNull) VNone.

(* ================================================================== *)
(** * Structural equality ([BaseNode.__eq__]) *)

Section ListEq.
Context {A : Type} (eqb : A -> A -> bool).

Fixpoint list_eqb (xs ys : list A) : bool :=
  match xs, ys with
  | [], [] => true
  | x :: xs', y :: ys' => eqb x y && list_eqb xs' ys'
  | _, _ => false
  end.
End ListEq.

(** Same class, and slot-wise [==]. *)
Fixpoint node_eqb (a b : node) {struct a} : bool :=
  match a, b with
  | Literal c v, Literal c' v' => literal_class_eqb c c' && py_eq v v'
  | TimeRange d, TimeRange d' => Z.eqb d d'
  | Field s p, Field s' p' => String.eqb s s' && list_eqb path_key_eqb p p'
  | FunctionCall f xs m, FunctionCall f' xs' m' =>
    String.eqb f f' && list_eqb node_eqb xs xs' && Bool.eqb m m'
  | NamedSubquery t q, NamedSubquery t' q' => String.eqb t t' && node_eqb q q'
  | MathOperation l o r, MathOperation l' o' r' =>
    node_eqb l l' && math_operator_eqb o o' && node_eqb r r'
  | Comparison l c r, Comparison l' c' r' =>
    node_eqb l l' && comparator_eqb c c' && node_eqb r r'
  | InSet e xs, InSet e' xs' => node_eqb e e' && list_eqb node_eqb xs xs'
  | Not t, Not t' => node_eqb t t'
  | And ts, And ts' => list_eqb node_eqb ts ts'
  | Or ts, Or ts' => list_eqb node_eqb ts ts'
  | EventQuery t q, EventQuery t' q' => String.eqb t t' && node_eqb q q'
  | _, _ => false
  end.

(* ================================================================== *)
(** * Insertion-ordered dictionaries ([collections.OrderedDict])

    Keys are host values compared with [==]; an entry keeps the
    position, and the key, of its first insertion. *)

Section OrderedDict.
Context {V : Type}.

Definition odict : Type := list (pyval * V).

(** [k in d] *)
Definition od_mem (k : pyval) (d : odict) : bool :=
  existsb (fun kv => py_eq (fst kv) k) d.

(** [d[k] = v] *)
Fixpoint od_set (k : pyval) (v : V) (d : odict) : odict :=
  match d with
  | [] => [(k, v)]
  | (k', v') :: d' =>
    if py_eq k' k then (k', v) :: d' else (k', v') :: od_set k v d'
  end.

(** [d.setdefault(k, v)] *)
Definition od_setdefault (k : pyval) (v : V) (d : odict) : odict :=
  if od_mem k d then d else d ++ [(k, v)].

(** [d.values()] *)
Definition od_values (d : odict) : list V := map snd d.
End OrderedDict.

Arguments odict V : clear implicits.

(* ================================================================== *)
(** * [Comparison.optimize] *)

Definition Comparison_optimize (left : node) (c : comparator) (right : node)
  : result node :=
  match left, right with
  | Literal cl lhs, Literal cr rhs =>
    (* Check that the types match first *)
    if negb (literal_class_eqb cr cl) then
      Ok (Boolean (VBool (comparator_eqb c NE)))
    else
      lr <- (match cl with
             | CString => l <- py_lower lhs ;; r <- py_lower rhs ;; Ok (l, r)
             | _ => Ok (lhs, rhs)
             end) ;;
      b <- func_lookup c (fst lr) (snd lr) ;;
      Ok (Boolean b)
  | _, _ =>
    if node_eqb left right then
      Ok (Boolean (VBool (match c with EQ | LE | GE => true | _ => false end)))
    else Ok (Comparison left c right)
  end.

(* ================================================================== *)
(** * [InSet]: literals, [optimize] *)

(** [InSet.is_literal], [InSet.is_dynamic] *)
Definition is_literal (container : list node) : bool :=
  forallb isinstance_Literal container.

Definition is_dynamic (container : list node) : bool :=
  forallb (fun v => negb (isinstance_Literal v)) container.

(** [InSet._get_literals]: strings are keyed by their lower-cased
    value and the first one stays; any other literal is keyed by its
    value and replaces the entry that is there. *)
Fixpoint get_literals_from (container : list node) (values : odict node)
  : result (odict node) :=
  match container with
  | [] => Ok values
  | Literal CString k :: rest =>
    kl <- py_lower k ;;
    get_literals_from rest (od_setdefault kl (Literal CString k) values)
  | Literal c k :: rest =>
    get_literals_from rest (od_set k (Literal c k) values)
  | _ :: rest => get_literals_from rest values
  end.

Definition _get_literals (container : list node) : result (odict node) :=
  get_literals_from container [].

(** [InSet.optimize] *)
Definition InSet_optimize (expression : node) (container : list node)
  : result node :=
  (* move all the literals to the front, preserve their ordering *)
  lits <- _get_literals container ;;
  let literals := od_values lits in
  let dynamic := filter (fun v => negb (isinstance_Literal v)) container in
  (* check to see if a literal value is in the list of literal values *)
  cont <- (match expression with
           | Literal _ value =>
             value' <- (if is_string value then py_lower value else Ok value) ;;
             lits' <- _get_literals container ;;
             if od_mem value' lits' then Ok None else Ok (Some dynamic)
           | _ => Ok (Some (literals ++ dynamic))
           end) ;;
  match cont with
  | None => Ok (Boolean (VBool true))
  | Some [] => Ok (Boolean (VBool false))
  | Some [item] => Comparison_optimize expression EQ item
  | Some cs =>
    if existsb (node_eqb expression) cs then Ok (Boolean (VBool true))
    else Ok (InSet expression cs)
  end.

(* ================================================================== *)
(** * The [&] operator ([__and__]) and [And.optimize] *)

(** [Expression.__and__] *)
Definition Expression__and__ (self other : node) : node :=
  match other with
  | Literal _ value => if py_truthy value then self else Boolean (VBool false)
  | And terms => And (self :: terms)
  | _ => And [self; other]
  end.

(** [Literal.__and__] *)
Definition Literal__and__ (cls : literal_class) (value : pyval) (other : node)
  : node :=
  match other with
  | Literal _ value' => Boolean (py_and value value')
  | _ => if py_truthy value then other else Boolean (VBool false)
  end.

(** [And.__and__], as a value: the list it returns is [self.terms]
    after the [extend] or [append] (the store model below keeps the
    identity of that list). *)
Definition And__and__ (terms : list node) (other : node) : node :=
  match other with
  | And terms' => And (terms ++ terms')
  | _ => And (terms ++ [other])
  end.

(** [(xs[:-1], xs[-1])], when [xs] is not empty. *)
Fixpoint split_last {A : Type} (xs : list A) : option (list A * A) :=
  match xs with
  | [] => None
  | [x] => Some ([], x)
  | x :: xs' =>
    match split_last xs' with
    | Some (init, last) => Some (x :: init, last)
    | None => None
    end
  end.

Fixpoint foldM {A B : Type} (f : A -> B -> result A) (xs : list B) (a : A)
  : result A :=
  match xs with
  | [] => Ok a
  | x :: xs' => a' <- f a x ;; foldM f xs' a'
  end.

(** The loop shared by [And.optimize] and [Or.optimize]: [combine] is
    the operator, [same_kind] recognises a compound of the class being
    optimized and gives its terms, [rebuild] is the class. *)
Section Compound.
Variable combine : node -> node -> result node.
Variable same_kind : node -> option (list node).
Variable rebuild : list node -> node.

Definition compound_step (st : list node * node) (term : node)
  : result (list node * node) :=
  current <- combine (snd st) term ;;
  match same_kind current with
  | Some ts =>
    match split_last ts with
    | Some (init, last) => Ok (fst st ++ init, last)
    | None => Raise IndexError
    end
  | None => Ok (fst st, current)
  end.

Definition compound_optimize (terms : list node) : result node :=
  match terms with
  | [] => Raise IndexError
  | first :: rest =>
    st <- foldM compound_step rest ([], first) ;;
    match fst st with
    | [] => Ok (snd st)
    | ts => Ok (rebuild (ts ++ [snd st]))
    end
  end.
End Compound.

Definition terms_of_And (n : node) : option (list node) :=
  match n with And ts => Some ts | _ => None end.

Definition terms_of_Or (n : node) : option (list node) :=
  match n with Or ts => Some ts | _ => None end.

Section AndOperator.
(** The [&] reached from the [.optimize()] calls inside [__and__]. *)
Variable nested_and : node -> node -> result node.

(** [And.optimize] *)
Definition And_optimize_with (terms : list node) : result node :=
  compound_optimize nested_and terms_of_And And terms.

(** [InSet.__and__] *)
Definition InSet__and__ (expression : node) (container : list node)
           (other : node) : result node :=
  let self := InSet expression container in
  let super := Ok (Expression__and__ self other) in
  match other with
  | InSet expression' container' =>
    if node_eqb expression expression' then
      if is_literal container && is_literal container' then
        container1 <- _get_literals container ;;
        container2 <- _get_literals container' ;;
        let reduced :=
          od_values (filter (fun kv => od_mem (fst kv) container2) container1) in
        InSet_optimize expression reduced
      else super
    else super
  | Not (InSet expression' container') =>
    if node_eqb expression expression' then
      (* Check if one set is being subtracted from another *)
      if is_literal container && is_literal container' then
        container1 <- _get_literals container ;;
        container2 <- _get_literals container' ;;
        let reduced :=
          od_values
            (filter (fun kv => negb (od_mem (fst kv) container2)) container1) in
        InSet_optimize expression reduced
      else super
    else super
  | Comparison left' EQ right' =>
    if node_eqb expression left' then
      if is_literal container && isinstance_Literal right' then
        (* super().__and__(InSet(...)) is And([self, InSet(...)]) *)
        And_optimize_with [self; InSet left' [right']]
      else super
    else super
  | Comparison left' NE right' =>
    if node_eqb expression left' then
      if is_literal container && isinstance_Literal right' then
        (* ~InSet(...) is Not(InSet(...)); super().__and__ of it is an And *)
        And_optimize_with [self; Not (InSet left' [right'])]
      else super
    else super
  | _ => super
  end.

(** [Comparison.__and__] *)
Definition Comparison__and__ (left : node) (c : comparator) (right : node)
           (other : node) : result node :=
  let self := Comparison left c right in
  match c, other with
  | EQ, InSet expression' _ =>
    if node_eqb left expression' then InSet__and__ left [right] other
    else Ok (Expression__and__ self other)
  | _, _ => Ok (Expression__and__ self other)
  end.

(** [self & other]: the method of the class of [self]; the
    query-level classes have none. *)
Definition and_dispatch (self other : node) : result node :=
  match self with
  | Literal cls value => Ok (Literal__and__ cls value other)
  | Comparison l c r => Comparison__and__ l c r other
  | InSet expression container => InSet__and__ expression container other
  | And terms => Ok (And__and__ terms other)
  | EventQuery _ _ => Raise TypeError
  | _ => Ok (Expression__and__ self other)
  end.
End AndOperator.

(** [InSet.__and__] optimizes an [And] it has just built, whose [&] is
    [InSet.__and__] again, on a second operand that is an [InSet] or a
    negated [InSet]; that call builds no further [And].  Two levels of
    [&] therefore cover every call. *)
Definition node_and : node -> node -> result node :=
  and_dispatch (and_dispatch (fun _ _ => OutOfFuel)).

Definition And_optimize : list node -> result node :=
  And_optimize_with node_and.

(* ================================================================== *)
(** * The [|] operator ([__or__]) and [Or.optimize] *)

(** [Expression.__or__] *)
Definition Expression__or__ (self other : node) : node :=
  match other with
  | Literal _ value =>
    if py_truthy value then Boolean (VBool true) else Or [self; other]
  | Or terms => Or (self :: terms)
  | _ => Or [self; other]
  end.

(** [Literal.__or__] *)
Definition Literal__or__ (cls : literal_class) (value : pyval) (other : node)
  : node :=
  match other with
  | Literal _ value' => Boolean (py_or value value')
  | _ => if py_truthy value then Literal cls value else other
  end.

(** [Or.__or__], as a value. *)
Definition Or__or__ (terms : list node) (other : node) : node :=
  match other with
  | Or terms' => Or (terms ++ terms')
  | _ => Or (terms ++ [other])
  end.

(** [Comparison.__or__] *)
Definition Comparison__or__ (left : node) (c : comparator) (right : node)
           (other : node) : node :=
  let self := Comparison left c right in
  let super := Expression__or__ self other in
  if comparator_eqb c EQ && isinstance_Literal right then
    match other with
    | Comparison left' c' right' =>
      if node_eqb left left' && comparator_eqb c' EQ then
        if isinstance_Literal right' then InSet left [right; right'] else super
      else super
    | InSet expression' container' =>
      if node_eqb left expression' && is_literal container' then
        InSet left (right :: container')
      else super
    | _ => super
    end
  else super.

(** [InSet.__or__] *)
Definition InSet__or__ (expression : node) (container : list node)
           (other : node) : result node :=
  let self := InSet expression container in
  let super := Ok (Expression__or__ self other) in
  match other with
  | InSet expression' container' =>
    if node_eqb expression expression' then
      if is_literal container && is_literal container' then
        container1 <- _get_literals container ;;
        container2 <- _get_literals container' ;;
        let union :=
          fold_left (fun d kv => od_setdefault (fst kv) (snd kv) d)
                    container2 container1 in
        InSet_optimize expression (od_values union)
      else super
    else super
  | Comparison left' _ right' =>
    if node_eqb expression left' then
      if is_literal container && isinstance_Literal right' then
        Ok (Expression__or__ self (InSet left' [right']))
      else super
    else super
  | _ => super
  end.

(** [self | other] *)
Definition node_or (self other : node) : result node :=
  match self with
  | Literal cls value => Ok (Literal__or__ cls value other)
  | Comparison l c r => Ok (Comparison__or__ l c r other)
  | InSet expression container => InSet__or__ expression container other
  | Or terms => Ok (Or__or__ terms other)
  | EventQuery _ _ => Raise TypeError
  | _ => Ok (Expression__or__ self other)
  end.

(** [Or.optimize] *)
Definition Or_optimize (terms : list node) : result node :=
  compound_optimize node_or terms_of_Or Or terms.

(* ================================================================== *)
(** * The [~] operator ([__invert__]) *)

(** [~self].  [Not.__invert__] calls [self.term.optimize()]; [opt] is
    that method. *)
Definition node_invert (opt : node -> result node) (self : node) : result node :=
  match self with
  | Literal _ value => Ok (Boolean (py_not value))
  | Comparison l EQ r => Comparison_optimize l NE r
  | Comparison l NE r => Comparison_optimize l EQ r
  | Not term => opt term
  | EventQuery _ _ => Raise TypeError
  | _ => Ok (Not self)
  end.

(* ================================================================== *)
(** * [optimize] *)

(** [Literal.find_type] and [Literal.from_python] on the values of the
    model (every one of them has a literal class). *)
Definition find_type (python_value : pyval) : literal_class :=
  match python_value with
  | VNone => CNull
  | VBool _ => CBoolean
  | VInt _ | VFloat _ => CNumber
  | VStr _ => CString
  end.

Definition from_python (python_value : pyval) : node :=
  Literal (find_type python_value) python_value.

Definition value_of (n : node) : pyval :=
  match n with Literal _ v => v | _ => VNone end.

Definition is_additive (op : math_operator) : bool :=
  match op with Add | Sub => true | _ => false end.

(** The function registry ([functions.get_function]) is an external
    collaborator: a name is unknown, or comes with the [run] callback
    used for folding, which returns a value or raises, possibly
    [NotImplementedError]. *)
Definition registry : Type := string -> option (list pyval -> exn + pyval).

Section Optimizer.
Variable get_function : registry.

Section Methods.
(** The dynamically dispatched [.optimize()] of a child node. *)
Variable opt : node -> result node.

(** [FunctionCall.optimize] *)
Definition FunctionCall_optimize (name : string) (arguments : list node)
           (as_method : bool) : result node :=
  let func := get_function name in
  arguments' <- mapM opt arguments ;;
  match func with
  | Some run =>
    if forallb isinstance_Literal arguments' then
      match run (map value_of arguments') with
      | inr rv => Ok (from_python rv)
      | inl NotImplementedError => Ok (FunctionCall name arguments' as_method)
      | inl e => Raise e
      end
    else Ok (FunctionCall name arguments' as_method)
  | None => Ok (FunctionCall name arguments' as_method)
  end.

(** [MathOperation.optimize] *)
Definition MathOperation_optimize (l : node) (operator : math_operator)
           (r : node) : result node :=
  left <- opt l ;;
  right <- opt r ;;
  let rewrite_sign :=
    match right with
    | MathOperation rleft roperator rright =>
      if node_eqb rleft (Number (VInt 0))
         && (is_additive operator && is_additive roperator) then
        (* a +- b parses as a + (0 - b) should become a + -b *)
        let operator' :=
          if xorb (math_operator_eqb operator Sub)
                  (math_operator_eqb roperator Sub)
          then Sub else Add in
        Ok (MathOperation left operator' rright)
      else Ok (MathOperation left operator right)
    | _ => Ok (MathOperation left operator right)
    end in
  match left, right with
  | Literal CNumber lvalue, Literal CNumber rvalue =>
    (* don't divide by zero when optimizing *)
    if negb (py_eq rvalue (VInt 0)
             && (match operator with TrueDiv | Mod => true | _ => false end))
    then v <- op_lookup operator lvalue rvalue ;; Ok (Number v)
    else rewrite_sign
  | _, _ => rewrite_sign
  end.

(** [Not.optimize] *)
Definition Not_optimize (term : node) : result node :=
  optimized_term <- opt term ;;
  node_invert opt optimized_term.
End Methods.

(** [self.optimize()]: the override of the class of [self], or
    [BaseNode.optimize].  [fuel] bounds the depth of nested calls. *)
Fixpoint optimize (fuel : nat) (self : node) : result node :=
  match fuel with
  | O => OutOfFuel
  | S fuel' =>
    match self with
    | FunctionCall name arguments as_method =>
      FunctionCall_optimize (optimize fuel') name arguments as_method
    | MathOperation l operator r =>
      MathOperation_optimize (optimize fuel') l operator r
    | Comparison l c r => Comparison_optimize l c r
    | InSet expression container => InSet_optimize expression container
    | Not term => Not_optimize (optimize fuel') term
    | And terms => And_optimize terms
    | Or terms => Or_optimize terms
    | _ => Ok self
    end
  end.
End Optimizer.

(* ================================================================== *)
(** * [TimeRange._render] *)

(** [timedelta.total_seconds()]: the microseconds of the delta
    divided by [10**6], a true division of two [int]s. *)
Definition total_seconds (delta : Z) : result Q := int_truediv delta 1000000.

(** [float(interval) / unit], the unit an [int] other than zero. *)
Definition float_div (interval : Q) (unit : Z) : result Q :=
  float_result (interval / inject_Z unit).

(** The numeral and the unit that ['{}{}'.format(decimal, unit)]
    prints, in this order; printing a number is the host's business. *)
Definition TimeRange_render (delta : Z) : result (pyval * string) :=
  interval <- total_seconds delta ;;
  let second := 1%Z in
  let minute := (60 * second)%Z in
  let hour := (minute * 60)%Z in
  let day := (hour * 24)%Z in
  rendered <-
    (if Qle_bool (inject_Z day) interval then
       decimal <- float_div interval day ;; Ok (decimal, "d")
     else if Qle_bool (inject_Z hour) interval then
       decimal <- float_div interval hour ;; Ok (decimal, "h")
     else if Qle_bool (inject_Z minute) interval then
       whole_minutes <- float_rem interval (inject_Z minute) ;;
       in_minutes <-
         (if Qeq_bool whole_minutes 0 then Ok true
          else
            whole_seconds <- float_rem interval (inject_Z second) ;;
            Ok (negb (Qeq_bool whole_seconds 0))) ;;
       if in_minutes : bool then
         decimal <- float_div interval minute ;; Ok (decimal, "m")
       else Ok (interval, "s")
     else Ok (interval, "s")) ;;
  let decimal := fst rendered in
  let unit := snd rendered in
  (* Drop fractional part if it's 0 *)
  if Qeq_bool decimal (inject_Z (Qtrunc decimal))
  then Ok (VInt (Qtrunc decimal), unit)
  else Ok (VFloat decimal, unit).

(* ================================================================== *)
(** * The rewrite walk and [Macro.expand] *)

(** The concrete class of a node. *)
Inductive node_type : Type :=
| TyLiteral (c : literal_class)
| TyTimeRange | TyField | TyFunctionCall | TyNamedSubquery
| TyMathOperation | TyComparison | TyInSet | TyNot | TyAnd | TyOr
| TyEventQuery.

Definition type_of (n : node) : node_type :=
  match n with
  | Literal c _ => TyLiteral c
  | TimeRange _ => TyTimeRange
  | Field _ _ => TyField
  | FunctionCall _ _ _ => TyFunctionCall
  | NamedSubquery _ _ => TyNamedSubquery
  | MathOperation _ _ _ => TyMathOperation
  | Comparison _ _ _ => TyComparison
  | InSet _ _ => TyInSet
  | Not _ => TyNot
  | And _ => TyAnd
  | Or _ => TyOr
  | EventQuery _ _ => TyEventQuery
  end.

Definition node_type_eqb (a b : node_type) : bool :=
  match a, b with
  | TyLiteral c, TyLiteral c' => literal_class_eqb c c'
  | TyTimeRange, TyTimeRange | TyField, TyField
  | TyFunctionCall, TyFunctionCall | TyNamedSubquery, TyNamedSubquery
  | TyMathOperation, TyMathOperation | TyComparison, TyComparison
  | TyInSet, TyInSet | TyNot, TyNot | TyAnd, TyAnd | TyOr, TyOr
  | TyEventQuery, TyEventQuery => true
  | _, _ => false
  end.

(** Modelled from the spec: [walkers.RecursiveWalker] is not part of
    the sources at hand.  The rewrite walk first rewrites every child
    (an attribute holding a node or a list of nodes), building a node of
    the same class from the rewritten children; a callback registered
    for the class of the node is then called on the rebuilt node and its
    result returned, otherwise the rebuilt node is. *)
Section RecursiveWalker.
Variable callbacks : node_type -> option (node -> result node).

Fixpoint walk (n : node) : result node :=
  rebuilt <-
    match n with
    | Literal c v => Ok (Literal c v)
    | TimeRange d => Ok (TimeRange d)
    | Field base path => Ok (Field base path)
    | FunctionCall name arguments as_method =>
      arguments' <- mapM walk arguments ;;
      Ok (FunctionCall name arguments' as_method)
    | NamedSubquery query_type query =>
      query' <- walk query ;; Ok (NamedSubquery query_type query')
    | MathOperation l operator r =>
      l' <- walk l ;; r' <- walk r ;; Ok (MathOperation l' operator r')
    | Comparison l c r =>
      l' <- walk l ;; r' <- walk r ;; Ok (Comparison l' c r')
    | InSet expression container =>
      expression' <- walk expression ;;
      container' <- mapM walk container ;;
      Ok (InSet expression' container')
    | Not term => term' <- walk term ;; Ok (Not term')
    | And terms => terms' <- mapM walk terms ;; Ok (And terms')
    | Or terms => terms' <- mapM walk terms ;; Ok (Or terms')
    | EventQuery event_type query =>
      query' <- walk query ;; Ok (EventQuery event_type query')
    end ;;
  match callbacks (type_of n) with
  | Some callback => callback rebuilt
  | None => Ok rebuilt
  end.
End RecursiveWalker.

(** [walker.register_func(cls, func)] on a fresh walker. *)
Definition register_func (cls : node_type) (func : node -> result node)
  : node_type -> option (node -> result node) :=
  fun t => if node_type_eqb cls t then Some func else None.

Record Macro : Type := {
  macro_name : string;
  parameters : list string;
  expression : node
}.

(** [dict(zip(parameters, arguments)).get(k)]: a repeated parameter
    keeps its last argument. *)
Fixpoint zip_lookup (ps : list string) (args : list node) (k : string)
  : option node :=
  match ps, args with
  | p :: ps', a :: args' =>
    match zip_lookup ps' args' k with
    | Some v => Some v
    | None => if String.eqb p k then Some a else None
    end
  | _, _ => None
  end.

(** [str(n)] for a length. *)
Definition str_of_nat (n : nat) : string :=
  NilZero.string_of_uint (Nat.to_uint n).

Definition arity_message (name : string) (expected received : nat) : string :=
  "Macro " ++ name ++ " expected " ++ str_of_nat expected
  ++ " arguments but received " ++ str_of_nat received.

Section MacroExpand.
Variable get_function : registry.
(** Recursion budget of the [optimize] calls. *)
Variable fuel : nat.

(** The closure [_walk_field] of [Macro.expand]. *)
Definition _walk_field (m : Macro) (arguments : list node) (n : node)
  : result node :=
  match n with
  | Field base path =>
    match zip_lookup (parameters m) arguments base, path with
    | Some argument, [] => optimize get_function fuel argument
    | _, _ => Ok n
    end
  | _ => Ok n
  end.

(** [Macro.expand] *)
Definition Macro_expand (m : Macro) (arguments : list node) : result node :=
  if negb (Nat.eqb (List.length arguments) (List.length (parameters m))) then
    Raise (ValueError (arity_message (macro_name m)
                                     (List.length (parameters m))
                                     (List.length arguments)))
  else
    walked <- walk (register_func TyField (_walk_field m arguments))
                   (expression m) ;;
    optimize get_function fuel walked.
End MacroExpand.

(* ================================================================== *)
(** * The store model: [terms] lists as shared objects

    [And.__and__] and [Or.__or__] extend [self.terms] in place.  Here
    the list held by an [And] or [Or] node is an address into a store
    of lists, so that two nodes can hold the same list; every other
    attribute is never written after construction and stays a value.
    The methods are those of the value model, threaded through the
    store. *)

Module Store.

Definition loc : Type := nat.

#[warnings="-register-all"]
Inductive hnode : Type :=
| HLiteral (cls : literal_class) (value : pyval)
| HTimeRange (delta : Z)
| HField (base : string) (path : list path_key)
| HFunctionCall (name : string) (arguments : list hnode) (as_method : bool)
| HNamedSubquery (query_type : string) (query : hnode)
| HMathOperation (left : hnode) (operator : math_operator) (right : hnode)
| HComparison (left : hnode) (cmp : comparator) (right : hnode)
| HInSet (expression : hnode) (container : list hnode)
| HNot (term : hnode)
| HAnd (terms : loc)
| HOr (terms : loc)
| HEventQuery (event_type : string) (query : hnode).

Definition store : Type := list (list hnode).

Definition read (st : store) (l : loc) : list hnode := nth l st [].

Fixpoint write (st : store) (l : loc) (v : list hnode) : store :=
  match st, l with
  | [], _ => []
  | _ :: st', O => v :: st'
  | x :: st', S l' => x :: write st' l' v
  end.

(** A new list object. *)
Definition alloc (st : store) (v : list hnode) : loc * store :=
  (List.length st, st ++ [v]).

Definition HBoolean (v : pyval) : hnode := HLiteral CBoolean v.

Definition isinstance_HLiteral (h : hnode) : bool :=
  match h with HLiteral _ _ => true | _ => false end.

(** The tree a node denotes in a store.  [fuel] bounds the depth (a
    store can hold a list that contains itself). *)
Fixpoint reify (fuel : nat) (st : store) (h : hnode) : result node :=
  match fuel with
  | O => OutOfFuel
  | S fuel' =>
    let go := reify fuel' st in
    match h with
    | HLiteral c v => Ok (Literal c v)
    | HTimeRange d => Ok (TimeRange d)
    | HField b p => Ok (Field b p)
    | HFunctionCall f xs m => xs' <- mapM go xs ;; Ok (FunctionCall f xs' m)
    | HNamedSubquery t q => q' <- go q ;; Ok (NamedSubquery t q')
    | HMathOperation l o r => l' <- go l ;; r' <- go r ;; Ok (MathOperation l' o r')
    | HComparison l c r => l' <- go l ;; r' <- go r ;; Ok (Comparison l' c r')
    | HInSet e xs => e' <- go e ;; xs' <- mapM go xs ;; Ok (InSet e' xs')
    | HNot t => t' <- go t ;; Ok (Not t')
    | HAnd l => ts <- mapM go (read st l) ;; Ok (And ts)
    | HOr l => ts <- mapM go (read st l) ;; Ok (Or ts)
    | HEventQuery t q => q' <- go q ;; Ok (EventQuery t q')
    end
  end.

(** A tree laid out in the store, one new list per [And] and [Or]
    node: nothing is shared. *)
Fixpoint alloc_node (n : node) (st : store) : hnode * store :=
  let alloc_list :=
    fix alloc_list (ns : list node) (st : store) : list hnode * store :=
      match ns with
      | [] => ([], st)
      | n' :: ns' =>
        let (h, st1) := alloc_node n' st in
        let (hs, st2) := alloc_list ns' st1 in
        (h :: hs, st2)
      end in
  match n with
  | Literal c v => (HLiteral c v, st)
  | TimeRange d => (HTimeRange d, st)
  | Field b p => (HField b p, st)
  | FunctionCall f xs m =>
    let (xs', st1) := alloc_list xs st in (HFunctionCall f xs' m, st1)
  | NamedSubquery t q =>
    let (q', st1) := alloc_node q st in (HNamedSubquery t q', st1)
  | MathOperation l o r =>
    let (l', st1) := alloc_node l st in
    let (r', st2) := alloc_node r st1 in
    (HMathOperation l' o r', st2)
  | Comparison l c r =>
    let (l', st1) := alloc_node l st in
    let (r', st2) := alloc_node r st1 in
    (HComparison l' c r', st2)
  | InSet e xs =>
    let (e', st1) := alloc_node e st in
    let (xs', st2) := alloc_list xs st1 in
    (HInSet e' xs', st2)
  | Not t => let (t', st1) := alloc_node t st in (HNot t', st1)
  | And ts =>
    let (ts', st1) := alloc_list ts st in
    let (l, st2) := alloc st1 ts' in (HAnd l, st2)
  | Or ts =>
    let (ts', st1) := alloc_list ts st in
    let (l, st2) := alloc st1 ts' in (HOr l, st2)
  | EventQuery t q =>
    let (q', st1) := alloc_node q st in (HEventQuery t q', st1)
  end.

Section Methods.
(** Depth budget of the structural comparisons. *)
Variable fuel : nat.

(** [a == b] *)
Definition h_eqb (st : store) (a b : hnode) : result bool :=
  a' <- reify fuel st a ;; b' <- reify fuel st b ;; Ok (node_eqb a' b').

(** [x in xs] *)
Fixpoint h_in (st : store) (x : hnode) (xs : list hnode) : result bool :=
  match xs with
  | [] => Ok false
  | y :: ys => b <- h_eqb st y x ;; if b then Ok true else h_in st x ys
  end.

(** [Comparison.optimize] *)
Definition Comparison_optimize (st : store) (left : hnode) (c : comparator)
           (right : hnode) : result hnode :=
  match left, right with
  | HLiteral cl lhs, HLiteral cr rhs =>
    if negb (literal_class_eqb cr cl) then
      Ok (HBoolean (VBool (comparator_eqb c NE)))
    else
      lr <- (match cl with
             | CString => l <- py_lower lhs ;; r <- py_lower rhs ;; Ok (l, r)
             | _ => Ok (lhs, rhs)
             end) ;;
      b <- func_lookup c (fst lr) (snd lr) ;;
      Ok (HBoolean b)
  | _, _ =>
    same <- h_eqb st left right ;;
    if same then
      Ok (HBoolean (VBool (match c with EQ | LE | GE => true | _ => false end)))
    else Ok (HComparison left c right)
  end.

Definition is_literal (container : list hnode) : bool :=
  forallb isinstance_HLiteral container.

(** [InSet._get_literals] *)
Fixpoint get_literals_from (container : list hnode) (values : odict hnode)
  : result (odict hnode) :=
  match container with
  | [] => Ok values
  | HLiteral CString k :: rest =>
    kl <- py_lower k ;;
    get_literals_from rest (od_setdefault kl (HLiteral CString k) values)
  | HLiteral c k :: rest =>
    get_literals_from rest (od_set k (HLiteral c k) values)
  | _ :: rest => get_literals_from rest values
  end.

Definition _get_literals (container : list hnode) : result (odict hnode) :=
  get_literals_from container [].

(** [InSet.optimize] *)
Definition InSet_optimize (st : store) (expression : hnode)
           (container : list hnode) : result hnode :=
  lits <- _get_literals container ;;
  let literals := od_values lits in
  let dynamic := filter (fun v => negb (isinstance_HLiteral v)) container in
  cont <- (match expression with
           | HLiteral _ value =>
             value' <- (if is_string value then py_lower value else Ok value) ;;
             lits' <- _get_literals container ;;
             if od_mem value' lits' then Ok None else Ok (Some dynamic)
           | _ => Ok (Some (literals ++ dynamic))
           end) ;;
  match cont with
  | None => Ok (HBoolean (VBool true))
  | Some [] => Ok (HBoolean (VBool false))
  | Some [item] => Comparison_optimize st expression EQ item
  | Some cs =>
    found <- h_in st expression cs ;;
    if found then Ok (HBoolean (VBool true)) else Ok (HInSet expression cs)
  end.

(** [Expression.__and__]: the [And] it returns holds a new list. *)
Definition Expression__and__ (self other : hnode) (st : store)
  : hnode * store :=
  match other with
  | HLiteral _ value =>
    (if py_truthy value then self else HBoolean (VBool false), st)
  | HAnd l => let (l', st') := alloc st (self :: read st l) in (HAnd l', st')
  | _ => let (l', st') := alloc st [self; other] in (HAnd l', st')
  end.

(** [Literal.__and__] *)
Definition Literal__and__ (cls : literal_class) (value : pyval)
           (other : hnode) : hnode :=
  match other with
  | HLiteral _ value' => HBoolean (py_and value value')
  | _ => if py_truthy value then other else HBoolean (VBool false)
  end.

(** [And.__and__]: [terms = self.terms] names the list of [self];
    [extend] and [append] write to it, and the [And] returned
    holds that same list. *)
Definition And__and__ (terms : loc) (other : hnode) (st : store)
  : hnode * store :=
  match other with
  | HAnd l' => (HAnd terms, write st terms (read st terms ++ read st l'))
  | _ => (HAnd terms, write st terms (read st terms ++ [other]))
  end.

(** The loop of [And.optimize] and [Or.optimize].  The local list
    [terms] becomes an object only when the result is built. *)
Section Compound.
Variable combine : hnode -> hnode -> store -> result (hnode * store).
Variable same_kind : hnode -> option loc.
Variable rebuild : loc -> hnode.

Fixpoint compound_loop (rest : list hnode) (terms : list hnode)
         (current : hnode) (st : store)
  : result (list hnode * hnode * store) :=
  match rest with
  | [] => Ok (terms, current, st)
  | term :: rest' =>
    r <- combine current term st ;;
    let (current', st') := r in
    match same_kind current' with
    | Some l =>
      match split_last (read st' l) with
      | Some (init, last) => compound_loop rest' (terms ++ init) last st'
      | None => Raise IndexError
      end
    | None => compound_loop rest' terms current' st'
    end
  end.

Definition compound_optimize (self_terms : loc) (st : store)
  : result (hnode * store) :=
  match read st self_terms with
  | [] => Raise IndexError
  | first :: rest =>
    r <- compound_loop rest [] first st ;;
    let '(terms, current, st') := r in
    match terms with
    | [] => Ok (current, st')
    | _ =>
      let (l, st'') := alloc st' (terms ++ [current]) in
      Ok (rebuild l, st'')
    end
  end.
End Compound.

Definition terms_of_And (h : hnode) : option loc :=
  match h with HAnd l => Some l | _ => None end.

Definition terms_of_Or (h : hnode) : option loc :=
  match h with HOr l => Some l | _ => None end.

Section AndOperator.
Variable nested_and : hnode -> hnode -> store -> result (hnode * store).

Definition And_optimize_with (terms : loc) (st : store)
  : result (hnode * store) :=
  compound_optimize nested_and terms_of_And HAnd terms st.

(** The shared tail of the set-algebra branches of
    [InSet.__and__]: keep the entries of [self] that pass [keep]. *)
Definition reduce_literals (keep : odict hnode -> pyval -> bool)
           (st : store) (expression : hnode)
           (container container' : list hnode) : result (hnode * store) :=
  container1 <- _get_literals container ;;
  container2 <- _get_literals container' ;;
  let reduced :=
    od_values (filter (fun kv => keep container2 (fst kv)) container1) in
  r <- InSet_optimize st expression reduced ;;
  Ok (r, st).

(** [InSet.__and__] *)
Definition InSet__and__ (expression : hnode) (container : list hnode)
           (other : hnode) (st : store) : result (hnode * store) :=
  let self := HInSet expression container in
  let super := Ok (Expression__and__ self other st) in
  match other with
  | HInSet expression' container' =>
    same <- h_eqb st expression expression' ;;
    if same then
      if is_literal container && is_literal container' then
        reduce_literals (fun d k => od_mem k d) st
                        expression container container'
      else super
    else super
  | HNot (HInSet expression' container') =>
    same <- h_eqb st expression expression' ;;
    if same then
      if is_literal container && is_literal container' then
        reduce_literals (fun d k => negb (od_mem k d)) st
                        expression container container'
      else super
    else super
  | HComparison left' EQ right' =>
    same <- h_eqb st expression left' ;;
    if same then
      if is_literal container && isinstance_HLiteral right' then
        let (l, st') := alloc st [self; HInSet left' [right']] in
        And_optimize_with l st'
      else super
    else super
  | HComparison left' NE right' =>
    same <- h_eqb st expression left' ;;
    if same then
      if is_literal container && isinstance_HLiteral right' then
        let (l, st') := alloc st [self; HNot (HInSet left' [right'])] in
        And_optimize_with l st'
      else super
    else super
  | _ => super
  end.

(** [Comparison.__and__] *)
Definition Comparison__and__ (left : hnode) (c : comparator)
           (right other : hnode) (st : store) : result (hnode * store) :=
  let self := HComparison left c right in
  match c, other with
  | EQ, HInSet expression' _ =>
    same <- h_eqb st left expression' ;;
    if same then InSet__and__ left [right] other st
    else Ok (Expression__and__ self other st)
  | _, _ => Ok (Expression__and__ self other st)
  end.

Definition and_dispatch (self other : hnode) (st : store)
  : result (hnode * store) :=
  match self with
  | HLiteral cls value => Ok (Literal__and__ cls value other, st)
  | HComparison l c r => Comparison__and__ l c r other st
  | HInSet expression container => InSet__and__ expression container other st
  | HAnd terms => Ok (And__and__ terms other st)
  | HEventQuery _ _ => Raise TypeError
  | _ => Ok (Expression__and__ self other st)
  end.
End AndOperator.

Definition node_and : hnode -> hnode -> store -> result (hnode * store) :=
  and_dispatch (and_dispatch (fun _ _ _ => OutOfFuel)).

(** [And.optimize], for the node whose [terms] is the given list. *)
Definition And_optimize : loc -> store -> result (hnode * store) :=
  And_optimize_with node_and.

(** [Expression.__or__] *)
Definition Expression__or__ (self other : hnode) (st : store)
  : hnode * store :=
  match other with
  | HLiteral _ value =>
    if py_truthy value then (HBoolean (VBool true), st)
    else let (l', st') := alloc st [self; other] in (HOr l', st')
  | HOr l => let (l', st') := alloc st (self :: read st l) in (HOr l', st')
  | _ => let (l', st') := alloc st [self; other] in (HOr l', st')
  end.

(** [Literal.__or__] *)
Definition Literal__or__ (cls : literal_class) (value : pyval)
           (other : hnode) : hnode :=
  match other with
  | HLiteral _ value' => HBoolean (py_or value value')
  | _ => if py_truthy value then HLiteral cls value else other
  end.

(** [Or.__or__]: writes to the list of [self], like [And.__and__]. *)
Definition Or__or__ (terms : loc) (other : hnode) (st : store)
  : hnode * store :=
  match other with
  | HOr l' => (HOr terms, write st terms (read st terms ++ read st l'))
  | _ => (HOr terms, write st terms (read st terms ++ [other]))
  end.

(** [Comparison.__or__] *)
Definition Comparison__or__ (left : hnode) (c : comparator)
           (right other : hnode) (st : store) : result (hnode * store) :=
  let self := HComparison left c right in
  let super := Ok (Expression__or__ self other st) in
  if comparator_eqb c EQ && isinstance_HLiteral right then
    match other with
    | HComparison left' c' right' =>
      same <- h_eqb st left left' ;;
      if same && comparator_eqb c' EQ then
        if isinstance_HLiteral right' then
          Ok (HInSet left [right; right'], st)
        else super
      else super
    | HInSet expression' container' =>
      same <- h_eqb st left expression' ;;
      if same && is_literal container' then
        Ok (HInSet left (right :: container'), st)
      else super
    | _ => super
    end
  else super.

(** [InSet.__or__] *)
Definition InSet__or__ (expression : hnode) (container : list hnode)
           (other : hnode) (st : store) : result (hnode * store) :=
  let self := HInSet expression container in
  let super := Ok (Expression__or__ self other st) in
  match other with
  | HInSet expression' container' =>
    same <- h_eqb st expression expression' ;;
    if same then
      if is_literal container && is_literal container' then
        container1 <- _get_literals container ;;
        container2 <- _get_literals container' ;;
        let union :=
          fold_left (fun d kv => od_setdefault (fst kv) (snd kv) d)
                    container2 container1 in
        r <- InSet_optimize st expression (od_values union) ;;
        Ok (r, st)
      else super
    else super
  | HComparison left' _ right' =>
    same <- h_eqb st expression left' ;;
    if same then
      if is_literal container && isinstance_HLiteral right' then
        Ok (Expression__or__ self (HInSet left' [right']) st)
      else super
    else super
  | _ => super
  end.

Definition node_or (self other : hnode) (st : store)
  : result (hnode * store) :=
  match self with
  | HLiteral cls value => Ok (Literal__or__ cls value other, st)
  | HComparison l c r => Comparison__or__ l c r other st
  | HInSet expression container => InSet__or__ expression container other st
  | HOr terms => Ok (Or__or__ terms other st)
  | HEventQuery _ _ => Raise TypeError
  | _ => Ok (Expression__or__ self other st)
  end.

(** [Or.optimize] *)
Definition Or_optimize : loc -> store -> result (hnode * store) :=
  compound_optimize node_or terms_of_Or HOr.
End Methods.

(** A tree laid out with nothing shared, and read back. *)
Definition lay_out_then_read (fuel : nat) (x : node) : result node :=
  let (h, st) := alloc_node x [] in reify fuel st h.

(** [x.optimize()] for an [And] or [Or] tree [x] laid out with nothing
    shared, read back together with [x] itself after the call. *)
Definition optimize_then_reread (fuel : nat) (x : node) : result (node * node) :=
  let (h, st) := alloc_node x [] in
  r <- (match h with
        | HAnd terms => And_optimize fuel terms st
        | HOr terms => Or_optimize fuel terms st
        | _ => Ok (h, st)
        end) ;;
  let (h', st') := r in
  optimized <- reify fuel st' h' ;;
  x_after <- reify fuel st' h ;;
  Ok (optimized, x_after).

End Store.

(* ================================================================== *)
(** * [BaseNode.__ne__] *)

Definition BaseNode__ne__ (a b : node) : bool := negb (node_eqb a b).

(* ================================================================== *)
(** * [String.escape], [String.unescape] and [String._render] *)

Definition backslash : ascii := "\"%char.
Definition backspace : ascii := "008"%char.
Definition tab : ascii := "009"%char.
Definition newline : ascii := "010"%char.
Definition formfeed : ascii := "012"%char.
Definition carriage_return : ascii := "013"%char.
Definition double_quote : ascii := "034"%char.
Definition single_quote : ascii := "039"%char.

(** [String.escape_patterns]: a character and the two characters that
    stand for it. *)
Definition escape_patterns : list (string * string) :=
  [ (String backslash "", "\\");
    (String backspace "", "\b");
    (String tab "", "\t");
    (String carriage_return "", "\r");
    (String newline "", "\n");
    (String formfeed "", "\f");
    (String double_quote "", String backslash (String double_quote ""));
    (String single_quote "", String backslash (String single_quote "")) ].

(** [String.reverse_patterns] *)
Definition reverse_patterns : list (string * string) :=
  map (fun kv => (snd kv, fst kv)) escape_patterns.

(** [d.get(k, default)] *)
Fixpoint dict_get (d : list (string * string)) (k default : string) : string :=
  match d with
  | [] => default
  | (k', v) :: d' => if String.eqb k' k then v else dict_get d' k default
  end.

(** The characters of a regular-expression class [[...]], from the
    text between the brackets: a backslash and one of the letters
    below stand for a control character, a backslash and any other
    character for that character, and any other character, [|]
    included, for itself. *)
Definition class_escape (c : ascii) : ascii :=
  if Ascii.eqb c "b" then backspace
  else if Ascii.eqb c "t" then tab
  else if Ascii.eqb c "r" then carriage_return
  else if Ascii.eqb c "n" then newline
  else if Ascii.eqb c "f" then formfeed
  else c.

Fixpoint class_of (text : string) : list ascii :=
  match text with
  | String "\" (String c rest) => class_escape c :: class_of rest
  | String c rest => c :: class_of rest
  | EmptyString => []
  end.

(** [String.escape_re]: the escapes joined by [|], as a class. *)
Definition escape_re : list ascii :=
  class_of (String.concat "|" (map snd escape_patterns)).

(** What [re.sub] puts for one character of the subject in
    [String.escape]: the callback's answer for a character of the
    class, the character itself otherwise. *)
Definition escaped (c : ascii) : string :=
  if existsb (Ascii.eqb c) escape_re
  then dict_get escape_patterns (String c "") (String c "")
  else String c "".

(** [String.escape] *)
Fixpoint escape (s : string) : string :=
  match s with
  | EmptyString => EmptyString
  | String c s' => escaped c ++ escape s'
  end.

(** [String.unescape]: [re.sub] on the pattern of a backslash and any
    character but a newline, from left to right. *)
Fixpoint unescape (s : string) : string :=
  match s with
  | String "\" (String c rest as tl) =>
    if Ascii.eqb c newline then String "\" (unescape tl)
    else dict_get reverse_patterns (String "\" (String c ""))
                  (String "\" (String c "")) ++ unescape rest
  | String c rest => String c (unescape rest)
  | EmptyString => EmptyString
  end.

(** [String._render]; [re.sub] takes a string only. *)
Definition String_render (value : pyval) : result string :=
  match value with
  | VStr s => Ok (String double_quote (escape s ++ String double_quote ""))
  | _ => Raise TypeError
  end.

(* ================================================================== *)
(** * [Field]: events of a sequence, [full_path] and [_render] *)

(** [Field.EVENTS] *)
Definition EVENTS : string := "events".

(** Modelled from the spec: [utils.is_number] and [utils.is_string]
    are not part of the sources at hand; of the keys of a path, an
    array position is a number and a sub-field name a string. *)
Definition key_is_number (k : path_key) : bool :=
  match k with KeyInt _ => true | KeyStr _ => false end.

Definition key_is_string (k : path_key) : bool :=
  match k with KeyStr _ => true | KeyInt _ => false end.

(** [Field.query_multiple_events]: the index into the event array and
    the field queried there. *)
Definition query_multiple_events (base : string) (path : list path_key)
  : Z * node :=
  let self := Field base path in
  match path with
  | key0 :: key1 :: rest =>
    if String.eqb base EVENTS && Nat.leb 2 (List.length path) then
      if key_is_number key0 && key_is_string key1 then
        match key0, key1 with
        | KeyInt index, KeyStr name => (index, Field name rest)
        | _, _ => (0%Z, self)
        end
      else (0%Z, self)
    else (0%Z, self)
  | _ => (0%Z, self)
  end.

(** [Field.full_path] *)
Definition full_path (base : string) (path : list path_key) : list path_key :=
  KeyStr base :: path.

(** ['{}'.format(i)] for an integer. *)
Definition str_of_Z (i : Z) : string := NilZero.string_of_int (Z.to_int i).

(** [Field._render] *)
Definition Field_render (base : string) (path : list path_key) : string :=
  fold_left
    (fun text key =>
       let formatted := match key with KeyInt i => str_of_Z i | KeyStr s => s end in
       if key_is_number key
       then (text ++ "[" ++ formatted ++ "]")%string
       else (text ++ "." ++ formatted)%string)
    path base.

(* ================================================================== *)
(** * [InSet.split_literals] and [InSet.synonym] *)

(** [InSet.split_literals]: the two sets it fills are its own, so
    that their lists are values here. *)
Definition split_literals (expression : node) (container : list node)
  : result node :=
  if is_dynamic container || is_literal container then
    Ok (InSet expression container)
  else
    let literals := filter isinstance_Literal container in
    let dynamic := filter (fun item => negb (isinstance_Literal item)) container in
    l <- InSet_optimize expression literals ;;
    d <- InSet_optimize expression dynamic ;;
    node_or l d.

(** [InSet.synonym] *)
Definition synonym (expression : node) (container : list node) : node :=
  Or (map (fun v => Comparison expression EQ v) container).

(* ================================================================== *)
(** * [PipeCommand.register]

    What a registration comes to: the value is stored, or the name is
    taken and [KeyError] raised with its message. *)

Inductive keyed (A : Type) : Type :=
| Stored (a : A)
| KeyError (msg : string).

Arguments Stored {A} a.
Arguments KeyError {A} msg.

(** The pipe classes are objects of the host: they are compared by
    identity, [str] gives their text, and each carries its [name]
    attribute.  [PipeCommand.lookup] is the dictionary of the
    registered classes. *)
Section PipeCommand.
Variable pipe_class : Type.
Variable same_class : forall a b : pipe_class, {a = b} + {a <> b}.
Variable class_text : pipe_class -> string.

Record pipes : Type := {
  lookup : list (string * pipe_class);
  name_of : pipe_class -> option string
}.

(** [d[k]], when [k in d] *)
Fixpoint lookup_get (d : list (string * pipe_class)) (k : string)
  : option pipe_class :=
  match d with
  | [] => None
  | (k', v) :: d' => if String.eqb k' k then Some v else lookup_get d' k
  end.

(** [d[k] = v] *)
Fixpoint lookup_set (d : list (string * pipe_class)) (k : string) (v : pipe_class)
  : list (string * pipe_class) :=
  match d with
  | [] => [(k, v)]
  | (k', v') :: d' =>
    if String.eqb k' k then (k', v) :: d' else (k', v') :: lookup_set d' k v
  end.

(** [PipeCommand.register(name)(pipe_class)]: the state it leaves and
    its outcome. *)
Definition register (name : string) (c : pipe_class) (st : pipes)
  : pipes * keyed pipe_class :=
  let st1 := {| lookup := lookup st;
                name_of := fun c' => if same_class c' c then Some name
                                     else name_of st c' |} in
  match lookup_get (lookup st1) name with
  | Some old =>
    (st1, KeyError ("Pipe " ++ class_text old ++ " already registered as " ++ name))
  | None =>
    ({| lookup := lookup_set (lookup st1) name c; name_of := name_of st1 |},
     Stored c)
  end.
End PipeCommand.

Arguments lookup {pipe_class} p.
Arguments name_of {pipe_class} p c.
Arguments lookup_get {pipe_class} d k.
Arguments lookup_set {pipe_class} d k v.
Arguments register {pipe_class} same_class class_text name c st.

(* ================================================================== *)
(** * Definitions and the [PreProcessor] *)

(** [d[k]], when [k in d] *)
Fixpoint od_get {V : Type} (k : pyval) (d : odict V) : option V :=
  match d with
  | [] => None
  | (k', v) :: d' => if py_eq k' k then Some v else od_get k d'
  end.

Record Constant : Type := {
  constant_name : string;
  constant_value : node
}.

(** A [BaseMacro]: a [Macro], or a [CustomMacro] with its callback,
    which returns a tree or raises. *)
Inductive BaseMacro : Type :=
| AMacro (m : Macro)
| ACustomMacro (name : string) (callback : list node -> exn + node).

Inductive definition : Type :=
| DMacro (m : BaseMacro)
| DConstant (c : Constant).

Definition definition_name (d : definition) : string :=
  match d with
  | DMacro (AMacro m) => macro_name m
  | DMacro (ACustomMacro name _) => name
  | DConstant c => constant_name c
  end.

(** The two dictionaries of a [PreProcessor], keyed by name. *)
Record PreProcessor : Type := {
  constants : odict Constant;
  macros : odict BaseMacro
}.

Section PreProcessing.
Variable get_function : registry.
(** Recursion budget of the [optimize] calls. *)
Variable fuel : nat.

(** [macro.expand(arguments)]: [Macro.expand], or [CustomMacro.expand],
    which optimizes what the callback returns. *)
Definition BaseMacro_expand (m : BaseMacro) (arguments : list node)
  : result node :=
  match m with
  | AMacro m => Macro_expand get_function fuel m arguments
  | ACustomMacro _ callback =>
    match callback arguments with
    | inr n => optimize get_function fuel n
    | inl e => Raise e
    end
  end.

Section Walker.
Variable self : PreProcessor.

(** Modelled from the spec: [walkers.RecursiveWalker] is not part of
    the sources at hand.  The walk of a [PreProcessorWalker] hands a
    field to its [_walk_field] and a function call to its
    [_walk_function_call], both given below as the source has them;
    [_walk_base_node], their fallback and the walk of every other
    class, builds a node of the same class from the walked children. *)
Fixpoint PreProcessorWalker_walk (n : node) : result node :=
  match n with
  | Field base path =>
    (* _walk_field *)
    match od_get (VStr base) (constants self), path with
    | Some constant, [] => Ok (constant_value constant)
    | _, _ => Ok (Field base path)
    end
  | FunctionCall name arguments as_method =>
    (* _walk_function_call *)
    match od_get (VStr name) (macros self) with
    | Some macro =>
      arguments' <- mapM PreProcessorWalker_walk arguments ;;
      BaseMacro_expand macro arguments'
    | None =>
      arguments' <- mapM PreProcessorWalker_walk arguments ;;
      Ok (FunctionCall name arguments' as_method)
    end
  | Literal c v => Ok (Literal c v)
  | TimeRange d => Ok (TimeRange d)
  | NamedSubquery query_type query =>
    query' <- PreProcessorWalker_walk query ;; Ok (NamedSubquery query_type query')
  | MathOperation l operator r =>
    l' <- PreProcessorWalker_walk l ;; r' <- PreProcessorWalker_walk r ;;
    Ok (MathOperation l' operator r')
  | Comparison l c r =>
    l' <- PreProcessorWalker_walk l ;; r' <- PreProcessorWalker_walk r ;;
    Ok (Comparison l' c r')
  | InSet expression container =>
    expression' <- PreProcessorWalker_walk expression ;;
    container' <- mapM PreProcessorWalker_walk container ;;
    Ok (InSet expression' container')
  | Not term => term' <- PreProcessorWalker_walk term ;; Ok (Not term')
  | And terms => terms' <- mapM PreProcessorWalker_walk terms ;; Ok (And terms')
  | Or terms => terms' <- mapM PreProcessorWalker_walk terms ;; Ok (Or terms')
  | EventQuery event_type query =>
    query' <- PreProcessorWalker_walk query ;; Ok (EventQuery event_type query')
  end.


(** [PreProcessor.expand] on a macro that is being defined.
    Modelled from the spec: the walk of a [Macro] walks its body and
    keeps its name and parameters; a [CustomMacro] has no body. *)
Definition PreProcessor_expand_macro (root : BaseMacro) : result BaseMacro :=
  match constants self, macros self with
  | [], [] => Ok root
  | _, _ =>
    match root with
    | AMacro m =>
      expression' <- PreProcessorWalker_walk (expression m) ;;
      Ok (AMacro {| macro_name := macro_name m;
                    parameters := parameters m;
                    expression := expression' |})
    | ACustomMacro _ _ => Ok root
    end
  end.

(** [PreProcessor.add_definition]: the preprocessor it leaves, or the
    [KeyError] it raises, having changed nothing. *)
Definition add_definition (d : definition) : result (keyed PreProcessor) :=
  let name := definition_name d in
  match d with
  | DMacro m =>
    (* The macro may call into other macros so it should be expanded *)
    expanded_macro <- PreProcessor_expand_macro m ;;
    Ok (Stored {| constants := constants self;
                  macros := od_set (VStr name) expanded_macro (macros self) |})
  | DConstant c =>
    if od_mem (VStr name) (constants self)
    then Ok (KeyError ("Constant " ++ name ++ " already defined"))
    else Ok (Stored {| constants := od_set (VStr name) c (constants self);
                       macros := macros self |})
  end.
End Walker.

(** [PreProcessor.add_definitions]: the definitions in turn, up to the
    first that raises; those before it stay. *)
Fixpoint add_definitions (self : PreProcessor) (definitions : list definition)
  : PreProcessor * result (keyed unit) :=
  match definitions with
  | [] => (self, Ok (Stored tt))
  | d :: definitions' =>
    match add_definition self d with
    | Ok (Stored self') => add_definitions self' definitions'
    | Ok (KeyError msg) => (self, Ok (KeyError msg))
    | Raise e => (self, Raise e)
    | OutOfFuel => (self, OutOfFuel)
    end
  end.

(** [PreProcessor(definitions)] *)
Definition PreProcessor__init__ (definitions : option (list definition))
  : PreProcessor * result (keyed unit) :=
  add_definitions {| constants := []; macros := [] |}
                  (match definitions with Some ds => ds | None => [] end).
End PreProcessing.

(* ================================================================== *)
(** * Vocabulary of the statements *)

(** A registry that knows no function. *)
Definition no_functions : registry := fun _ => None.

(** Modelled from the spec: [utils.is_number] is not part of the
    sources at hand; a number is an integer or a float. *)
Definition is_number (v : pyval) : bool :=
  match v with VInt _ | VFloat _ => true | _ => false end.

(** A literal as the parser and [Literal.from_python] build it: the
    value is of the kind of the class.  Any other node passes. *)
Definition well_typed_literal (n : node) : bool :=
  match n with
  | Literal c v => literal_class_eqb (find_type v) c
  | _ => true
  end.

(** A float, as against an [int]. *)
Definition is_float (v : pyval) : bool :=
  match v with VFloat _ => true | _ => false end.

(** Half a unit in the last place of a float, relative to its size:
    [2 ** -53]. *)
Definition unit_roundoff : Q := 1 # 9007199254740992.

(** The guard of [MathOperation.optimize]: a zero divisor under [/]
    or [%]. *)
Definition divides_by_zero (operator : math_operator) (rvalue : pyval) : bool :=
  py_eq rvalue (VInt 0)
  && (match operator with TrueDiv | Mod => true | _ => false end).





(** The unit of a rendered [TimeRange] in the words of the
    specification (not of the source): the largest of day, hour, minute
    and second that divides the duration evenly, a minute also when the
    duration is not a whole number of seconds, and the second
    otherwise.  The duration is in microseconds. *)
Definition largest_whole_unit (delta : Z) : string :=
  if (delta mod 86400000000 =? 0)%Z then "d"
  else if (delta mod 3600000000 =? 0)%Z then "h"
  else if (delta mod 60000000 =? 0)%Z || negb (delta mod 1000000 =? 0)%Z
       then "m"
  else "s".

(* ================================================================== *)
(** * Measures and invariants used in the proofs *)

(** The number of nodes of a tree. *)
Fixpoint size (n : node) : nat :=
  match n with
  | FunctionCall _ arguments _ => S (list_sum (map size arguments))
  | NamedSubquery _ query => S (size query)
  | MathOperation l _ r => S (size l + size r)
  | Comparison l _ r => S (size l + size r)
  | InSet expression container => S (size expression + list_sum (map size container))
  | Not term => S (size term)
  | And terms => S (list_sum (map size terms))
  | Or terms => S (list_sum (map size terms))
  | EventQuery _ query => S (size query)
  | _ => 1
  end.

(** No [And] and no [Or] node where [optimize] descends: the node
    itself, the arguments of a function call, the operands of a math
    operation and a negated term.  (The operands of a comparison, the
    members of a set and the query of a subquery are not optimized.) *)
Fixpoint compound_free (n : node) : bool :=
  match n with
  | And _ | Or _ => false
  | FunctionCall _ arguments _ => forallb compound_free arguments
  | MathOperation l _ r => compound_free l && compound_free r
  | Not term => compound_free term
  | _ => true
  end.

(** The key under which [_get_literals] files a node. *)
Definition key_of (n : node) : option pyval :=
  match n with
  | Literal CString (VStr s) => Some (VStr (lower_string s))
  | Literal CString _ => None
  | Literal _ v => Some v
  | _ => None
  end.

(** Every entry holds a literal filed under (a value equal to) its
    key, and no key occurs twice. *)
Fixpoint dict_ok (d : odict node) : Prop :=
  match d with
  | [] => True
  | (k, v) :: d' =>
    (exists k', key_of v = Some k' /\ py_eq k k' = true)
    /\ od_mem k d' = false /\ dict_ok d'
  end.

(** Two entries with equal keys and the same literal. *)
Definition same_entry (kv kv' : pyval * node) : Prop :=
  py_eq (fst kv) (fst kv') = true /\ snd kv = snd kv'.

(** The members of a container that are not literals, as
    [InSet.optimize] collects them. *)
Definition dynamic (container : list node) : list node :=
  filter (fun v => negb (isinstance_Literal v)) container.

(** The end of [InSet.optimize], on the candidates that are left. *)
Definition InSet_finish (expression : node) (cont : list node) : result node :=
  match cont with
  | [] => Ok (Boolean (VBool false))
  | [item] => Comparison_optimize expression EQ item
  | cs =>
    if existsb (node_eqb expression) cs then Ok (Boolean (VBool true))
    else Ok (InSet expression cs)
  end.

(** A node on which the non-recursive [optimize] methods return the
    node itself. *)
Definition shallow_fix (y : node) : Prop :=
  match y with
  | Literal _ _ => True
  | Comparison l c r => Comparison_optimize l c r = Ok y
  | InSet expression container => InSet_optimize expression container = Ok y
  | _ => False
  end.

(** The total size of a list of trees, and the number of literals in
    it. *)
Definition sizes (ns : list node) : nat := list_sum (map size ns).

Definition literal_count (ns : list node) : nat :=
  List.length (filter isinstance_Literal ns).

(** The two tests of [MathOperation.optimize] on the optimized
    operands: both are numbers and the division guard lets them fold, *)
Definition folds (left : node) (operator : math_operator) (right : node) : bool :=
  match left, right with
  | Literal CNumber _, Literal CNumber rvalue => negb (divides_by_zero operator rvalue)
  | _, _ => false
  end.

(** and: the right operand is an additive operation on a zero, under
    an additive operator. *)
Definition rewrites (operator : math_operator) (right : node) : bool :=
  match right with
  | MathOperation rleft roperator _ =>
    node_eqb rleft (Number (VInt 0)) && (is_additive operator && is_additive roperator)
  | _ => false
  end.

(** What the induction carries: the result is free of compounds, is
    no larger than the node, and is optimized to itself under the same
    budget. *)
Definition settles (get_function : registry) (fuel : nat) : Prop :=
  forall x y,
    compound_free x = true -> optimize get_function fuel x = Ok y ->
    compound_free y = true /\ (size y <= size x)%nat
    /\ optimize get_function fuel y = Ok y.

(** The last step of [TimeRange._render]: the fractional part of a
    whole numeral is dropped. *)
Definition drop_fraction (rendered : Q * string) : result (pyval * string) :=
  let decimal := fst rendered in
  let unit := snd rendered in
  if Qeq_bool decimal (inject_Z (Qtrunc decimal))
  then Ok (VInt (Qtrunc decimal), unit)
  else Ok (VFloat decimal, unit).

(** What [total_seconds] gives for a duration: the seconds themselves
    when their number is whole, otherwise a float within one rounding
    of them. *)
Definition seconds_of (delta : Z) (interval : Q) : Prop :=
  (exists s, delta = (1000000 * s)%Z /\ interval = inject_Z s)
  \/ ((delta mod 1000000 <> 0)%Z
      /\ Qabs (interval - (delta # 1000000))
         <= Qabs (delta # 1000000) * unit_roundoff).

(** A duration rendered in a unit of [unit_us] microseconds: the
    integer quotient when the unit divides it, otherwise a float within
    two roundings of the quotient. *)
Definition rendered_as (delta unit_us : Z) (unit : string)
           (outcome : result (pyval * string)) : Prop :=
  if (delta mod unit_us =? 0)%Z
  then outcome = Ok (VInt (delta / unit_us), unit)
  else exists q,
      outcome = Ok (VFloat q, unit)
      /\ Qabs (q - (delta # Z.to_pos unit_us))
         <= Qabs (delta # Z.to_pos unit_us) * (1 # 2251799813685248).

(** The control characters of the escape table. *)
Definition control_characters : list ascii :=
  [backspace; tab; newline; formfeed; carriage_return].

(** The classes whose [&] and [|] are those of [Expression]. *)
Definition plain (n : node) : bool :=
  match n with
  | TimeRange _ | Field _ _ | FunctionCall _ _ _ | NamedSubquery _ _
  | MathOperation _ _ _ | Not _ => true
  | _ => false
  end.

(** The terms of a list with the compounds of one class replaced by
    their own terms, one level deep. *)
Definition spliced (same_kind : node -> option (list node)) (terms : list node)
  : list node :=
  flat_map (fun t => match same_kind t with Some ts => ts | None => [t] end) terms.

(** A plain term, or a compound of the class made of plain terms. *)
Definition plain_or_flat (same_kind : node -> option (list node)) (t : node)
  : bool :=
  match same_kind t with
  | Some ts => forallb plain ts
  | None => plain t
  end.

(** No two literals of the list are filed under equal keys. *)
Fixpoint distinct_keys (vs : list node) : Prop :=
  match vs with
  | [] => True
  | v :: vs' =>
    (forall w k k', In w vs' -> key_of v = Some k -> key_of w = Some k' ->
                    py_eq k k' = false)
    /\ distinct_keys vs'
  end.

(** The exceptions that the optimizer raises itself: an ordering of
    values that have none or arithmetic on a value that is no number,
    [lower()] on a value that is no string, the first term of an empty
    compound, an [int] too large for the float it is to become. *)
Definition own_exception (e : exn) : bool :=
  match e with
  | TypeError | AttributeError | IndexError | OverflowError => true
  | _ => false
  end.

(** The mark of a call that the model does not follow. *)
Definition outside_the_model (e : exn) : bool :=
  match e with
  | HostError _ => true
  | _ => false
  end.

(** The exceptions raised by the [run] of a registered function. *)
Definition raised_by_a_function (get_function : registry) (e : exn) : Prop :=
  exists name run values, get_function name = Some run /\ run values = inl e.

(** Every exception of an outcome is one of [P]. *)
Definition raises_only {A : Type} (P : exn -> Prop) (r : result A) : Prop :=
  forall e, r = Raise e -> P e.

(** Some node of the tree, the tree itself or one below it, passes
    the test. *)
Fixpoint some_node (test : node -> bool) (n : node) : bool :=
  test n
  || match n with
     | FunctionCall _ arguments _ => existsb (some_node test) arguments
     | NamedSubquery _ query => some_node test query
     | MathOperation l _ r => some_node test l || some_node test r
     | Comparison l _ r => some_node test l || some_node test r
     | InSet expression container =>
       some_node test expression || existsb (some_node test) container
     | Not term => some_node test term
     | And terms => existsb (some_node test) terms
     | Or terms => existsb (some_node test) terms
     | EventQuery _ query => some_node test query
     | _ => false
     end.

(** A field without a path whose name is one of [names]. *)
Definition names_one_of (names : list string) (n : node) : bool :=
  match n with
  | Field base [] => existsb (String.eqb base) names
  | _ => false
  end.


(** The store has grown by new lists, and every list it held is as it
    was. *)
Definition only_grown (st st' : Store.store) : Prop :=
  exists ext, st' = st ++ ext.

(* ================================================================== *)
(** * Construction *)

(** C6, as the code has it: constructing the base [Literal] directly
    raises [TypeError]; a subclass keeps the value it is given; [Null]
    accepts any argument, ignores it, and is the null literal. *)
Theorem Null_ignores_its_argument :
  (forall value, Literal__init__ TLiteral value = Raise TypeError)
  /\ (forall c value, Literal__init__ (TSub c) value = Ok (Literal c value))
  /\ (forall value, Null__init__ value = Ok (Literal CNull VNone)).
Proof.
  repeat split.
Qed.

(** C6 as stated fails: [Null(5)] is not rejected. *)
Lemma Null_of_five_is_accepted :
  Null__init__ (VInt 5) = Ok (Literal CNull VNone)
  /\ (forall e, Null__init__ (VInt 5) <> Raise e).
Proof.
  split; [reflexivity | intros e H; discriminate H].
Qed.

(* ================================================================== *)
(** * [InSet.optimize] *)

Section InSetFacts.
Variable get_function : registry.

Lemma optimize_InSet fuel expression container :
  optimize get_function (S fuel) (InSet expression container)
  = InSet_optimize expression container.
Proof. reflexivity. Qed.

Lemma optimize_Comparison fuel l c r :
  optimize get_function (S fuel) (Comparison l c r) = Comparison_optimize l c r.
Proof. reflexivity. Qed.

(** A comparison of a non-literal with a literal is left alone. *)
Lemma Comparison_optimize_dynamic_literal l c cls v :
  isinstance_Literal l = false ->
  Comparison_optimize l c (Literal cls v) = Ok (Comparison l c (Literal cls v)).
Proof.
  destruct l; simpl; intros H; try discriminate H; reflexivity.
Qed.

Lemma get_literals_A_a :
  _get_literals [String_ (VStr "A"); String_ (VStr "a")]
  = Ok [(VStr "a", String_ (VStr "A"))].
Proof. reflexivity. Qed.

(** C7, as the code has it: the two strings are one candidate, filed
    under the lower-cased value and represented by the first seen.  For
    an [f] that is no literal the set is the comparison of [f] with
    [String("A")], which is also what that comparison is optimized to.
    For a literal [f] whose value is of the kind of its class both the
    set and the comparison fold to the same [Boolean]: for a string,
    whether it is ["a"] up to case; for any other, false. *)
Theorem InSet_dedup_case_insensitive fuel :
  let candidates := [String_ (VStr "A"); String_ (VStr "a")] in
  let comparison f := Comparison f EQ (String_ (VStr "A")) in
  _get_literals candidates = Ok [(VStr "a", String_ (VStr "A"))]
  /\ (forall f, isinstance_Literal f = false ->
        optimize get_function (S fuel) (InSet f candidates) = Ok (comparison f)
        /\ optimize get_function (S fuel) (comparison f) = Ok (comparison f))
  /\ (forall s,
        optimize get_function (S fuel) (InSet (String_ (VStr s)) candidates)
        = Ok (Boolean (VBool (String.eqb (lower_string s) "a")))
        /\ optimize get_function (S fuel) (comparison (String_ (VStr s)))
           = Ok (Boolean (VBool (String.eqb (lower_string s) "a"))))
  /\ (forall c v,
        c <> CString -> well_typed_literal (Literal c v) = true ->
        optimize get_function (S fuel) (InSet (Literal c v) candidates)
        = Ok (Boolean (VBool false))
        /\ optimize get_function (S fuel) (comparison (Literal c v))
           = Ok (Boolean (VBool false))).
Proof.
  intros candidates comparison. unfold candidates, comparison.
  split; [reflexivity|]. split; [|split].
  - intros f Hf. rewrite optimize_InSet, optimize_Comparison.
    unfold InSet_optimize. rewrite get_literals_A_a.
    destruct f; try discriminate Hf; split; reflexivity.
  - intros s. rewrite optimize_InSet, optimize_Comparison.
    unfold InSet_optimize. rewrite get_literals_A_a.
    cbn [bind is_string py_lower od_mem existsb fst orb String_].
    unfold Comparison_optimize, String_.
    cbn [literal_class_eqb negb bind py_lower fst snd func_lookup].
    change (lower_string "A") with "a".
    unfold py_eq; cbn [as_Q].
    rewrite (String.eqb_sym "a" (lower_string s)).
    destruct (String.eqb (lower_string s) "a"); split; reflexivity.
  - intros c v Hc Hwt. rewrite optimize_InSet, optimize_Comparison.
    unfold InSet_optimize. rewrite get_literals_A_a.
    destruct v as [|b|z|q|s]; destruct c; simpl in Hwt; try discriminate Hwt;
      try congruence; split; reflexivity.
Qed.

(** [_get_literals] on two literals that are not strings and whose
    values are equal: one entry, under the first key, holding the
    second literal. *)
Lemma get_literals_equal_values c1 v1 c2 v2 :
  c1 <> CString -> c2 <> CString -> py_eq v1 v2 = true ->
  _get_literals [Literal c1 v1; Literal c2 v2] = Ok [(v1, Literal c2 v2)].
Proof.
  intros H1 H2 E.
  destruct c1; try congruence; destruct c2; try congruence;
    unfold _get_literals; simpl; rewrite E; reflexivity.
Qed.

Lemma get_literals_1_true :
  _get_literals [Number (VInt 1); Boolean (VBool true)]
  = Ok [(VInt 1, Boolean (VBool true))].
Proof. reflexivity. Qed.

Lemma get_literals_0_false :
  _get_literals [Number (VInt 0); Boolean (VBool false)]
  = Ok [(VInt 0, Boolean (VBool false))].
Proof. reflexivity. Qed.

(** C10, as the code has it: a [Number] and a [Boolean] with equal
    values are one candidate, in the place of the first and represented
    by the second; with a non-literal [f] the set is the single
    comparison with that representative, and with a literal [f] it
    folds to a [Boolean]. *)
Theorem InSet_dedup_across_kinds fuel :
  (forall c1 v1 c2 v2,
      c1 <> CString -> c2 <> CString -> py_eq v1 v2 = true ->
      _get_literals [Literal c1 v1; Literal c2 v2] = Ok [(v1, Literal c2 v2)])
  /\ _get_literals [Number (VInt 1); Number (VInt 2); Boolean (VBool true)]
     = Ok [(VInt 1, Boolean (VBool true)); (VInt 2, Number (VInt 2))]
  /\ (forall f, isinstance_Literal f = false ->
        optimize get_function (S fuel)
                 (InSet f [Number (VInt 1); Boolean (VBool true)])
        = Ok (Comparison f EQ (Boolean (VBool true)))
        /\ optimize get_function (S fuel)
                    (InSet f [Number (VInt 0); Boolean (VBool false)])
           = Ok (Comparison f EQ (Boolean (VBool false))))
  /\ (forall c v,
        optimize get_function (S fuel)
                 (InSet (Literal c v) [Number (VInt 1); Boolean (VBool true)])
        = Ok (Boolean (VBool (py_eq (VInt 1) v)))).
Proof.
  split; [exact get_literals_equal_values|].
  split; [reflexivity|].
  split.
  - intros f Hf. rewrite !optimize_InSet.
    unfold InSet_optimize. rewrite get_literals_1_true, get_literals_0_false.
    destruct f; try discriminate Hf; split; reflexivity.
  - intros c v. rewrite optimize_InSet. unfold InSet_optimize.
    rewrite get_literals_1_true.
    cbn [bind od_values map snd filter isinstance_Literal negb Number Boolean].
    assert (Hk : forall v', (if is_string v then py_lower v else Ok v) = Ok v'
                       -> py_eq (VInt 1) v' = py_eq (VInt 1) v).
    { destruct v; simpl; intros v' E; inversion E; reflexivity. }
    destruct (if is_string v then py_lower v else Ok v) as [v'| |] eqn:E.
    + cbn [bind od_mem existsb fst orb]. rewrite Bool.orb_false_r.
      rewrite (Hk v' eq_refl).
      destruct (py_eq (VInt 1) v); reflexivity.
    + destruct v; discriminate E.
    + destruct v; discriminate E.
Qed.
End InSetFacts.

Lemma InSet_dedup_case_insensitive_witness :
  optimize no_functions 1
           (InSet (Field "f" []) [String_ (VStr "A"); String_ (VStr "a")])
  = Ok (Comparison (Field "f" []) EQ (String_ (VStr "A")))
  /\ optimize no_functions 1
              (InSet (Number (VInt 1)) [String_ (VStr "A"); String_ (VStr "a")])
     = Ok (Boolean (VBool false)).
Proof.
  split.
  - apply (proj1 (proj2 (InSet_dedup_case_insensitive no_functions 0))
                 (Field "f" [])).
    reflexivity.
  - apply (proj2 (proj2 (proj2 (InSet_dedup_case_insensitive no_functions 0)))
                 CNumber (VInt 1)).
    + discriminate.
    + reflexivity.
Defined.

(** C7 as stated fails for a literal whose value is not of the kind of
    its class: with [f = Boolean("a")] the set looks the value up among
    the candidates and folds to true, while the comparison sees two
    classes and folds to false. *)
Lemma InSet_of_a_Boolean_holding_a_string :
  optimize no_functions 1
           (InSet (Boolean (VStr "a")) [String_ (VStr "A"); String_ (VStr "a")])
  = Ok (Boolean (VBool true))
  /\ optimize no_functions 1
              (Comparison (Boolean (VStr "a")) EQ (String_ (VStr "A")))
     = Ok (Boolean (VBool false)).
Proof.
  split; reflexivity.
Qed.

Lemma InSet_dedup_across_kinds_witness :
  _get_literals [Number (VInt 0); Boolean (VBool false)]
  = Ok [(VInt 0, Boolean (VBool false))]
  /\ optimize no_functions 1
              (InSet (Field "f" []) [Number (VInt 1); Boolean (VBool true)])
     = Ok (Comparison (Field "f" []) EQ (Boolean (VBool true))).
Proof.
  split.
  - apply (proj1 (InSet_dedup_across_kinds no_functions 0)
                 CNumber (VInt 0) CBoolean (VBool false));
      [discriminate | discriminate | reflexivity].
  - apply (proj1 (proj2 (proj2 (InSet_dedup_across_kinds no_functions 0)))
                 (Field "f" [])).
    reflexivity.
Defined.

(** C10 as stated fails for a literal [f]: with [f = Number(1)] the
    result is [Boolean(true)], not a comparison. *)
Lemma InSet_of_literal_is_not_a_comparison :
  optimize no_functions 1
           (InSet (Number (VInt 1)) [Number (VInt 1); Boolean (VBool true)])
  = Ok (Boolean (VBool true))
  /\ type_of (Boolean (VBool true)) <> TyComparison.
Proof.
  split; [reflexivity | discriminate].
Qed.

(* ================================================================== *)
(** * Rounding to binary64 *)

Local Open Scope Q_scope.


Lemma two_power_pos (e : Z) : 0 < 2 ^ e.
Proof. apply Qpower_0_lt. reflexivity. Qed.

Lemma two_power_plus (a b : Z) : 2 ^ (a + b) == 2 ^ a * 2 ^ b.
Proof. apply Qpower_plus. discriminate. Qed.

Lemma two_power_succ (a : Z) : 2 ^ (a + 1) == 2 * 2 ^ a.
Proof. rewrite two_power_plus. change (2 ^ 1) with 2. ring. Qed.

Lemma two_power_le (a b : Z) : (a <= b)%Z -> 2 ^ a <= 2 ^ b.
Proof. intros H. apply Qpower_le_compat_l; [exact H | discriminate]. Qed.

Lemma two_power_lt (a b : Z) : (a < b)%Z -> 2 ^ a < 2 ^ b.
Proof. intros H. apply Qpower_lt_compat_l; [exact H | reflexivity]. Qed.

Lemma two_power_Z (k : Z) : (0 <= k)%Z -> inject_Z (2 ^ k) == 2 ^ k.
Proof. intros H. rewrite Zpower_Qpower by exact H. reflexivity. Qed.

(** A positive rational lies in exactly one binade. *)
Lemma binade_unique (a : Q) (e e' : Z) :
  2 ^ e <= a -> a < 2 ^ (e + 1) -> 2 ^ e' <= a -> a < 2 ^ (e' + 1) -> e = e'.
Proof.
  intros H1 H2 H3 H4.
  destruct (Z.lt_trichotomy e e') as [L|[E|L]]; [|exact E|].
  - exfalso. assert (2 ^ (e + 1) <= 2 ^ e') by (apply two_power_le; lia). lra.
  - exfalso. assert (2 ^ (e' + 1) <= 2 ^ e) by (apply two_power_le; lia). lra.
Qed.

Lemma quotient_binade (a nn dd pn pd pe pe' : Q) :
  0 < dd -> 0 < pd -> 0 < pe -> 0 < pe' ->
  pn <= nn -> nn < 2 * pn -> pd <= dd -> dd < 2 * pd ->
  pn == pe * pd -> pe == 2 * pe' -> nn == a * dd ->
  (pe <= a -> a < 2 * pe) /\ (a < pe -> pe' <= a).
Proof.
  intros Dp Pd Pe Pe' Q1 Q2 Q3 Q4 S1 S2 M. split.
  - intros T. apply Qnot_le_lt. intros C.
    assert (2 * pe * dd <= a * dd) by (apply Qmult_le_compat_r; lra).
    assert (2 * pe * pd <= 2 * pe * dd) by (apply Qmult_le_l; lra).
    lra.
  - intros T. apply Qnot_lt_le. intros C.
    assert (a * dd <= pe' * dd) by (apply Qmult_le_compat_r; lra).
    assert (pe' * dd < pe' * (2 * pd)) by (apply Qmult_lt_l; lra).
    assert (pe * pd == pe' * (2 * pd)) by (rewrite S2; ring).
    lra.
Qed.

Lemma Qlog2_spec (a : Q) : 0 < a -> 2 ^ Qlog2 a <= a /\ a < 2 ^ (Qlog2 a + 1).
Proof.
  intros Ha. destruct a as [n d].
  assert (Hn : (0 < n)%Z).
  { unfold Qlt in Ha. cbn in Ha. lia. }
  unfold Qlog2. cbn [Qnum Qden].
  set (ln := Z.log2 n). set (ld := Z.log2 (Zpos d)).
  destruct (Z.log2_spec n Hn) as [N1 N2]. fold ln in N1, N2.
  destruct (Z.log2_spec (Zpos d) eq_refl) as [D1 D2]. fold ld in D1, D2.
  assert (Ln : (0 <= ln)%Z) by apply Z.log2_nonneg.
  assert (Ld : (0 <= ld)%Z) by apply Z.log2_nonneg.
  assert (Q1 : 2 ^ ln <= inject_Z n).
  { rewrite <- two_power_Z by exact Ln. rewrite <- Zle_Qle. exact N1. }
  assert (Q2 : inject_Z n < 2 * 2 ^ ln).
  { rewrite <- two_power_succ, <- two_power_Z by lia. rewrite <- Zlt_Qlt. lia. }
  assert (Q3 : 2 ^ ld <= inject_Z (Zpos d)).
  { rewrite <- two_power_Z by exact Ld. rewrite <- Zle_Qle. exact D1. }
  assert (Q4 : inject_Z (Zpos d) < 2 * 2 ^ ld).
  { rewrite <- two_power_succ, <- two_power_Z by lia. rewrite <- Zlt_Qlt. lia. }
  assert (S1 : 2 ^ ln == 2 ^ (ln - ld) * 2 ^ ld).
  { rewrite <- two_power_plus. replace (ln - ld + ld)%Z with ln by lia. reflexivity. }
  assert (S2 : 2 ^ (ln - ld) == 2 * 2 ^ (ln - ld - 1)).
  { rewrite <- two_power_succ. replace (ln - ld - 1 + 1)%Z with (ln - ld)%Z by lia.
    reflexivity. }
  assert (M : inject_Z n == (n # d) * inject_Z (Zpos d)).
  { rewrite (Qmake_Qdiv n d). field. discriminate. }
  destruct (quotient_binade _ _ _ _ _ _ _ (eq_refl : 0 < inject_Z (Zpos d))
              (two_power_pos ld) (two_power_pos (ln - ld)) (two_power_pos (ln - ld - 1))
              Q1 Q2 Q3 Q4 S1 S2 M) as [B1 B2].
  destruct (Qle_bool (2 ^ (ln - ld)) (n # d)) eqn:T.
  - apply Qle_bool_iff in T. split; [exact T|].
    rewrite two_power_succ. exact (B1 T).
  - assert (T' : n # d < 2 ^ (ln - ld)).
    { apply Qnot_le_lt. intros C. apply Qle_bool_iff in C. congruence. }
    replace (ln - ld - 1 + 1)%Z with (ln - ld)%Z by lia. split; [exact (B2 T') | exact T'].
Qed.

Lemma Qlog2_unique (a : Q) (e : Z) :
  2 ^ e <= a -> a < 2 ^ (e + 1) -> Qlog2 a = e.
Proof.
  intros H1 H2.
  assert (Ha : 0 < a) by (pose proof (two_power_pos e); lra).
  destruct (Qlog2_spec a Ha) as [S1 S2].
  exact (binade_unique a _ _ S1 S2 H1 H2).
Qed.

Lemma Qlog2_comp (a b : Q) : 0 < a -> a == b -> Qlog2 a = Qlog2 b.
Proof.
  intros Ha E. destruct (Qlog2_spec a Ha) as [S1 S2].
  symmetry. apply Qlog2_unique; rewrite <- E; assumption.
Qed.

Lemma round_half_even_comp (x y : Q) : x == y -> round_half_even x = round_half_even y.
Proof.
  intros E. unfold round_half_even. rewrite (Qfloor_comp x y E).
  assert (C : Qcompare (x - inject_Z (Qfloor y)) (1 # 2)
              = Qcompare (y - inject_Z (Qfloor y)) (1 # 2)).
  { apply Qcompare_comp; [rewrite E; reflexivity | reflexivity]. }
  rewrite C. reflexivity.
Qed.

Lemma round_half_even_Z (z : Z) : round_half_even (inject_Z z) = z.
Proof.
  unfold round_half_even. rewrite Qfloor_Z.
  assert (C : Qcompare (inject_Z z - inject_Z z) (1 # 2) = Lt).
  { rewrite <- Qlt_alt. lra. }
  rewrite C. reflexivity.
Qed.

(** The rounded integer is within one half. *)
Lemma round_half_even_error (x : Q) :
  Qabs (inject_Z (round_half_even x) - x) <= 1 # 2.
Proof.
  unfold round_half_even.
  pose proof (Qfloor_le x) as L. pose proof (Qlt_floor x) as U.
  rewrite inject_Z_plus in U. change (inject_Z 1) with 1 in U.
  apply Qabs_Qle_condition.
  destruct (Qcompare (x - inject_Z (Qfloor x)) (1 # 2)) eqn:C.
  - apply Qeq_alt in C. destruct (Z.even (Qfloor x)).
    + lra.
    + rewrite inject_Z_plus. change (inject_Z 1) with 1. lra.
  - apply Qlt_alt in C. lra.
  - apply Qgt_alt in C. rewrite inject_Z_plus. change (inject_Z 1) with 1. lra.
Qed.

Lemma Qabs_nonzero (x : Q) : ~ x == 0 -> 0 < Qabs x.
Proof.
  intros N. destruct (Qlt_le_dec 0 (Qabs x)) as [H|H]; [exact H|].
  exfalso. apply N. destruct (Qabs_Qle_condition x 0) as [F _].
  destruct (F H). lra.
Qed.

Lemma binary64_comp (x y : Q) : x == y -> binary64 x = binary64 y.
Proof.
  intros E. unfold binary64.
  assert (Z0 : Qeq_bool x 0 = Qeq_bool y 0).
  { apply Bool.eq_iff_eq_true. rewrite !Qeq_bool_iff, E. reflexivity. }
  rewrite <- Z0. destruct (Qeq_bool x 0) eqn:N; [reflexivity|].
  assert (A : Qabs x == Qabs y) by (apply Qabs_wd; exact E).
  assert (Pa : 0 < Qabs x) by (apply Qabs_nonzero, Qeq_bool_neq; exact N).
  rewrite <- (Qlog2_comp _ _ Pa A).
  set (ulp := 2 ^ (Z.max (Qlog2 (Qabs x)) (-1022) - 52)).
  assert (R : round_half_even (Qabs x / ulp) = round_half_even (Qabs y / ulp)).
  { apply round_half_even_comp. rewrite A. reflexivity. }
  rewrite <- R.
  assert (S : Qle_bool 0 x = Qle_bool 0 y).
  { apply Bool.eq_iff_eq_true. rewrite !Qle_bool_iff, E. reflexivity. }
  rewrite <- S. reflexivity.
Qed.

(** The value of [binary64] in the normal range: the nearest multiple
    of the unit in the last place of the binade of [x]. *)
Lemma binary64_normal (x : Q) (e : Z) :
  (-1022 <= e)%Z -> 2 ^ e <= Qabs x -> Qabs x < 2 ^ (e + 1) ->
  let r := inject_Z (round_half_even (Qabs x / 2 ^ (e - 52))) * 2 ^ (e - 52) in
  binary64 x
  = if Qle_bool (2 ^ 1024) r then None
    else Some (Qred (if Qle_bool 0 x then r else - r)).
Proof.
  intros He L U r. unfold binary64.
  assert (Pa : 0 < Qabs x) by (pose proof (two_power_pos e); lra).
  assert (N : Qeq_bool x 0 = false).
  { destruct (Qeq_bool x 0) eqn:N; [|reflexivity].
    apply Qeq_bool_iff in N. rewrite N in Pa. discriminate Pa. }
  rewrite N, (Qlog2_unique _ e L U), Z.max_l by exact He. reflexivity.
Qed.

(** In the normal range the rounded value is within half a unit in
    the last place, *)
Lemma binary64_near (x r : Q) :
  2 ^ (-1022) <= Qabs x -> binary64 x = Some r ->
  Qabs (r - x) <= Qabs x * unit_roundoff.
Proof.
  intros L.
  assert (Pa : 0 < Qabs x) by (pose proof (two_power_pos (-1022)); lra).
  destruct (Qlog2_spec _ Pa) as [S1 S2]. set (e := Qlog2 (Qabs x)) in *.
  assert (He : (-1022 <= e)%Z).
  { destruct (Z_le_gt_dec (-1022) e) as [H|H]; [exact H|]. exfalso.
    assert (2 ^ (e + 1) <= 2 ^ (-1022)) by (apply two_power_le; lia). lra. }
  rewrite (binary64_normal x e He S1 S2). cbv zeta.
  set (ulp := 2 ^ (e - 52)).
  set (m := round_half_even (Qabs x / ulp)).
  assert (Pu : 0 < ulp) by apply two_power_pos.
  assert (E1 : 2 ^ e == ulp * 2 ^ 52).
  { unfold ulp. rewrite <- two_power_plus. replace (e - 52 + 52)%Z with e by lia.
    reflexivity. }
  assert (P52 : 2 ^ 52 == 4503599627370496) by reflexivity.
  pose proof (round_half_even_error (Qabs x / ulp)) as R. fold m in R.
  apply Qabs_Qle_condition in R. destruct R as [R1 R2].
  assert (D : Qabs x / ulp * ulp == Qabs x) by (field; lra).
  assert (R1' : (- (1 # 2)) * ulp <= (inject_Z m - Qabs x / ulp) * ulp)
    by (apply Qmult_le_compat_r; lra).
  assert (R2' : (inject_Z m - Qabs x / ulp) * ulp <= (1 # 2) * ulp)
    by (apply Qmult_le_compat_r; lra).
  assert (X : (inject_Z m - Qabs x / ulp) * ulp == inject_Z m * ulp - Qabs x)
    by (rewrite <- D at 2; ring).
  rewrite X in R1', R2'. clear X D R1 R2.
  set (r0 := inject_Z m * ulp) in *.
  assert (B : (1 # 2) * ulp <= Qabs x * unit_roundoff).
  { unfold unit_roundoff. rewrite E1, P52 in S1. lra. }
  destruct (Qle_bool (2 ^ 1024) r0); [discriminate|].
  intros H. inversion H; subst r; clear H.
  rewrite Qred_correct.
  destruct (Qle_bool 0 x) eqn:Sx.
  - apply Qle_bool_iff in Sx. rewrite (Qabs_pos x Sx) in *.
    apply Qabs_Qle_condition. lra.
  - assert (Sx' : x <= 0).
    { apply Qlt_le_weak, Qnot_le_lt. intros C. apply Qle_bool_iff in C. congruence. }
    rewrite (Qabs_neg x Sx') in *.
    apply Qabs_Qle_condition. lra.
Qed.

(** and is finite up to [2 ** 1023] at least. *)
Lemma binary64_finite (x : Q) :
  Qabs x <= 2 ^ 1023 -> exists r, binary64 x = Some r.
Proof.
  intros U. unfold binary64.
  destruct (Qeq_bool x 0) eqn:N; [eexists; reflexivity|].
  assert (Pa : 0 < Qabs x) by (apply Qabs_nonzero, Qeq_bool_neq; exact N).
  destruct (Qlog2_spec _ Pa) as [S1 S2]. set (e0 := Qlog2 (Qabs x)) in *.
  set (e := Z.max e0 (-1022)).
  set (ulp := 2 ^ (e - 52)).
  set (m := round_half_even (Qabs x / ulp)).
  assert (Pu : 0 < ulp) by apply two_power_pos.
  assert (He0 : (e0 <= 1023)%Z).
  { destruct (Z_le_gt_dec e0 1023) as [H|H]; [exact H|]. exfalso.
    assert (2 ^ (1023 + 1) <= 2 ^ e0) by (apply two_power_le; lia).
    assert (2 ^ 1023 < 2 ^ (1023 + 1)) by (apply two_power_lt; lia). lra. }
  assert (Hu : ulp <= 2 ^ 971).
  { apply two_power_le. unfold e. lia. }
  pose proof (round_half_even_error (Qabs x / ulp)) as R. fold m in R.
  apply Qabs_Qle_condition in R. destruct R as [_ R2].
  assert (D : Qabs x / ulp * ulp == Qabs x) by (field; lra).
  assert (R2' : (inject_Z m - Qabs x / ulp) * ulp <= (1 # 2) * ulp)
    by (apply Qmult_le_compat_r; lra).
  assert (X : (inject_Z m - Qabs x / ulp) * ulp == inject_Z m * ulp - Qabs x)
    by (rewrite <- D at 2; ring).
  rewrite X in R2'. clear X D R2.
  set (r0 := inject_Z m * ulp) in *.
  assert (O : Qle_bool (2 ^ 1024) r0 = false).
  { destruct (Qle_bool (2 ^ 1024) r0) eqn:O; [|reflexivity]. exfalso.
    apply Qle_bool_iff in O.
    assert (T : 2 ^ 1024 == 2 * 2 ^ 1023) by (rewrite <- two_power_succ; reflexivity).
    assert (T' : 2 ^ 971 < 2 ^ 1023) by (apply two_power_lt; lia).
    lra. }
  rewrite O. eexists. reflexivity.
Qed.

Lemma binary64_error (x : Q) :
  2 ^ (-1022) <= Qabs x -> Qabs x <= 2 ^ 1023 ->
  exists r, binary64 x = Some r /\ Qabs (r - x) <= Qabs x * unit_roundoff.
Proof.
  intros L U. destruct (binary64_finite x U) as [r H].
  exists r. split; [exact H | exact (binary64_near x r L H)].
Qed.

(** A number of size one at least does not round to zero. *)
Lemma binary64_not_zero (x r : Q) :
  1 <= Qabs x -> binary64 x = Some r -> ~ r == 0.
Proof.
  intros L H E.
  assert (L' : 2 ^ (-1022) <= Qabs x).
  { assert (2 ^ (-1022) <= 2 ^ 0) by (apply two_power_le; lia).
    change (2 ^ 0) with 1 in H0. lra. }
  pose proof (binary64_near x r L' H) as B.
  rewrite E in B. unfold unit_roundoff in B.
  assert (A : Qabs (0 - x) == Qabs x).
  { rewrite <- (Qabs_opp x). apply Qabs_wd. ring. }
  rewrite A in B. lra.
Qed.

Lemma Qred_inject_Z (z : Z) : Qred (inject_Z z) = inject_Z z.
Proof.
  unfold Qred, inject_Z.
  pose proof (Z.ggcd_gcd z 1) as G. pose proof (Z.ggcd_correct_divisors z 1) as D.
  destruct (Z.ggcd z 1) as [g [aa bb]]. cbn [fst snd] in *.
  rewrite Z.gcd_1_r in G. subst g. destruct D as [D1 D2].
  rewrite Z.mul_1_l in D1, D2. subst aa bb. reflexivity.
Qed.

(** An integer of at most 53 bits is a float. *)
Lemma binary64_Z (z : Z) :
  (Z.abs z < 2 ^ 53)%Z -> binary64 (inject_Z z) = Some (inject_Z z).
Proof.
  intros B. destruct (Z.eq_dec z 0) as [->|N]; [reflexivity|].
  set (a := Z.abs z). assert (Ha : (0 < a)%Z) by lia.
  set (e := Z.log2 a).
  destruct (Z.log2_spec a Ha) as [L U]. fold e in L, U.
  assert (He : (0 <= e)%Z) by apply Z.log2_nonneg.
  assert (He' : (e < 53)%Z) by (apply Z.log2_lt_pow2; lia).
  assert (A : Qabs (inject_Z z) == inject_Z a).
  { unfold a, inject_Z. rewrite Zabs_Qabs. reflexivity. }
  assert (L' : 2 ^ e <= Qabs (inject_Z z)).
  { rewrite A, <- two_power_Z, <- Zle_Qle by exact He. exact L. }
  assert (U' : Qabs (inject_Z z) < 2 ^ (e + 1)).
  { rewrite A, <- two_power_Z, <- Zlt_Qlt by lia. exact U. }
  rewrite (binary64_normal _ e ltac:(lia) L' U'). cbv zeta.
  (* a / ulp is the integer a * 2 ^ (52 - e) *)
  assert (I : Qabs (inject_Z z) / 2 ^ (e - 52) == inject_Z (a * 2 ^ (52 - e))).
  { rewrite A, inject_Z_mult, two_power_Z by lia.
    replace (e - 52)%Z with (- (52 - e))%Z by lia. rewrite Qpower_opp.
    field. apply Qpower_not_0. discriminate. }
  rewrite (round_half_even_comp _ _ I), round_half_even_Z.
  assert (V : inject_Z (a * 2 ^ (52 - e)) * 2 ^ (e - 52) == inject_Z a).
  { rewrite inject_Z_mult, two_power_Z by lia.
    replace (e - 52)%Z with (- (52 - e))%Z by lia. rewrite Qpower_opp.
    field. apply Qpower_not_0. discriminate. }
  assert (O : Qle_bool (2 ^ 1024) (inject_Z (a * 2 ^ (52 - e)) * 2 ^ (e - 52)) = false).
  { destruct (Qle_bool _ _) eqn:O; [|reflexivity]. exfalso.
    apply Qle_bool_iff in O. rewrite V in O.
    assert (inject_Z a < 2 ^ 53).
    { rewrite <- two_power_Z, <- Zlt_Qlt by lia. exact B. }
    assert (2 ^ 53 < 2 ^ 1024) by (apply two_power_lt; lia). lra. }
  rewrite O. f_equal.
  assert (F : (if Qle_bool 0 (inject_Z z)
               then inject_Z (a * 2 ^ (52 - e)) * 2 ^ (e - 52)
               else - (inject_Z (a * 2 ^ (52 - e)) * 2 ^ (e - 52)))
              == inject_Z z).
  { destruct (Qle_bool 0 (inject_Z z)) eqn:S; rewrite V; unfold a.
    - apply Qle_bool_iff in S. change 0 with (inject_Z 0) in S.
      rewrite <- Zle_Qle in S.
      rewrite Z.abs_eq by exact S. reflexivity.
    - assert (z < 0)%Z.
      { apply Z.nle_gt. intros C. rewrite Zle_Qle in C. apply Qle_bool_iff in C.
        change (inject_Z 0) with 0 in C. congruence. }
      rewrite Z.abs_neq by lia. rewrite inject_Z_opp. ring. }
  rewrite (Qred_complete _ _ F). apply Qred_inject_Z.
Qed.

(* ================================================================== *)
(** * [MathOperation.optimize] on two numbers *)

(** The literals are their own optimum, so that the outcome is that
    of the arithmetic, or the node itself under the guard. *)
Lemma optimize_of_two_numbers (get_function : registry) fuel l operator r :
  optimize get_function (S (S fuel)) (MathOperation (Number l) operator (Number r))
  = if divides_by_zero operator r
    then Ok (MathOperation (Number l) operator (Number r))
    else v <- op_lookup operator l r ;; Ok (Number v).
Proof.
  change (optimize get_function (S (S fuel))
                   (MathOperation (Number l) operator (Number r)))
    with (if negb (divides_by_zero operator r)
          then v <- op_lookup operator l r ;; Ok (Number v)
          else Ok (MathOperation (Number l) operator (Number r))).
  destruct (divides_by_zero operator r); reflexivity.
Qed.

Lemma not_zero_divisor (n : Z) operator :
  n <> 0%Z -> divides_by_zero operator (VInt n) = false.
Proof.
  intros H. unfold divides_by_zero, py_eq. cbn [as_Q].
  assert (E : Qeq_bool (inject_Z n) (inject_Z 0) = false).
  { destruct (Qeq_bool (inject_Z n) (inject_Z 0)) eqn:E; [|reflexivity].
    apply Qeq_bool_iff in E. rewrite inject_Z_injective in E. contradiction. }
  rewrite E. reflexivity.
Qed.

Lemma float_not_zero_divisor (y : Q) operator :
  ~ y == 0 -> divides_by_zero operator (VFloat y) = false.
Proof.
  intros H. unfold divides_by_zero, py_eq. cbn [as_Q].
  assert (E : Qeq_bool y (inject_Z 0) = false).
  { destruct (Qeq_bool y (inject_Z 0)) eqn:E; [|reflexivity].
    apply Qeq_bool_iff in E. contradiction. }
  rewrite E. reflexivity.
Qed.

(** Beside a float, the operands are converted and the float
    operation applies. *)
Lemma op_lookup_floats operator l r :
  is_number l = true -> is_number r = true -> is_float l || is_float r = true ->
  op_lookup operator l r
  = (x <- float_of l ;; y <- float_of r ;; float_arith operator x y).
Proof.
  destruct l as [| |m|x|]; try discriminate;
    destruct r as [| |n|y|]; try discriminate; intros _ _ F;
    try discriminate F; reflexivity.
Qed.

Lemma float_result_not_OutOfFuel x : float_result x <> OutOfFuel.
Proof. unfold float_result. destruct (binary64 x); discriminate. Qed.

Lemma float_of_not_OutOfFuel v : float_of v <> OutOfFuel.
Proof.
  destruct v; cbn [float_of]; try discriminate.
  destruct (binary64 (inject_Z z)); discriminate.
Qed.

(** The arithmetic needs no recursion budget. *)
Lemma op_lookup_not_OutOfFuel operator a b : op_lookup operator a b <> OutOfFuel.
Proof.
  assert (I : forall m n, int_arith operator m n <> OutOfFuel).
  { intros m n. unfold int_arith, int_truediv.
    destruct operator; try discriminate; destruct (n =? 0)%Z; try discriminate.
    destruct (binary64 (inject_Z m / inject_Z n)); discriminate. }
  assert (F : forall x y, float_arith operator x y <> OutOfFuel).
  { intros x y. unfold float_arith, float_rem.
    pose proof float_result_not_OutOfFuel as R.
    destruct operator; try destruct (Qeq_bool y 0); try discriminate;
      match goal with
      | |- context [float_result ?z] =>
        specialize (R z); destruct (float_result z); [discriminate | discriminate | congruence]
      end. }
  assert (C : forall u v, (x <- float_of u ;; y <- float_of v ;; float_arith operator x y)
                          <> OutOfFuel).
  { intros u v. pose proof (float_of_not_OutOfFuel u). pose proof (float_of_not_OutOfFuel v).
    destruct (float_of u); [|discriminate|congruence].
    destruct (float_of v); [apply F|discriminate|congruence]. }
  destruct a, b; try discriminate; unfold op_lookup; cbn [as_Z]; first [apply I | apply C].
Qed.

(** C5, as the code has it.  With [fold l op r] for
    [MathOperation(Number(l), op, Number(r)).optimize()]: under [/] or
    [%] with [r == 0] the node comes back as it is; two [int]s fold
    exactly under [*], [+], [-] and [%], and under [/] to the float
    nearest to the quotient, raising [OverflowError] when that is no
    finite float; with a float operand the other is converted to a
    float, an [int] too large for one raising [OverflowError], and the
    fold is the float nearest to the exact product, sum, difference,
    quotient or floor remainder, when that is finite. *)
Theorem MathOperation_folds_numbers (get_function : registry) fuel :
  let fold l operator r :=
    optimize get_function (S (S fuel))
             (MathOperation (Number l) operator (Number r)) in
  (forall l operator r,
      divides_by_zero operator r = true ->
      fold l operator r = Ok (MathOperation (Number l) operator (Number r)))
  /\ (forall m n,
        fold (VInt m) Mul (VInt n) = Ok (Number (VInt (m * n)))
        /\ fold (VInt m) Add (VInt n) = Ok (Number (VInt (m + n)))
        /\ fold (VInt m) Sub (VInt n) = Ok (Number (VInt (m - n)))
        /\ (n <> 0%Z ->
            fold (VInt m) Mod (VInt n) = Ok (Number (VInt (m mod n)))
            /\ fold (VInt m) TrueDiv (VInt n)
               = match binary64 (inject_Z m / inject_Z n) with
                 | Some q => Ok (Number (VFloat q))
                 | None => Raise OverflowError
                 end))
  /\ (forall l r x y,
        is_number l = true -> is_number r = true ->
        is_float l || is_float r = true ->
        float_of l = Ok x -> float_of r = Ok y ->
        (forall q, binary64 (x * y) = Some q ->
                   fold l Mul r = Ok (Number (VFloat q)))
        /\ (forall q, binary64 (x + y) = Some q ->
                      fold l Add r = Ok (Number (VFloat q)))
        /\ (forall q, binary64 (x - y) = Some q ->
                      fold l Sub r = Ok (Number (VFloat q)))
        /\ (forall q, ~ y == 0 -> binary64 (x / y) = Some q ->
                      fold l TrueDiv r = Ok (Number (VFloat q)))
        /\ (forall q, ~ y == 0 ->
                      binary64 (x - y * inject_Z (Qfloor (x / y))) = Some q ->
                      fold l Mod r = Ok (Number (VFloat q))))
  /\ (forall l operator r,
        is_number l = true -> is_number r = true ->
        is_float l || is_float r = true ->
        divides_by_zero operator r = false ->
        float_of l = Raise OverflowError \/ float_of r = Raise OverflowError ->
        fold l operator r = Raise OverflowError).
Proof.
  intros fold. unfold fold. split; [|split; [|split]].
  - intros l operator r G. rewrite optimize_of_two_numbers, G. reflexivity.
  - intros m n. rewrite !optimize_of_two_numbers.
    unfold divides_by_zero at 1 2 3. rewrite !Bool.andb_false_r.
    split; [reflexivity|]. split; [reflexivity|]. split; [reflexivity|].
    intros N. rewrite !(not_zero_divisor n _ N).
    cbn [op_lookup as_Z int_arith]. unfold int_truediv.
    apply Z.eqb_neq in N. rewrite N. split; [reflexivity|].
    destruct (binary64 (inject_Z m / inject_Z n)); reflexivity.
  - intros l r x y Hl Hr F X Y.
    assert (Z0 : ~ y == 0 -> forall operator, divides_by_zero operator r = false).
    { intros N operator. unfold divides_by_zero, py_eq.
      destruct r as [| |n|q|]; try discriminate Hr; cbn [float_of as_Q] in *.
      - destruct (binary64 (inject_Z n)) as [q|] eqn:B; inversion Y; subst q.
        destruct (Z.eq_dec n 0) as [->|Nn].
        + inversion B; subst. exfalso. apply N. reflexivity.
        + apply (not_zero_divisor n operator Nn).
      - inversion Y; subst q. apply (float_not_zero_divisor y operator N). }
    assert (G : forall operator,
               divides_by_zero operator r = false ->
               optimize get_function (S (S fuel))
                        (MathOperation (Number l) operator (Number r))
               = (v <- float_arith operator x y ;; Ok (Number v))).
    { intros operator G. rewrite optimize_of_two_numbers, G.
      rewrite (op_lookup_floats operator l r Hl Hr F), X, Y. reflexivity. }
    assert (A : forall operator,
               (match operator with TrueDiv | Mod => false | _ => true end) = true ->
               divides_by_zero operator r = false).
    { intros operator H. unfold divides_by_zero.
      destruct operator; try discriminate H; apply Bool.andb_false_r. }
    repeat split; intros q.
    + intros B. rewrite G by (apply A; reflexivity).
      unfold float_arith, float_result. rewrite B. reflexivity.
    + intros B. rewrite G by (apply A; reflexivity).
      unfold float_arith, float_result. rewrite B. reflexivity.
    + intros B. rewrite G by (apply A; reflexivity).
      unfold float_arith, float_result. rewrite B. reflexivity.
    + intros N B. rewrite G by (apply Z0; exact N).
      unfold float_arith, float_result.
      destruct (Qeq_bool y 0) eqn:E; [apply Qeq_bool_iff in E; contradiction|].
      rewrite B. reflexivity.
    + intros N B. rewrite G by (apply Z0; exact N).
      unfold float_arith, float_rem, float_result, Qmod.
      destruct (Qeq_bool y 0) eqn:E; [apply Qeq_bool_iff in E; contradiction|].
      rewrite B. reflexivity.
  - intros l operator r Hl Hr F G O.
    rewrite optimize_of_two_numbers, G, (op_lookup_floats operator l r Hl Hr F).
    destruct O as [O|O]; rewrite O; [reflexivity|].
    destruct (float_of l) as [x|e|] eqn:X; [reflexivity| |].
    + destruct l as [| |m|x|]; try discriminate Hl; cbn [float_of] in X.
      * destruct (binary64 (inject_Z m)); inversion X; reflexivity.
      * discriminate X.
    + destruct l as [| |m|x|]; try discriminate Hl; cbn [float_of] in X.
      * destruct (binary64 (inject_Z m)); discriminate X.
      * discriminate X.
Qed.

Lemma MathOperation_folds_numbers_witness :
  optimize no_functions 2
           (MathOperation (Number (VInt 4)) TrueDiv (Number (VInt 0)))
  = Ok (MathOperation (Number (VInt 4)) TrueDiv (Number (VInt 0)))
  /\ optimize no_functions 2
              (MathOperation (Number (VInt (-7))) Mod (Number (VInt 3)))
     = Ok (Number (VInt 2))
  /\ optimize no_functions 2
              (MathOperation (Number (VInt 1)) TrueDiv (Number (VInt 10)))
     = Ok (Number (VFloat (3602879701896397 # 36028797018963968)))
  /\ optimize no_functions 2
              (MathOperation (Number (VInt 1)) Add (Number (VFloat (1 # 2))))
     = Ok (Number (VFloat (3 # 2)))
  /\ optimize no_functions 2
              (MathOperation (Number (VInt (10 ^ 400))) Add (Number (VFloat (1 # 2))))
     = Raise OverflowError.
Proof.
  pose proof (MathOperation_folds_numbers no_functions 0) as [G [I [F O]]].
  split; [|split; [|split; [|split]]].
  - apply (G (VInt 4) TrueDiv (VInt 0)). reflexivity.
  - apply (proj1 (proj2 (proj2 (proj2 (I (-7)%Z 3%Z))) ltac:(discriminate))).
  - apply (proj2 (proj2 (proj2 (proj2 (I 1%Z 10%Z))) ltac:(discriminate))).
  - apply (proj1 (proj2 (F (VInt 1) (VFloat (1 # 2)) 1 (1 # 2)
                           eq_refl eq_refl eq_refl eq_refl eq_refl))).
    reflexivity.
  - apply (O (VInt (10 ^ 400)) Add (VFloat (1 # 2)) eq_refl eq_refl eq_refl eq_refl).
    left. vm_compute. reflexivity.
Defined.

(** C5 as stated fails where the host's arithmetic raises: the
    quotient of [10**400] by [3] is too large for a float, and
    [MathOperation(Number(10**400), "/", Number(3)).optimize()] raises
    [OverflowError] instead of folding. *)
Lemma MathOperation_of_a_large_quotient_raises :
  optimize no_functions 2
           (MathOperation (Number (VInt (10 ^ 400))) TrueDiv (Number (VInt 3)))
  = Raise OverflowError
  /\ divides_by_zero TrueDiv (VInt 3) = false.
Proof.
  split; vm_compute; reflexivity.
Qed.

(* ================================================================== *)
(** * [|] with a false literal *)

Lemma optimize_Or (get_function : registry)
      fuel terms :
  optimize get_function (S fuel) (Or terms) = Or_optimize terms.
Proof. reflexivity. Qed.

Lemma optimize_And (get_function : registry)
      fuel terms :
  optimize get_function (S fuel) (And terms) = And_optimize terms.
Proof. reflexivity. Qed.

Lemma split_last_snoc {A : Type} (xs : list A) (x : A) :
  split_last (xs ++ [x]) = Some (xs, x).
Proof.
  induction xs as [|y ys IH]; [reflexivity|].
  simpl. rewrite IH. destruct (ys ++ [x]) eqn:E; [|reflexivity].
  destruct ys; discriminate E.
Qed.

Lemma split_last_cons {A : Type} (x : A) (xs : list A) :
  exists init last, split_last (x :: xs) = Some (init, last)
                    /\ x :: xs = init ++ [last].
Proof.
  destruct (@exists_last _ (x :: xs)) as [init [last E]]; [discriminate|].
  exists init, last. rewrite E. split; [apply split_last_snoc | reflexivity].
Qed.

(** [optimize] of a two-term compound: the terms are combined as they
    are; a compound of the same class that comes out has its terms
    spliced, which unwraps a single term and fails on none. *)
Lemma compound_optimize_pair combine same_kind rebuild a b :
  compound_optimize combine same_kind rebuild [a; b]
  = (c <- combine a b ;;
     match same_kind c with
     | Some [] => Raise IndexError
     | Some [t] => Ok t
     | Some ts => Ok (rebuild ts)
     | None => Ok c
     end).
Proof.
  unfold compound_optimize, foldM, compound_step. cbn [fst snd].
  destruct (combine a b) as [c| |]; cbn [bind]; trivial.
  destruct (same_kind c) as [ts|]; cbn [bind fst snd]; trivial.
  destruct ts as [|t [|t' ts]]; [reflexivity | reflexivity |].
  destruct (split_last_cons t (t' :: ts)) as [init [last [E1 E2]]].
  rewrite E1. cbn [bind fst snd app].
  destruct init as [|i init].
  - destruct ts; discriminate E2.
  - cbn [app] in E2. rewrite <- E2. reflexivity.
Qed.

Lemma list_eqb_longer {A : Type} (eqb : A -> A -> bool) (xs : list A) (x : A) :
  list_eqb eqb (xs ++ [x]) xs = false.
Proof.
  induction xs as [|y ys IH]; [reflexivity|].
  cbn [app list_eqb]. rewrite IH. apply Bool.andb_false_r.
Qed.

(** C4: what [Expression.__or__] does with a false literal.  It tests
    the literal for truth and returns on a true one only; a false one
    falls through to the lines that build an [Or], so that for every
    expression [e] that is no literal, [e | Boolean(false)] is an [Or]
    that ends in the literal (the terms of [e] and the literal when [e]
    is an [Or]), never [e]; and [Or([e, Boolean(false)]).optimize()]
    is that [Or] again.  The same holds of every false literal. *)
Theorem Expression_or_keeps_a_false_literal (get_function : registry) fuel e c v :
  isinstance_Literal e = false -> type_of e <> TyEventQuery ->
  py_truthy v = false ->
  let kept := match e with
              | Or terms => Or (terms ++ [Literal c v])
              | _ => Or [e; Literal c v]
              end in
  node_or e (Literal c v) = Ok kept
  /\ node_eqb kept e = false
  /\ (type_of e <> TyOr ->
      optimize get_function (S fuel) (Or [e; Literal c v])
      = Ok (Or [e; Literal c v])).
Proof.
  intros L Q F kept.
  assert (N : node_or e (Literal c v) = Ok kept).
  { unfold kept. destruct e; try discriminate L; try (exfalso; apply Q; reflexivity);
      cbn [node_or Expression__or__ Or__or__ InSet__or__ Comparison__or__];
      rewrite ?F; try reflexivity.
    unfold Comparison__or__.
    destruct (comparator_eqb cmp EQ && isinstance_Literal e2); cbn [Expression__or__];
      rewrite F; reflexivity. }
  split; [exact N|]. split.
  - unfold kept. destruct e; try reflexivity. cbn [node_eqb]. apply list_eqb_longer.
  - intros O. rewrite optimize_Or. unfold Or_optimize.
    rewrite compound_optimize_pair, N. cbn [bind]. unfold kept.
    destruct e; try reflexivity. exfalso. apply O. reflexivity.
Qed.

Lemma Expression_or_keeps_a_false_literal_witness :
  node_or (Field "x" []) (Boolean (VBool false))
  = Ok (Or [Field "x" []; Boolean (VBool false)])
  /\ node_eqb (Or [Field "x" []; Boolean (VBool false)]) (Field "x" []) = false
  /\ (type_of (Field "x" []) <> TyOr ->
      optimize no_functions 1 (Or [Field "x" []; Boolean (VBool false)])
      = Ok (Or [Field "x" []; Boolean (VBool false)])).
Proof.
  apply (Expression_or_keeps_a_false_literal
           no_functions 0 (Field "x" []) CBoolean (VBool false)).
  - reflexivity.
  - discriminate.
  - reflexivity.
Defined.

(** The sibling methods do drop the neutral literal: [Literal.__or__]
    a false one on the left, and [Expression.__and__], whose test has
    the [return] that [Expression.__or__] lacks, a true one on the
    right. *)
Lemma siblings_drop_the_neutral_literal :
  (forall e, isinstance_Literal e = false ->
             node_or (Boolean (VBool false)) e = Ok e)
  /\ (forall e c v, plain e = true -> py_truthy v = true ->
                    node_and e (Literal c v) = Ok e).
Proof.
  split.
  - intros e He. destruct e; try discriminate He; reflexivity.
  - intros e c v He Hv.
    destruct e; try discriminate He;
      cbn [node_and and_dispatch Expression__and__]; rewrite Hv; reflexivity.
Qed.

(** Two literals are another rule: they fold to the [Boolean] of
    Python's [or] of their values. *)
Lemma Literal_or_false (c : literal_class) (v : pyval) :
  node_or (Literal c v) (Boolean (VBool false))
  = Ok (Boolean (py_or v (VBool false))).
Proof. reflexivity. Qed.

(* ================================================================== *)
(** * [And.optimize] and [Or.optimize] on two terms *)

(** C1, as the code has it: [And([a, b]).optimize()] is [a & b] on the
    terms as they are given (they are not optimized first), and an
    [And] that comes out has its terms spliced: one term is unwrapped,
    none raises [IndexError].  [Or([a, b]).optimize()] is the same with
    [|] and [Or]. *)
Theorem compound_optimize_combines_terms_as_given
        (get_function : registry)
        fuel a b :
  optimize get_function (S fuel) (And [a; b])
  = (c <- node_and a b ;;
     match c with
     | And [] => Raise IndexError
     | And [t] => Ok t
     | _ => Ok c
     end)
  /\ optimize get_function (S fuel) (Or [a; b])
     = (c <- node_or a b ;;
        match c with
        | Or [] => Raise IndexError
        | Or [t] => Ok t
        | _ => Ok c
        end).
Proof.
  rewrite optimize_And, optimize_Or. unfold And_optimize, And_optimize_with, Or_optimize.
  rewrite !compound_optimize_pair. split.
  - destruct (node_and a b) as [c| |]; trivial. destruct c; reflexivity.
  - destruct (node_or a b) as [c| |]; trivial. destruct c; reflexivity.
Qed.

(** C1 as stated fails: with [a = Not(Boolean(true))] and a field [b],
    [And([a, b]).optimize()] keeps both terms, while
    [a.optimize() & b.optimize()] is [Boolean(false)]. *)
Lemma And_optimize_does_not_optimize_terms :
  optimize no_functions 2 (And [Not (Boolean (VBool true)); Field "x" []])
  = Ok (And [Not (Boolean (VBool true)); Field "x" []])
  /\ (a' <- optimize no_functions 2 (Not (Boolean (VBool true))) ;;
      b' <- optimize no_functions 2 (Field "x" []) ;;
      node_and a' b')
     = Ok (Boolean (VBool false))
  /\ node_eqb (And [Not (Boolean (VBool true)); Field "x" []])
              (Boolean (VBool false)) = false.
Proof.
  repeat split.
Qed.

(* ================================================================== *)
(** * The operators need no recursion budget *)

Lemma bind_not_OutOfFuel {A B : Type} (r : result A) (k : A -> result B) :
  r <> OutOfFuel -> (forall a, r = Ok a -> k a <> OutOfFuel) ->
  bind r k <> OutOfFuel.
Proof.
  destruct r as [a| |]; cbn [bind]; intros H1 H2.
  - apply H2; reflexivity.
  - discriminate.
  - contradiction.
Qed.

Lemma py_lower_not_OutOfFuel v : py_lower v <> OutOfFuel.
Proof. destruct v; discriminate. Qed.

Lemma func_lookup_not_OutOfFuel c a b : func_lookup c a b <> OutOfFuel.
Proof.
  unfold func_lookup.
  destruct c; try discriminate;
    destruct (as_Q a), (as_Q b); try discriminate;
    destruct a; try discriminate; destruct b; discriminate.
Qed.

Lemma get_literals_from_not_OutOfFuel container values :
  get_literals_from container values <> OutOfFuel.
Proof.
  revert values. induction container as [|x xs IH]; intros values.
  - discriminate.
  - destruct x as [c k| | | | | | | | | | |]; cbn [get_literals_from]; try apply IH.
    destruct c; try apply IH.
    apply bind_not_OutOfFuel; [apply py_lower_not_OutOfFuel | intros; apply IH].
Qed.

Lemma Comparison_optimize_not_OutOfFuel l c r :
  Comparison_optimize l c r <> OutOfFuel.
Proof.
  unfold Comparison_optimize.
  assert (D : forall b : bool, (if b
    then Ok (Boolean (VBool match c with EQ | LE | GE => true | _ => false end))
    else Ok (Comparison l c r)) <> OutOfFuel) by (intros []; discriminate).
  destruct l; try apply D. destruct r; try apply D.
  destruct (negb (literal_class_eqb cls0 cls)); [discriminate|].
  apply bind_not_OutOfFuel.
  - destruct cls; try discriminate.
    apply bind_not_OutOfFuel; [apply py_lower_not_OutOfFuel|]. intros.
    apply bind_not_OutOfFuel; [apply py_lower_not_OutOfFuel|]. discriminate.
  - intros. apply bind_not_OutOfFuel; [apply func_lookup_not_OutOfFuel|]. discriminate.
Qed.

Lemma InSet_optimize_not_OutOfFuel expression container :
  InSet_optimize expression container <> OutOfFuel.
Proof.
  unfold InSet_optimize.
  apply bind_not_OutOfFuel; [apply get_literals_from_not_OutOfFuel|]. intros lits _.
  apply bind_not_OutOfFuel.
  - destruct expression; try discriminate.
    apply bind_not_OutOfFuel.
    + destruct (is_string value); [apply py_lower_not_OutOfFuel | discriminate].
    + intros. apply bind_not_OutOfFuel; [apply get_literals_from_not_OutOfFuel|].
      intros. destruct (od_mem a a0); discriminate.
  - intros cont _. destruct cont as [[|item [|item' cs]]|]; try discriminate.
    + apply Comparison_optimize_not_OutOfFuel.
    + destruct (existsb (node_eqb expression) (item :: item' :: cs)); discriminate.
Qed.

(** The set-algebra branches of [InSet.__and__] build no [And]. *)
Lemma InSet_and_InSet_not_OutOfFuel nested expression container other :
  match other with
  | InSet _ _ | Not (InSet _ _) => True
  | _ => False
  end ->
  InSet__and__ nested expression container other <> OutOfFuel.
Proof.
  assert (R : forall (keep : pyval * node -> odict node -> bool) container',
             (container1 <- _get_literals container ;;
              container2 <- _get_literals container' ;;
              InSet_optimize expression
                (od_values (filter (fun kv => keep kv container2) container1)))
             <> OutOfFuel).
  { intros. apply bind_not_OutOfFuel; [apply get_literals_from_not_OutOfFuel|].
    intros. apply bind_not_OutOfFuel; [apply get_literals_from_not_OutOfFuel|].
    intros. apply InSet_optimize_not_OutOfFuel. }
  destruct other as [| | | | | | |e' c'|t| | |]; try contradiction; intros H.
  - unfold InSet__and__.
    destruct (node_eqb expression e'); [|discriminate].
    destruct (is_literal container && is_literal c'); [|discriminate].
    apply (R (fun kv d => od_mem (fst kv) d)).
  - destruct t as [| | | | | | |e' c'| | | |]; try contradiction.
    unfold InSet__and__.
    destruct (node_eqb expression e'); [|discriminate].
    destruct (is_literal container && is_literal c'); [|discriminate].
    apply (R (fun kv d => negb (od_mem (fst kv) d))).
Qed.

Lemma nested_and_not_OutOfFuel nested expression container x :
  match x with
  | InSet _ _ | Not (InSet _ _) => True
  | _ => False
  end ->
  And_optimize_with (and_dispatch nested) [InSet expression container; x]
  <> OutOfFuel.
Proof.
  intros Hx. unfold And_optimize_with. rewrite compound_optimize_pair.
  apply bind_not_OutOfFuel.
  - cbn [and_dispatch]. apply InSet_and_InSet_not_OutOfFuel; exact Hx.
  - intros c _. destruct (terms_of_And c) as [[|t [|t' ts]]|]; discriminate.
Qed.

(** Two levels of [&] are enough: [node_and] always comes back with a
    node or an exception. *)
Lemma node_and_not_OutOfFuel self other : node_and self other <> OutOfFuel.
Proof.
  assert (I : forall expression container x,
             InSet__and__ (and_dispatch (fun _ _ => OutOfFuel))
                          expression container x <> OutOfFuel).
  { intros expression container x.
    destruct x as [| | | | | |l' c' r'|e' cs'|t| | |]; try discriminate.
    - unfold InSet__and__.
      destruct c'; try discriminate;
        (destruct (node_eqb expression l'); [|discriminate]);
        (destruct (is_literal container && isinstance_Literal r'); [|discriminate]);
        apply nested_and_not_OutOfFuel; exact Logic.I.
    - apply InSet_and_InSet_not_OutOfFuel; exact Logic.I.
    - destruct t; try discriminate.
      apply InSet_and_InSet_not_OutOfFuel; exact Logic.I. }
  unfold node_and. destruct self; cbn [and_dispatch]; try discriminate.
  - unfold Comparison__and__.
    destruct cmp; try discriminate; destruct other; try discriminate.
    destruct (node_eqb self1 other); [apply I | discriminate].
  - apply I.
Qed.

Lemma node_or_not_OutOfFuel self other : node_or self other <> OutOfFuel.
Proof.
  destruct self; cbn [node_or]; try discriminate.
  unfold InSet__or__.
  destruct other; try discriminate.
  - destruct (node_eqb self other1); [|discriminate].
    destruct (is_literal container && isinstance_Literal other2); discriminate.
  - destruct (node_eqb self other); [|discriminate].
    destruct (is_literal container && is_literal container0); [|discriminate].
    apply bind_not_OutOfFuel; [apply get_literals_from_not_OutOfFuel|].
    intros. apply bind_not_OutOfFuel; [apply get_literals_from_not_OutOfFuel|].
    intros. apply InSet_optimize_not_OutOfFuel.
Qed.

(* ================================================================== *)
(** * [optimize] and the lists of its input *)

Lemma read_write_same st l v :
  (l < List.length st)%nat -> Store.read (Store.write st l v) l = v.
Proof.
  unfold Store.read. revert l. induction st as [|x st IH]; intros l H.
  - cbn in H. lia.
  - destruct l as [|l]; [reflexivity|]. cbn [Store.write nth]. apply IH.
    cbn in H. lia.
Qed.

Lemma read_write_other st l l' v :
  l <> l' -> Store.read (Store.write st l v) l' = Store.read st l'.
Proof.
  unfold Store.read. revert l l'. induction st as [|x st IH]; intros l l' H.
  - reflexivity.
  - destruct l as [|l], l' as [|l']; try reflexivity; try congruence.
    cbn [Store.write nth]. apply IH. congruence.
Qed.

(** [Expression.__and__] builds its result in a new list and writes to
    no list that exists. *)
Lemma Expression__and__allocates self other st :
  exists ext, snd (Store.Expression__and__ self other st) = st ++ ext.
Proof.
  destruct other; cbn [Store.Expression__and__ Store.alloc snd];
    try (eexists; reflexivity).
  exists []. rewrite app_nil_r. destruct (py_truthy value); reflexivity.
Qed.

(** [And.__and__] writes to the list of [self]: it gains the other
    operand, or the terms of the other operand when that is an [And];
    the node returned holds that list, and the other lists stay. *)
Lemma And__and__writes_to_self terms other st :
  (terms < List.length st)%nat ->
  fst (Store.And__and__ terms other st) = Store.HAnd terms
  /\ Store.read (snd (Store.And__and__ terms other st)) terms
     = Store.read st terms
       ++ (match other with
           | Store.HAnd terms' => Store.read st terms'
           | _ => [other]
           end)
  /\ (forall l, l <> terms ->
                Store.read (snd (Store.And__and__ terms other st)) l
                = Store.read st l).
Proof.
  intros H.
  destruct other; cbn [Store.And__and__ fst snd];
    (split; [reflexivity|]); (split; [apply read_write_same; exact H|]);
    intros l Hl; apply read_write_other; congruence.
Qed.

(** C3 fails on the code: with [x = And([And([a, b]), c])],
    [x.optimize()] returns [And([a, b, c])] and leaves [x] as
    [And([And([a, b, c]), c])]: the inner [And] has gained the term
    [c], because [And.__and__] appends to [self.terms].  [Or] does the
    same through [Or.__or__].  The value returned is the one of the
    value model. *)
Theorem And_optimize_appends_to_the_terms_of_its_input :
  let a := Field "a" [] in
  let b := Field "b" [] in
  let c := Field "c" [] in
  Store.lay_out_then_read 4 (And [And [a; b]; c]) = Ok (And [And [a; b]; c])
  /\ Store.optimize_then_reread 4 (And [And [a; b]; c])
     = Ok (And [a; b; c], And [And [a; b; c]; c])
  /\ And_optimize [And [a; b]; c] = Ok (And [a; b; c])
  /\ Store.lay_out_then_read 4 (Or [Or [a; b]; c]) = Ok (Or [Or [a; b]; c])
  /\ Store.optimize_then_reread 4 (Or [Or [a; b]; c])
     = Ok (Or [a; b; c], Or [Or [a; b; c]; c])
  /\ Or_optimize [Or [a; b]; c] = Ok (Or [a; b; c]).
Proof.
  repeat split.
Qed.

(* ================================================================== *)
(** * [TimeRange._render] *)

Lemma Qtrunc_inject_Z (z : Z) : Qtrunc (inject_Z z) = z.
Proof. unfold Qtrunc, inject_Z. cbn [Qnum Qden]. apply Z.quot_1_r. Qed.

Lemma whole_numeral (z : Z) :
  Qeq_bool (inject_Z z) (inject_Z (Qtrunc (inject_Z z))) = true.
Proof. rewrite Qtrunc_inject_Z. apply Qeq_bool_refl. Qed.

(** Scaling by the denominator. *)
Lemma near_scaled (q : Q) (n : Z) (k : positive) :
  Qabs (q - (n # k)) < 1 # k ->
  inject_Z n - 1 < q * inject_Z (Zpos k) /\ q * inject_Z (Zpos k) < inject_Z n + 1.
Proof.
  intros B. apply Qabs_Qlt_condition in B. destruct B as [B1 B2].
  assert (K : 0 < inject_Z (Zpos k)) by reflexivity.
  assert (X : (n # k) * inject_Z (Zpos k) == inject_Z n).
  { rewrite (Qmake_Qdiv n k). field. discriminate. }
  assert (I : (1 # k) * inject_Z (Zpos k) == 1).
  { rewrite (Qmake_Qdiv 1 k). field. discriminate. }
  assert (M1 : (- (1 # k)) * inject_Z (Zpos k) < (q - (n # k)) * inject_Z (Zpos k))
    by (apply Qmult_lt_compat_r; assumption).
  assert (M2 : (q - (n # k)) * inject_Z (Zpos k) < (1 # k) * inject_Z (Zpos k))
    by (apply Qmult_lt_compat_r; assumption).
  set (K' := inject_Z (Zpos k)) in *. clearbody K'.
  assert (E : (q - (n # k)) * K' == q * K' - (n # k) * K') by ring.
  assert (E' : (- (1 # k)) * K' == - ((1 # k) * K')) by ring.
  rewrite E in M1, M2. rewrite E' in M1. rewrite X in M1, M2. rewrite I in M1, M2.
  split; lra.
Qed.

(** A rational within [1 / k] of a fraction [n / k] that is no integer
    is no integer either, and lies on the same side of every integer. *)
Lemma near_fraction (q : Q) (n : Z) (k : positive) (z : Z) :
  (n mod Zpos k <> 0)%Z -> Qabs (q - (n # k)) < 1 # k -> ~ q == inject_Z z.
Proof.
  intros H B E. destruct (near_scaled q n k B) as [B1 B2].
  rewrite E in B1, B2. rewrite <- inject_Z_mult in B1, B2.
  change 1 with (inject_Z 1) in B1, B2.
  rewrite <- inject_Z_plus in B2.
  unfold Qminus in B1. rewrite <- inject_Z_opp, <- inject_Z_plus in B1.
  rewrite <- Zlt_Qlt in B1, B2.
  apply H. replace n with (z * Zpos k)%Z by lia. apply Z.mod_mul. discriminate.
Qed.

Lemma not_whole_numeral (q : Q) (n : Z) (k : positive) :
  (n mod Zpos k <> 0)%Z -> Qabs (q - (n # k)) < 1 # k ->
  Qeq_bool q (inject_Z (Qtrunc q)) = false.
Proof.
  intros H B. destruct (Qeq_bool q (inject_Z (Qtrunc q))) eqn:E; [|reflexivity].
  exfalso. apply Qeq_bool_iff in E. exact (near_fraction q n k _ H B E).
Qed.

Lemma threshold_near (q : Q) (n : Z) (k : positive) (t : Z) :
  (n mod Zpos k <> 0)%Z -> Qabs (q - (n # k)) < 1 # k ->
  Qle_bool (inject_Z t) q = (t * Zpos k <=? n)%Z.
Proof.
  intros H B.
  assert (N : n <> (t * Zpos k)%Z).
  { intros ->. apply H. apply Z.mod_mul. discriminate. }
  destruct (near_scaled q n k B) as [B1 B2].
  assert (K : 0 < inject_Z (Zpos k)) by reflexivity.
  apply Bool.eq_iff_eq_true. rewrite Qle_bool_iff, Z.leb_le. split.
  - intros L.
    assert (M : inject_Z t * inject_Z (Zpos k) <= q * inject_Z (Zpos k))
      by (apply Qmult_le_compat_r; [exact L | apply Qlt_le_weak; exact K]).
    assert (T : inject_Z (t * Zpos k) < inject_Z (n + 1)).
    { rewrite inject_Z_mult, inject_Z_plus. change (inject_Z 1) with 1. lra. }
    rewrite <- Zlt_Qlt in T. lia.
  - intros L. assert (L' : (t * Zpos k + 1 <= n)%Z) by lia.
    rewrite Zle_Qle, inject_Z_plus, inject_Z_mult in L'.
    change (inject_Z 1) with 1 in L'.
    apply (Qmult_le_r _ _ (inject_Z (Zpos k)) K). lra.
Qed.

Lemma Qle_bool_inject_Z (a b : Z) : Qle_bool (inject_Z a) (inject_Z b) = (a <=? b)%Z.
Proof.
  apply Bool.eq_iff_eq_true. rewrite Qle_bool_iff, Z.leb_le, <- Zle_Qle. reflexivity.
Qed.

Lemma Qeq_bool_inject_Z (a b : Z) : Qeq_bool (inject_Z a) (inject_Z b) = (a =? b)%Z.
Proof.
  apply Bool.eq_iff_eq_true. rewrite Qeq_bool_iff, Z.eqb_eq, inject_Z_injective.
  reflexivity.
Qed.

(** A float operation whose exact value is an integer of at most 53
    bits returns it. *)
Lemma float_result_whole (x : Q) (z : Z) :
  x == inject_Z z -> (Z.abs z < 2 ^ 53)%Z -> float_result x = Ok (inject_Z z).
Proof.
  intros E B. unfold float_result.
  rewrite (binary64_comp _ _ E), (binary64_Z z B). reflexivity.
Qed.

Lemma float_result_near (x : Q) :
  2 ^ (-1022) <= Qabs x -> Qabs x <= 2 ^ 1023 ->
  exists q, float_result x = Ok q /\ Qabs (q - x) <= Qabs x * unit_roundoff.
Proof.
  intros L U. destruct (binary64_error x L U) as [q [H B]].
  exists q. unfold float_result. rewrite H. split; [reflexivity | exact B].
Qed.

Lemma Qabs_fraction (n : Z) (k : positive) :
  Qabs (n # k) == inject_Z (Z.abs n) / inject_Z (Zpos k).
Proof. rewrite <- Zabs_Qabs. apply Qmake_Qdiv. Qed.

(** The quotient of two integers of moderate size is in the normal
    range. *)
Lemma fraction_in_range (n : Z) (k : positive) :
  n <> 0%Z -> (Z.abs n <= 2 ^ 60)%Z -> (Zpos k <= 2 ^ 60)%Z ->
  2 ^ (-1021) <= Qabs (n # k) /\ Qabs (n # k) <= 2 ^ 1022.
Proof.
  intros N Bn Bk.
  assert (K : 0 < inject_Z (Zpos k)) by reflexivity.
  assert (A1 : 1 <= inject_Z (Z.abs n)).
  { change 1 with (inject_Z 1). rewrite <- Zle_Qle. lia. }
  assert (A2 : inject_Z (Z.abs n) <= 2 ^ 60).
  { rewrite <- two_power_Z, <- Zle_Qle by lia. exact Bn. }
  assert (K1 : 1 <= inject_Z (Zpos k)).
  { change 1 with (inject_Z 1). rewrite <- Zle_Qle. lia. }
  assert (K2 : inject_Z (Zpos k) <= 2 ^ 60).
  { rewrite <- two_power_Z, <- Zle_Qle by lia. exact Bk. }
  assert (P1 : 2 ^ (-1021) <= 2 ^ (-60)) by (apply two_power_le; lia).
  assert (P2 : 2 ^ 60 <= 2 ^ 1022) by (apply two_power_le; lia).
  assert (P3 : 2 ^ (-60) * 2 ^ 60 == 1).
  { rewrite <- two_power_plus. reflexivity. }
  pose proof (two_power_pos (-60)) as P4.
  rewrite Qabs_fraction. split.
  - apply Qle_shift_div_l; [exact K|].
    apply Qle_trans with (2 ^ (-60) * inject_Z (Zpos k)).
    + apply Qmult_le_compat_r; lra.
    + apply Qle_trans with (2 ^ (-60) * 2 ^ 60); [|lra].
      apply Qmult_le_l; lra.
  - apply Qle_shift_div_r; [exact K|].
    apply Qle_trans with (2 ^ 1022 * 1); [lra|].
    apply Qmult_le_l; [|exact K1]. pose proof (two_power_pos 1022). lra.
Qed.

Lemma total_seconds_whole (s : Z) :
  (Z.abs s < 2 ^ 53)%Z -> total_seconds (1000000 * s) = Ok (inject_Z s).
Proof.
  intros B. unfold total_seconds, int_truediv. cbn [Z.eqb].
  assert (E : inject_Z (1000000 * s) / inject_Z 1000000 == inject_Z s).
  { rewrite inject_Z_mult. field. }
  rewrite (binary64_comp _ _ E), (binary64_Z s B). reflexivity.
Qed.

Lemma total_seconds_near (delta : Z) :
  delta <> 0%Z -> (Z.abs delta <= 2 ^ 60)%Z ->
  exists interval,
    total_seconds delta = Ok interval
    /\ Qabs (interval - (delta # 1000000)) <= Qabs (delta # 1000000) * unit_roundoff.
Proof.
  intros N B. unfold total_seconds, int_truediv. cbn [Z.eqb].
  assert (E : inject_Z delta / inject_Z 1000000 == delta # 1000000).
  { symmetry. apply Qmake_Qdiv. }
  rewrite (binary64_comp _ _ E).
  destruct (fraction_in_range delta 1000000 N B ltac:(vm_compute; discriminate)) as [L U].
  assert (P1 : 2 ^ (-1022) <= 2 ^ (-1021)) by (apply two_power_le; lia).
  assert (P2 : 2 ^ 1022 <= 2 ^ 1023) by (apply two_power_le; lia).
  destruct (binary64_error (delta # 1000000)) as [q [H Q]]; [lra | lra |].
  exists q. rewrite H. split; [reflexivity | exact Q].
Qed.

(** A size in units of [1 / k]. *)
Lemma Qabs_units (n : Z) (k : positive) :
  Qabs (n # k) == inject_Z (Z.abs n) * (1 # k).
Proof.
  rewrite <- Zabs_Qabs. unfold Qeq, Qmult, inject_Z. cbn [Qnum Qden]. lia.
Qed.

Lemma below_the_bound (n : Z) :
  (Z.abs n < 2 ^ 52)%Z -> inject_Z (Z.abs n) <= 4503599627370495.
Proof.
  intros B. change 4503599627370495 with (inject_Z 4503599627370495).
  rewrite <- Zle_Qle. change (2 ^ 52)%Z with 4503599627370496%Z in B. lia.
Qed.

(** The float nearest to the seconds of a duration below [2 ** 52]
    microseconds is within half a microsecond. *)
Lemma seconds_within_a_microsecond (delta : Z) (interval : Q) :
  (Z.abs delta < 2 ^ 52)%Z ->
  Qabs (interval - (delta # 1000000)) <= Qabs (delta # 1000000) * unit_roundoff ->
  Qabs (interval - (delta # 1000000)) <= (1 # 2) * (1 # 1000000).
Proof.
  intros B H. pose proof (below_the_bound delta B) as A.
  rewrite Qabs_units in H. unfold unit_roundoff in H.
  set (w := 1 # 1000000) in *. assert (W : 0 < w) by reflexivity. clearbody w.
  set (a := inject_Z (Z.abs delta)) in *. clearbody a.
  assert (M : a * w <= 4503599627370495 * w) by (apply Qmult_le_compat_r; lra).
  lra.
Qed.

Lemma float_div_whole (s : Z) (unit : positive) :
  (Z.abs s < 2 ^ 53)%Z -> (s mod Zpos unit = 0)%Z ->
  float_div (inject_Z s) (Zpos unit) = Ok (inject_Z (s / Zpos unit)).
Proof.
  intros B H. apply Z.div_exact in H; [|discriminate].
  set (k := (s / Zpos unit)%Z) in *.
  unfold float_div. apply float_result_whole.
  - rewrite H, inject_Z_mult. field. discriminate.
  - assert (Z.abs k <= Z.abs s)%Z; [|lia].
    rewrite H, Z.abs_mul. nia.
Qed.

Lemma Qabs_div_pos (x c : Q) : 0 < c -> Qabs (x / c) == Qabs x / c.
Proof.
  intros C. unfold Qdiv. rewrite Qabs_Qmult, Qabs_Qinv, (Qabs_pos c) by lra.
  reflexivity.
Qed.

(** The numeral of a duration that is no whole number of units: the
    quotient of the rounded seconds by the unit, rounded, is within two
    roundings of the exact quotient, and is no whole number. *)
Lemma float_div_near (interval : Q) (delta : Z) (unit : positive) :
  delta <> 0%Z -> (Z.abs delta < 2 ^ 52)%Z -> (Zpos unit <= 86400)%Z ->
  Qabs (interval - (delta # 1000000)) <= Qabs (delta # 1000000) * unit_roundoff ->
  (delta mod Zpos (unit * 1000000) <> 0)%Z ->
  exists q,
    float_div interval (Zpos unit) = Ok q
    /\ Qabs (q - (delta # (unit * 1000000)))
       <= Qabs (delta # (unit * 1000000)) * (1 # 2251799813685248)
    /\ Qeq_bool q (inject_Z (Qtrunc q)) = false.
Proof.
  intros N B Bu I H.
  set (c := inject_Z (Zpos unit)).
  assert (C : 0 < c) by reflexivity.
  set (x := delta # 1000000) in *. set (y := delta # (unit * 1000000)).
  assert (E : y == x / c).
  { unfold y, x, c. rewrite (Qmake_Qdiv delta (unit * 1000000)), (Qmake_Qdiv delta 1000000).
    rewrite Pos2Z.inj_mul, inject_Z_mult. field; repeat split; discriminate. }
  set (y' := interval / c).
  assert (D1 : Qabs (y' - y) <= Qabs y * unit_roundoff).
  { assert (E1 : y' - y == (interval - x) / c) by (unfold y'; rewrite E; field; lra).
    rewrite E1, Qabs_div_pos by exact C.
    assert (E2 : Qabs y == Qabs x / c) by (rewrite E; apply Qabs_div_pos; exact C).
    rewrite E2. unfold Qdiv.
    assert (Ci : 0 <= / c) by (apply Qlt_le_weak, Qinv_lt_0_compat; exact C).
    assert (M : Qabs (interval - x) * / c <= Qabs x * unit_roundoff * / c)
      by (apply Qmult_le_compat_r; assumption).
    assert (R : Qabs x * / c * unit_roundoff == Qabs x * unit_roundoff * / c) by ring.
    rewrite R. exact M. }
  destruct (fraction_in_range delta (unit * 1000000) N) as [L U].
  { change (2 ^ 60)%Z with 1152921504606846976%Z.
    change (2 ^ 52)%Z with 4503599627370496%Z in B. lia. }
  { change (2 ^ 60)%Z with 1152921504606846976%Z. rewrite Pos2Z.inj_mul. lia. }
  fold y in L, U.
  pose proof (Qabs_triangle (y' - y) y) as T1.
  assert (T1' : Qabs (y' - y + y) == Qabs y') by (apply Qabs_wd; ring).
  rewrite T1' in T1.
  pose proof (Qabs_triangle_reverse y (y - y')) as T2.
  assert (T2' : Qabs (y - (y - y')) == Qabs y') by (apply Qabs_wd; ring).
  rewrite T2' in T2.
  assert (T2'' : Qabs (y - y') == Qabs (y' - y)).
  { rewrite <- (Qabs_opp (y - y')). apply Qabs_wd. ring. }
  rewrite T2'' in T2.
  assert (P1 : 2 ^ (-1021) == 2 * 2 ^ (-1022)).
  { rewrite <- two_power_succ. reflexivity. }
  assert (P2 : 2 ^ 1023 == 2 * 2 ^ 1022).
  { rewrite <- two_power_succ. reflexivity. }
  pose proof (two_power_pos (-1022)) as P3.
  unfold unit_roundoff in D1.
  destruct (float_result_near y') as [q [F Q]]; [lra | lra |].
  unfold unit_roundoff in Q.
  pose proof (Qabs_triangle (q - y') (y' - y)) as T3.
  assert (T3' : Qabs (q - y' + (y' - y)) == Qabs (q - y)) by (apply Qabs_wd; ring).
  rewrite T3' in T3.
  exists q. split; [exact F|].
  assert (Bq : Qabs (q - y) <= Qabs y * (2 # 9007199254740992)
                              + Qabs y * (1 # 81129638414606681695789005144064)) by lra.
  split; [lra|].
  apply (not_whole_numeral q delta (unit * 1000000) H). fold y.
  pose proof (below_the_bound delta B) as A.
  unfold y in Bq at 2 3. rewrite Qabs_units in Bq.
  set (w := 1 # unit * 1000000) in *. assert (W : 0 < w) by reflexivity. clearbody w.
  set (a := inject_Z (Z.abs delta)) in *. clearbody a.
  assert (M : a * w <= 4503599627370495 * w) by (apply Qmult_le_compat_r; lra).
  lra.
Qed.

Lemma Qmod_inject_Z (a : Z) (k : positive) :
  Qmod (inject_Z a) (inject_Z (Zpos k)) == inject_Z (a mod Zpos k).
Proof.
  unfold Qmod. rewrite <- Zdiv_Qdiv, <- inject_Z_mult.
  unfold Qminus. rewrite <- inject_Z_opp, <- inject_Z_plus.
  rewrite (Z.mod_eq a (Zpos k)) by discriminate. reflexivity.
Qed.

Lemma float_rem_whole (s : Z) (k : positive) :
  (Zpos k < 2 ^ 53)%Z ->
  float_rem (inject_Z s) (inject_Z (Zpos k)) = Ok (inject_Z (s mod Zpos k)).
Proof.
  intros B. unfold float_rem.
  change (Qeq_bool (inject_Z (Zpos k)) 0) with false.
  apply float_result_whole; [apply Qmod_inject_Z|].
  pose proof (Z.mod_pos_bound s (Zpos k) eq_refl). lia.
Qed.

Lemma Qmod_bounds (x y : Q) : 0 < y -> 0 <= Qmod x y /\ Qmod x y < y.
Proof.
  intros Y. unfold Qmod.
  pose proof (Qfloor_le (x / y)) as L. pose proof (Qlt_floor (x / y)) as U.
  rewrite inject_Z_plus in U. change (inject_Z 1) with 1 in U.
  set (f := inject_Z (Qfloor (x / y))) in *. clearbody f.
  assert (E : x / y * y == x) by (field; lra).
  assert (M1 : f * y <= x / y * y) by (apply Qmult_le_compat_r; lra).
  assert (M2 : x / y * y < (f + 1) * y) by (apply Qmult_lt_compat_r; lra).
  rewrite E in M1, M2.
  assert (R : y * f == f * y) by ring.
  assert (R' : (f + 1) * y == f * y + y) by ring.
  rewrite R. rewrite R' in M2. split; lra.
Qed.

Lemma float_rem_returns (x : Q) (k : positive) :
  (Zpos k <= 2 ^ 60)%Z -> exists r, float_rem x (inject_Z (Zpos k)) = Ok r.
Proof.
  intros B. unfold float_rem, float_result.
  change (Qeq_bool (inject_Z (Zpos k)) 0) with false.
  destruct (Qmod_bounds x (inject_Z (Zpos k)) eq_refl) as [L U].
  destruct (binary64_finite (Qmod x (inject_Z (Zpos k)))) as [r H].
  - rewrite Qabs_pos by exact L.
    assert (K : inject_Z (Zpos k) <= 2 ^ 60).
    { rewrite <- two_power_Z, <- Zle_Qle by lia. exact B. }
    assert (P : 2 ^ 60 <= 2 ^ 1023) by (apply two_power_le; lia).
    lra.
  - exists r. rewrite H. reflexivity.
Qed.

(** The fraction of a second of a float within half a microsecond of
    a duration that is no whole number of seconds is not zero. *)
Lemma float_rem_of_a_fraction (interval : Q) (delta : Z) :
  (delta mod 1000000 <> 0)%Z ->
  Qabs (interval - (delta # 1000000)) <= (1 # 2) * (1 # 1000000) ->
  exists r, float_rem interval (inject_Z 1) = Ok r /\ Qeq_bool r 0 = false.
Proof.
  intros H B.
  assert (B' : Qabs (interval - (delta # 1000000)) < 1 # 1000000).
  { assert (0 < 1 # 1000000) by reflexivity. lra. }
  destruct (Qmod_bounds interval (inject_Z 1) eq_refl) as [L U].
  unfold float_rem. change (Qeq_bool (inject_Z 1) 0) with false.
  set (f := Qmod interval (inject_Z 1)) in *.
  (* the fraction is half a microsecond at least *)
  assert (F : (1 # 2) * (1 # 1000000) <= f).
  { apply Qnot_lt_le. intros C.
    set (z := Qfloor (interval / inject_Z 1)).
    assert (Ef : interval == f + inject_Z z).
    { unfold f, Qmod. fold z. change (inject_Z 1) with 1. ring. }
    apply Qabs_Qle_condition in B. destruct B as [B1 B2].
    assert (X : (delta # 1000000) == inject_Z delta * (1 # 1000000)).
    { unfold Qeq, Qmult, inject_Z. cbn [Qnum Qden]. lia. }
    (* delta = z * 10^6 *)
    assert (K1 : inject_Z (z * 1000000) < inject_Z delta + 1).
    { rewrite inject_Z_mult. change (inject_Z 1000000) with 1000000.
      rewrite X in B1, B2. lra. }
    assert (K2 : inject_Z delta - 1 < inject_Z (z * 1000000)).
    { rewrite inject_Z_mult. change (inject_Z 1000000) with 1000000.
      rewrite X in B1, B2. lra. }
    change 1 with (inject_Z 1) in K1, K2.
    rewrite <- inject_Z_plus in K1. unfold Qminus in K2.
    rewrite <- inject_Z_opp, <- inject_Z_plus in K2.
    rewrite <- Zlt_Qlt in K1, K2.
    apply H. replace delta with (z * 1000000)%Z by lia. apply Z.mod_mul. discriminate. }
  assert (P1 : 2 ^ (-1022) <= 2 ^ (-60)) by (apply two_power_le; lia).
  assert (P2 : 2 ^ (-60) == 1 # 1152921504606846976) by reflexivity.
  assert (P3 : 2 ^ 0 <= 2 ^ 1023) by (apply two_power_le; lia).
  change (2 ^ 0) with 1 in P3. change (inject_Z 1) with 1 in U.
  destruct (float_result_near f) as [r [R Q]].
  { rewrite Qabs_pos by exact L. lra. }
  { rewrite Qabs_pos by exact L. lra. }
  exists r. split; [exact R|].
  destruct (Qeq_bool r 0) eqn:E; [|reflexivity]. exfalso.
  apply Qeq_bool_iff in E. rewrite E in Q. unfold unit_roundoff in Q.
  assert (A : Qabs (0 - f) == Qabs f).
  { rewrite <- (Qabs_opp f). apply Qabs_wd. ring. }
  rewrite A, Qabs_pos in Q by exact L. lra.
Qed.

Lemma total_seconds_spec (delta : Z) :
  (Z.abs delta < 2 ^ 52)%Z ->
  exists interval, total_seconds delta = Ok interval /\ seconds_of delta interval.
Proof.
  intros B. destruct (Z.eq_dec (delta mod 1000000) 0) as [W|NW].
  - apply Z.div_exact in W; [|discriminate].
    set (s := (delta / 1000000)%Z) in *.
    exists (inject_Z s). rewrite W at 1. split.
    + apply total_seconds_whole. lia.
    + left. exists s. split; [exact W | reflexivity].
  - destruct (total_seconds_near delta) as [interval [T N]].
    + intros ->. apply NW. reflexivity.
    + change (2 ^ 60)%Z with 1152921504606846976%Z.
      change (2 ^ 52)%Z with 4503599627370496%Z in B. lia.
    + exists interval. split; [exact T|]. right. split; assumption.
Qed.

Lemma seconds_threshold (delta : Z) (interval : Q) (t : Z) :
  (Z.abs delta < 2 ^ 52)%Z -> seconds_of delta interval ->
  Qle_bool (inject_Z t) interval = (t * 1000000 <=? delta)%Z.
Proof.
  intros B [[s [-> ->]]|[NW N]].
  - rewrite Qle_bool_inject_Z. apply Bool.eq_iff_eq_true. rewrite !Z.leb_le. lia.
  - apply threshold_near; [exact NW|].
    pose proof (seconds_within_a_microsecond delta interval B N).
    assert (0 < 1 # 1000000) by reflexivity. lra.
Qed.

(** The numeral in a unit of [unit] seconds. *)
Lemma numeral_in_units (delta : Z) (interval : Q) (unit : positive) (label : string) :
  (Z.abs delta < 2 ^ 52)%Z -> (Zpos unit <= 86400)%Z -> seconds_of delta interval ->
  rendered_as delta (Zpos (unit * 1000000)) label
              (decimal <- float_div interval (Zpos unit) ;;
               drop_fraction (decimal, label)).
Proof.
  intros B Bu S. unfold rendered_as.
  destruct (Z.eqb_spec (delta mod Zpos (unit * 1000000)) 0) as [W|NW].
  - (* a whole number of units is a whole number of seconds *)
    destruct S as [[s [-> ->]]|[NS _]].
    + assert (Ws : (s mod Zpos unit = 0)%Z).
      { rewrite Pos2Z.inj_mul, (Z.mul_comm (Zpos unit)) in W.
        rewrite Z.mul_mod_distr_l in W by discriminate. lia. }
      rewrite float_div_whole by (trivial; lia). cbn [bind].
      unfold drop_fraction. cbn [fst snd].
      rewrite whole_numeral, Qtrunc_inject_Z.
      rewrite Pos2Z.inj_mul, (Z.mul_comm (Zpos unit)).
      rewrite Z.div_mul_cancel_l by discriminate. reflexivity.
    + exfalso. apply NS.
      apply Z.mod_divide in W; [|discriminate]. apply Z.mod_divide; [discriminate|].
      destruct W as [k W]. exists (k * Zpos unit)%Z. rewrite W, Pos2Z.inj_mul. ring.
  - assert (N0 : delta <> 0%Z) by (intros ->; apply NW; reflexivity).
    assert (N : Qabs (interval - (delta # 1000000))
                <= Qabs (delta # 1000000) * unit_roundoff).
    { destruct S as [[s [E ->]]|[_ N]]; [|exact N].
      assert (Z0 : inject_Z s - (delta # 1000000) == 0).
      { rewrite E. unfold Qeq, Qminus, Qplus, Qopp, inject_Z. cbn [Qnum Qden]. lia. }
      rewrite (Qabs_wd _ _ Z0). change (Qabs 0) with 0.
      apply Qmult_le_0_compat; [apply Qabs_nonneg | discriminate]. }
    destruct (float_div_near interval delta unit N0 B Bu N NW) as [q [F [Q NWq]]].
    exists q. rewrite F. cbn [bind]. unfold drop_fraction. cbn [fst snd].
    rewrite NWq. split; [reflexivity | exact Q].
Qed.

(** The numeral in seconds. *)
Lemma numeral_in_seconds (delta : Z) (interval : Q) :
  (Z.abs delta < 2 ^ 52)%Z -> seconds_of delta interval ->
  rendered_as delta 1000000 "s" (drop_fraction (interval, "s")).
Proof.
  intros B S. unfold rendered_as, drop_fraction. cbn [fst snd].
  destruct (Z.eqb_spec (delta mod 1000000) 0) as [W|NW].
  - destruct S as [[s [-> ->]]|[NS _]]; [|contradiction].
    rewrite whole_numeral, Qtrunc_inject_Z.
    rewrite (Z.mul_comm 1000000 s), Z.div_mul by discriminate. reflexivity.
  - destruct S as [[s [E ->]]|[_ N]].
    + exfalso. apply NW. rewrite E, Z.mul_comm. apply Z.mod_mul. discriminate.
    + pose proof (seconds_within_a_microsecond delta interval B N) as H.
      exists interval. rewrite (not_whole_numeral interval delta 1000000 NW).
      * split; [reflexivity|]. change (Z.to_pos 1000000) with 1000000%positive.
        unfold unit_roundoff in N.
        pose proof (Qabs_nonneg (delta # 1000000)). lra.
      * assert (0 < 1 # 1000000) by reflexivity. lra.
Qed.

(** The test for minutes. *)
Lemma minutes_test (delta : Z) (interval : Q) :
  (Z.abs delta < 2 ^ 52)%Z -> seconds_of delta interval ->
  (whole_minutes <- float_rem interval (inject_Z 60) ;;
   if Qeq_bool whole_minutes 0 then Ok true
   else
     whole_seconds <- float_rem interval (inject_Z 1) ;;
     Ok (negb (Qeq_bool whole_seconds 0)))
  = Ok ((delta mod 60000000 =? 0)%Z || negb (delta mod 1000000 =? 0)%Z).
Proof.
  intros B [[s [-> ->]]|[NS N]].
  - rewrite !float_rem_whole by (vm_compute; reflexivity). cbn [bind].
    change 0 with (inject_Z 0). rewrite !Qeq_bool_inject_Z.
    rewrite Z.mod_1_r. cbn [Z.eqb negb].
    assert (E1 : ((1000000 * s) mod 60000000 =? 0)%Z = (s mod 60 =? 0)%Z).
    { change 60000000%Z with (1000000 * 60)%Z.
      rewrite Z.mul_mod_distr_l by discriminate.
      apply Bool.eq_iff_eq_true. rewrite !Z.eqb_eq. lia. }
    assert (E2 : ((1000000 * s) mod 1000000 =? 0)%Z = true).
    { rewrite Z.mul_comm, Z.mod_mul by discriminate. reflexivity. }
    rewrite E1, E2. destruct (s mod 60 =? 0)%Z; reflexivity.
  - assert (E2 : (delta mod 1000000 =? 0)%Z = false) by (apply Z.eqb_neq; exact NS).
    rewrite E2, Bool.orb_true_r.
    destruct (float_rem_returns interval 60) as [r1 R1]; [vm_compute; discriminate|].
    rewrite R1. cbn [bind]. destruct (Qeq_bool r1 0); [reflexivity|].
    pose proof (seconds_within_a_microsecond delta interval B N) as H.
    destruct (float_rem_of_a_fraction interval delta NS H) as [r2 [R2 Z2]].
    rewrite R2. cbn [bind]. rewrite Z2. reflexivity.
Qed.

Lemma TimeRange_render_in_the_unit delta :
  (Z.abs delta < 2 ^ 52)%Z ->
  let (unit_us, unit) :=
      (if 86400000000 <=? delta then (86400000000, "d")
       else if 3600000000 <=? delta then (3600000000, "h")
       else if (60000000 <=? delta)
               && ((delta mod 60000000 =? 0) || negb (delta mod 1000000 =? 0))
            then (60000000, "m")
       else (1000000, "s"))%Z in
  rendered_as delta unit_us unit (TimeRange_render delta).
Proof.
  intros B. destruct (total_seconds_spec delta B) as [interval [T S]].
  assert (E : TimeRange_render delta
              = (rendered <-
                   (if Qle_bool (inject_Z 86400) interval then
                      decimal <- float_div interval 86400 ;; Ok (decimal, "d")
                    else if Qle_bool (inject_Z 3600) interval then
                      decimal <- float_div interval 3600 ;; Ok (decimal, "h")
                    else if Qle_bool (inject_Z 60) interval then
                      in_minutes <-
                        (whole_minutes <- float_rem interval (inject_Z 60) ;;
                         if Qeq_bool whole_minutes 0 then Ok true
                         else
                           whole_seconds <- float_rem interval (inject_Z 1) ;;
                           Ok (negb (Qeq_bool whole_seconds 0))) ;;
                      if in_minutes : bool then
                        decimal <- float_div interval 60 ;; Ok (decimal, "m")
                      else Ok (interval, "s")
                    else Ok (interval, "s")) ;;
                 drop_fraction rendered)).
  { unfold TimeRange_render. rewrite T. cbn [bind]. cbv zeta.
    change (60 * 1 * 60 * 24)%Z with 86400%Z.
    change (60 * 1 * 60)%Z with 3600%Z.
    change (60 * 1)%Z with 60%Z.
    fold (drop_fraction).
    destruct (Qle_bool (inject_Z 86400) interval); [reflexivity|].
    destruct (Qle_bool (inject_Z 3600) interval); [reflexivity|].
    destruct (Qle_bool (inject_Z 60) interval); [|reflexivity].
    destruct (float_rem interval (inject_Z 60)) as [r1| |]; reflexivity. }
  rewrite E, !(seconds_threshold delta interval _ B S), (minutes_test delta interval B S).
  clear E T.
  change (86400 * 1000000)%Z with 86400000000%Z.
  change (3600 * 1000000)%Z with 3600000000%Z.
  change (60 * 1000000)%Z with 60000000%Z.
  destruct (86400000000 <=? delta)%Z.
  { pose proof (numeral_in_units delta interval 86400 "d" B ltac:(lia) S) as H.
    destruct (float_div interval 86400); exact H. }
  destruct (3600000000 <=? delta)%Z.
  { pose proof (numeral_in_units delta interval 3600 "h" B ltac:(lia) S) as H.
    destruct (float_div interval 3600); exact H. }
  destruct (60000000 <=? delta)%Z; cbn [andb bind];
    [|exact (numeral_in_seconds delta interval B S)].
  destruct ((delta mod 60000000 =? 0)%Z || negb (delta mod 1000000 =? 0)%Z).
  - pose proof (numeral_in_units delta interval 60 "m" B ltac:(lia) S) as H.
    destruct (float_div interval 60); exact H.
  - exact (numeral_in_seconds delta interval B S).
Qed.

(** C8, as the code has it, for a duration below [2 ** 52]
    microseconds (some 142 years), where every test on the rounded
    seconds comes out as on the exact ones.  The unit is chosen by the
    size of the duration, not by divisibility: days from one day on,
    else hours from one hour on, else minutes from one minute on when
    the duration is a whole number of minutes or is not a whole number
    of seconds, else seconds.  The numeral is the duration divided by
    the unit: the integer quotient when the division is exact,
    otherwise a float within [2 ** -51] of the quotient, relatively.
    The duration is in microseconds. *)
Theorem TimeRange_render_by_magnitude delta :
  (Z.abs delta < 2 ^ 52)%Z ->
  let (unit_us, unit) :=
      (if 86400000000 <=? delta then (86400000000, "d")
       else if 3600000000 <=? delta then (3600000000, "h")
       else if (60000000 <=? delta)
               && ((delta mod 60000000 =? 0) || negb (delta mod 1000000 =? 0))
            then (60000000, "m")
       else (1000000, "s"))%Z in
  if (delta mod unit_us =? 0)%Z
  then TimeRange_render delta = Ok (VInt (delta / unit_us), unit)
  else exists q,
      TimeRange_render delta = Ok (VFloat q, unit)
      /\ Qabs (q - (delta # Z.to_pos unit_us))
         <= Qabs (delta # Z.to_pos unit_us) * (1 # 2251799813685248).
Proof.
  exact (TimeRange_render_in_the_unit delta).
Qed.

Lemma TimeRange_render_by_magnitude_witness :
  TimeRange_render 7200000000 = Ok (VInt 2, "h")
  /\ exists q,
      TimeRange_render 5400000000 = Ok (VFloat q, "h")
      /\ Qabs (q - (5400000000 # 3600000000))
         <= Qabs (5400000000 # 3600000000) * (1 # 2251799813685248).
Proof.
  split.
  - apply (TimeRange_render_by_magnitude 7200000000). reflexivity.
  - apply (TimeRange_render_by_magnitude 5400000000). reflexivity.
Defined.

(** Beyond the bound the rounded seconds can hide a microsecond: 200000
    days and one microsecond render as a whole number of days. *)
Example a_microsecond_lost_beyond_the_bound :
  TimeRange_render 17280000000000001 = Ok (VInt 200000, "d")
  /\ (17280000000000001 mod 86400000000 <> 0)%Z.
Proof.
  split; [vm_compute; reflexivity | discriminate].
Qed.

(** C8 as stated fails: 25 hours render in days, with a fractional
    numeral (the float nearest to 25/24, printed
    [1.0416666666666667]), although the hour divides them evenly and
    the day does not. *)
Lemma twenty_five_hours_render_in_days :
  TimeRange_render 90000000000
  = Ok (VFloat (4691249611844267 # 4503599627370496), "d")
  /\ largest_whole_unit 90000000000 = "h".
Proof.
  split; vm_compute; reflexivity.
Qed.

(* ================================================================== *)
(** * Idempotence of [optimize] where it meets no [And] and no [Or] *)

Local Open Scope nat_scope.

Lemma bind_Ok {A B : Type} (r : result A) (k : A -> result B) (b : B) :
  bind r k = Ok b -> exists a, r = Ok a /\ k a = Ok b.
Proof.
  destruct r as [a| |]; cbn [bind]; intros H; try discriminate H.
  exists a. split; [reflexivity | exact H].
Qed.

Ltac bind_inv H :=
  let a := fresh "a" in
  let Ha := fresh "Ha" in
  apply bind_Ok in H; destruct H as [a [Ha H]].

(** ** Value equality is an equivalence *)

Lemma py_eq_refl v : py_eq v v = true.
Proof.
  destruct v; unfold py_eq; cbn [as_Q]; try apply Qeq_bool_refl; trivial.
  apply String.eqb_refl.
Qed.

Lemma py_eq_sym a b : py_eq a b = py_eq b a.
Proof.
  unfold py_eq. destruct a, b; cbn [as_Q]; try apply Qeq_bool_comm; trivial.
  apply String.eqb_sym.
Qed.

Lemma py_eq_trans a b c : py_eq a b = true -> py_eq b c = true -> py_eq a c = true.
Proof.
  unfold py_eq.
  destruct a, b; cbn [as_Q]; try discriminate; destruct c; cbn [as_Q];
    try discriminate; trivial; try apply Qeq_bool_trans.
  intros H1 H2. apply String.eqb_eq in H1, H2. subst. apply String.eqb_refl.
Qed.

(** ** The dictionary of [_get_literals] *)

Lemma od_mem_app {V : Type} k (d1 d2 : odict V) :
  od_mem k (d1 ++ d2) = od_mem k d1 || od_mem k d2.
Proof. unfold od_mem. apply existsb_app. Qed.

Lemma od_mem_eq {V : Type} k k' (d : odict V) :
  py_eq k k' = true -> od_mem k d = od_mem k' d.
Proof.
  intros E. unfold od_mem. induction d as [|[k0 v0] d IH]; [reflexivity|].
  cbn [existsb fst]. rewrite IH. f_equal.
  destruct (py_eq k0 k) eqn:E1, (py_eq k0 k') eqn:E2; trivial.
  - rewrite (py_eq_trans _ _ _ E1 E) in E2. discriminate.
  - rewrite py_eq_sym in E. rewrite (py_eq_trans _ _ _ E2 E) in E1. discriminate.
Qed.

Lemma od_set_absent {V : Type} k (v : V) d :
  od_mem k d = false -> od_set k v d = d ++ [(k, v)].
Proof.
  induction d as [|[k0 v0] d IH]; [reflexivity|].
  unfold od_mem. cbn [existsb fst od_set]. intros H.
  apply Bool.orb_false_iff in H. destruct H as [H1 H2].
  rewrite H1. cbn [app]. f_equal. apply IH. exact H2.
Qed.

Lemma od_mem_od_set {V : Type} k k0 (v : V) d :
  od_mem k (od_set k0 v d) = od_mem k d || py_eq k0 k.
Proof.
  induction d as [|[k1 v1] d IH].
  - unfold od_mem. cbn. apply Bool.orb_comm.
  - cbn [od_set]. destruct (py_eq k1 k0) eqn:E.
    + unfold od_mem. cbn [existsb fst].
      destruct (py_eq k1 k) eqn:E1; cbn [orb]; [reflexivity|].
      destruct (py_eq k0 k) eqn:E2; [|rewrite Bool.orb_false_r; reflexivity].
      rewrite (py_eq_trans _ _ _ E E2) in E1. discriminate.
    + unfold od_mem in *. cbn [existsb fst]. rewrite IH.
      rewrite Bool.orb_assoc. reflexivity.
Qed.

Lemma dict_ok_od_set k v d :
  (exists k', key_of v = Some k' /\ py_eq k k' = true) ->
  dict_ok d -> dict_ok (od_set k v d).
Proof.
  intros Hk. induction d as [|[k0 v0] d IH]; intros Hd.
  - cbn. auto.
  - cbn [od_set]. destruct Hd as [H0 [H1 H2]].
    destruct (py_eq k0 k) eqn:E.
    + cbn [dict_ok]. repeat split; trivial.
      destruct Hk as [k' [Hk1 Hk2]]. exists k'. split; [exact Hk1|].
      exact (py_eq_trans _ _ _ E Hk2).
    + cbn [dict_ok]. repeat split; auto.
      rewrite od_mem_od_set, H1. rewrite py_eq_sym. exact E.
Qed.

Lemma dict_ok_app_absent k v d :
  (exists k', key_of v = Some k' /\ py_eq k k' = true) ->
  od_mem k d = false -> dict_ok d -> dict_ok (d ++ [(k, v)]).
Proof.
  intros Hk Hm Hd. rewrite <- (od_set_absent k v d Hm).
  apply dict_ok_od_set; assumption.
Qed.

Lemma dict_ok_od_setdefault k v d :
  (exists k', key_of v = Some k' /\ py_eq k k' = true) ->
  dict_ok d -> dict_ok (od_setdefault k v d).
Proof.
  intros Hk Hd. unfold od_setdefault.
  destruct (od_mem k d) eqn:E; [exact Hd|].
  apply dict_ok_app_absent; assumption.
Qed.

Lemma get_literals_from_ok container :
  forall d d', dict_ok d -> get_literals_from container d = Ok d' -> dict_ok d'.
Proof.
  induction container as [|x xs IH]; intros d d' Hd H.
  - inversion H; subst; exact Hd.
  - destruct x as [c k| | | | | | | | | | |]; cbn [get_literals_from] in H;
      try (eapply IH; eassumption).
    destruct c.
    + eapply IH; [|exact H]. apply dict_ok_od_set; [|exact Hd].
      exists k. split; [reflexivity | apply py_eq_refl].
    + eapply IH; [|exact H]. apply dict_ok_od_set; [|exact Hd].
      exists k. split; [reflexivity | apply py_eq_refl].
    + eapply IH; [|exact H]. apply dict_ok_od_set; [|exact Hd].
      exists k. split; [reflexivity | apply py_eq_refl].
    + bind_inv H. destruct k; try discriminate Ha. inversion Ha; subst.
      eapply IH; [|exact H]. apply dict_ok_od_setdefault; [|exact Hd].
      exists (VStr (lower_string s)). split; [reflexivity | apply py_eq_refl].
Qed.

Lemma get_literals_from_dynamic container d :
  get_literals_from (dynamic container) d = Ok d.
Proof.
  induction container as [|x xs IH]; [reflexivity|].
  destruct x; cbn [dynamic filter isinstance_Literal negb]; try exact IH;
    cbn [get_literals_from]; exact IH.
Qed.

Lemma get_literals_from_file v k' rest d :
  key_of v = Some k' -> od_mem k' d = false ->
  get_literals_from (v :: rest) d = get_literals_from rest (d ++ [(k', v)]).
Proof.
  intros Hk Hm.
  destruct v as [c val| | | | | | | | | | |]; try discriminate Hk.
  destruct c; cbn [key_of] in Hk.
  1-3: inversion Hk; subst; cbn [get_literals_from];
    rewrite (od_set_absent _ _ _ Hm); reflexivity.
  destruct val; try discriminate Hk. inversion Hk; subst.
  cbn [get_literals_from py_lower bind]. unfold od_setdefault. rewrite Hm.
  reflexivity.
Qed.

Lemma dict_ok_app_inv d1 d2 :
  dict_ok (d1 ++ d2) ->
  dict_ok d2 /\ (forall kv1, In kv1 d1 -> od_mem (fst kv1) d2 = false).
Proof.
  induction d1 as [|[k v] d1 IH]; cbn [app dict_ok]; intros H.
  - split; [exact H | intros ? []].
  - destruct H as [_ [Hm Hd]]. destruct (IH Hd) as [H2 H3].
    split; [exact H2|]. intros kv1 [E|Hin].
    + subst. cbn [fst]. rewrite od_mem_app in Hm.
      apply Bool.orb_false_iff in Hm. tauto.
    + apply H3; exact Hin.
Qed.

Lemma od_mem_false_same d1 d1' k :
  Forall2 same_entry d1 d1' ->
  (forall kv1, In kv1 d1 -> py_eq (fst kv1) k = false) ->
  od_mem k d1' = false.
Proof.
  intros HF. induction HF as [|kv kv' d1 d1' [E _] HF IH]; intros H; [reflexivity|].
  unfold od_mem. cbn [existsb]. apply Bool.orb_false_iff. split.
  - specialize (H kv (or_introl eq_refl)).
    destruct (py_eq (fst kv') k) eqn:E'; [|reflexivity].
    rewrite (py_eq_trans _ _ _ E E') in H. discriminate.
  - apply IH. intros kv1 Hin. apply H. right; exact Hin.
Qed.

Lemma get_literals_from_values d2 :
  forall d1 d1' rest,
    Forall2 same_entry d1 d1' -> dict_ok (d1 ++ d2) ->
    exists d2', Forall2 same_entry d2 d2'
                /\ get_literals_from (od_values d2 ++ rest) d1'
                   = get_literals_from rest (d1' ++ d2').
Proof.
  induction d2 as [|[k v] d2 IH]; intros d1 d1' rest HF Hd.
  - exists []. split; [constructor|]. rewrite app_nil_r. reflexivity.
  - destruct (dict_ok_app_inv _ _ Hd) as [[[k' [Hk Hkk']] _] Hfresh].
    assert (Hm : od_mem k' d1' = false).
    { apply (od_mem_false_same d1); [exact HF|].
      intros kv1 Hin. specialize (Hfresh kv1 Hin).
      unfold od_mem in Hfresh. cbn [existsb fst] in Hfresh.
      apply Bool.orb_false_iff in Hfresh. destruct Hfresh as [Hf _].
      destruct (py_eq (fst kv1) k') eqn:E; [|reflexivity].
      rewrite py_eq_sym in E.
      rewrite (py_eq_trans _ _ _ Hkk' E) in Hf. discriminate. }
    destruct (IH (d1 ++ [(k, v)]) (d1' ++ [(k', v)]) rest) as [d2' [HF' E]].
    + apply Forall2_app; [exact HF|]. constructor; [|constructor].
      split; [exact Hkk' | reflexivity].
    + rewrite <- app_assoc. exact Hd.
    + exists ((k', v) :: d2'). split.
      * constructor; [split; [exact Hkk' | reflexivity] | exact HF'].
      * cbn [od_values map snd app].
        rewrite (get_literals_from_file v k' _ d1' Hk Hm).
        fold (od_values d2). rewrite E, <- app_assoc. reflexivity.
Qed.

Lemma same_entry_values d d' :
  Forall2 same_entry d d' -> od_values d' = od_values d.
Proof.
  induction 1 as [|kv kv' d d' [_ E] _ IH]; [reflexivity|].
  cbn [od_values map]. rewrite E. f_equal. exact IH.
Qed.

Lemma dict_ok_values_literal d :
  dict_ok d -> forallb isinstance_Literal (od_values d) = true.
Proof.
  induction d as [|[k v] d IH]; [reflexivity|].
  intros [[k' [Hk _]] [_ Hd]]. specialize (IH Hd). unfold od_values in *.
  cbn [map snd forallb]. rewrite IH.
  destruct v; try discriminate Hk. reflexivity.
Qed.

Lemma dynamic_app xs ys : dynamic (xs ++ ys) = dynamic xs ++ dynamic ys.
Proof. apply filter_app. Qed.

Lemma dynamic_literals xs :
  forallb isinstance_Literal xs = true -> dynamic xs = [].
Proof.
  induction xs as [|x xs IH]; [reflexivity|]. cbn [forallb]. intros H.
  apply Bool.andb_true_iff in H. destruct H as [H1 H2].
  cbn [dynamic filter]. rewrite H1. cbn [negb]. apply IH; exact H2.
Qed.

Lemma dynamic_dynamic xs : dynamic (dynamic xs) = dynamic xs.
Proof.
  induction xs as [|x xs IH]; [reflexivity|]. cbn [dynamic filter].
  destruct (negb (isinstance_Literal x)) eqn:E; [|exact IH].
  cbn [filter]. rewrite E. f_equal. exact IH.
Qed.

(** Filing the values of the dictionary again, in front of the
    dynamic members, gives the same values. *)
Lemma get_literals_again container d :
  _get_literals container = Ok d ->
  exists d', _get_literals (od_values d ++ dynamic container) = Ok d'
             /\ od_values d' = od_values d
             /\ dynamic (od_values d ++ dynamic container) = dynamic container.
Proof.
  intros H.
  assert (Hd : dict_ok d) by exact (get_literals_from_ok container [] d Logic.I H).
  destruct (get_literals_from_values d [] [] (dynamic container)) as [d' [HF E]];
    [constructor | exact Hd |].
  exists d'. split; [|split].
  - unfold _get_literals. rewrite E. apply get_literals_from_dynamic.
  - apply same_entry_values; exact HF.
  - rewrite dynamic_app, dynamic_dynamic.
    rewrite (dynamic_literals _ (dict_ok_values_literal d Hd)). reflexivity.
Qed.

(** ** [InSet.optimize], by stages *)

Lemma InSet_optimize_dynamic expression container :
  isinstance_Literal expression = false ->
  InSet_optimize expression container
  = (d <- _get_literals container ;;
     InSet_finish expression (od_values d ++ dynamic container)).
Proof.
  intros H. unfold InSet_optimize.
  destruct (_get_literals container) as [d| |]; cbn [bind]; trivial.
  destruct expression; try discriminate H; reflexivity.
Qed.

Lemma InSet_optimize_literal c v container :
  InSet_optimize (Literal c v) container
  = (d <- _get_literals container ;;
     v' <- (if is_string v then py_lower v else Ok v) ;;
     if od_mem v' d then Ok (Boolean (VBool true))
     else InSet_finish (Literal c v) (dynamic container)).
Proof.
  unfold InSet_optimize.
  destruct (_get_literals container) as [d| |]; cbn [bind]; trivial.
  destruct (if is_string v then py_lower v else Ok v) as [v'| |]; cbn [bind]; trivial.
  destruct (od_mem v' d); reflexivity.
Qed.

Lemma Comparison_optimize_cases l c r y :
  Comparison_optimize l c r = Ok y ->
  isinstance_Literal y = true \/ y = Comparison l c r.
Proof.
  unfold Comparison_optimize.
  assert (D : (if node_eqb l r
               then Ok (Boolean (VBool match c with EQ | LE | GE => true | _ => false end))
               else Ok (Comparison l c r)) = Ok y ->
              isinstance_Literal y = true \/ y = Comparison l c r).
  { destruct (node_eqb l r); intros H; inversion H; subst; auto. }
  destruct l; try exact D. destruct r; try exact D.
  destruct (negb (literal_class_eqb cls0 cls)).
  - intros H; inversion H; subst; auto.
  - intros H. bind_inv H. bind_inv H. inversion H; subst; auto.
Qed.

Lemma Comparison_optimize_fix l c r y :
  Comparison_optimize l c r = Ok y -> shallow_fix y.
Proof.
  intros H. destruct (Comparison_optimize_cases l c r y H) as [E|E].
  - destruct y; try discriminate E. exact Logic.I.
  - subst y. exact H.
Qed.

Lemma InSet_finish_cases expression cont y :
  InSet_finish expression cont = Ok y ->
  isinstance_Literal y = true
  \/ (exists item, cont = [item] /\ y = Comparison expression EQ item
                   /\ Comparison_optimize expression EQ item = Ok y)
  \/ (y = InSet expression cont /\ exists a b rest, cont = a :: b :: rest).
Proof.
  destruct cont as [|item [|item' rest]]; cbn [InSet_finish]; intros H.
  - inversion H; subst; auto.
  - destruct (Comparison_optimize_cases _ _ _ _ H) as [E|E]; [auto|].
    right; left. exists item. subst y. auto.
  - destruct (existsb _ _); inversion H; subst; [auto|].
    right; right. split; [reflexivity|]. eauto.
Qed.

Lemma InSet_optimize_fix expression container y :
  InSet_optimize expression container = Ok y -> shallow_fix y.
Proof.
  intros H.
  destruct (isinstance_Literal expression) eqn:L.
  - destruct expression as [c v| | | | | | | | | | |]; try discriminate L.
    pose proof H as H0.
    rewrite InSet_optimize_literal in H. bind_inv H. bind_inv H.
    rename a into d, a0 into v'.
    destruct (od_mem v' d) eqn:M; [inversion H; subst; exact Logic.I|].
    destruct (InSet_finish_cases _ _ _ H) as [E|[[item [E1 [E2 E3]]]|[E1 E2]]].
    + destruct y; try discriminate E. exact Logic.I.
    + subst y. exact E3.
    + subst y. cbn [shallow_fix]. rewrite InSet_optimize_literal.
      unfold _get_literals. rewrite get_literals_from_dynamic. cbn [bind].
      rewrite Ha0. cbn [bind od_mem existsb]. rewrite dynamic_dynamic. exact H.
  - pose proof H as H0.
    rewrite (InSet_optimize_dynamic _ _ L) in H. bind_inv H. rename a into d.
    destruct (InSet_finish_cases _ _ _ H) as [E|[[item [E1 [E2 E3]]]|[E1 E2]]].
    + destruct y; try discriminate E. exact Logic.I.
    + subst y. exact E3.
    + subst y. cbn [shallow_fix]. rewrite (InSet_optimize_dynamic _ _ L).
      destruct (get_literals_again container d Ha) as [d' [G1 [G2 G3]]].
      rewrite G1. cbn [bind]. rewrite G2, G3. exact H.
Qed.

(** ** Sizes of the shallow results *)

Lemma size_pos n : 1 <= size n.
Proof. destruct n; cbn [size]; lia. Qed.

Lemma sizes_app xs ys : sizes (xs ++ ys) = sizes xs + sizes ys.
Proof. unfold sizes. rewrite map_app, list_sum_app. reflexivity. Qed.

Lemma list_sum_cons x xs : list_sum (x :: xs) = x + list_sum xs.
Proof. reflexivity. Qed.

Lemma sizes_dynamic container :
  sizes (dynamic container) + literal_count container <= sizes container.
Proof.
  unfold sizes, literal_count, dynamic.
  induction container as [|x xs IH]; [cbn; lia|].
  cbn [filter map]. pose proof (size_pos x).
  destruct (isinstance_Literal x) eqn:E; cbn [negb List.length map];
    rewrite ?list_sum_cons; lia.
Qed.

Lemma od_set_length {V : Type} k (v : V) d :
  List.length (od_set k v d) <= S (List.length d).
Proof.
  induction d as [|[k0 v0] d IH]; [cbn; lia|].
  cbn [od_set]. destruct (py_eq k0 k); cbn [List.length]; lia.
Qed.

Lemma od_setdefault_length {V : Type} k (v : V) d :
  List.length (od_setdefault k v d) <= S (List.length d).
Proof.
  unfold od_setdefault. destruct (od_mem k d); [lia|].
  rewrite length_app. cbn. lia.
Qed.

Lemma get_literals_from_length container :
  forall d d', get_literals_from container d = Ok d' ->
               List.length d' <= List.length d + literal_count container.
Proof.
  unfold literal_count.
  induction container as [|x xs IH]; intros d d' H.
  - inversion H; subst. cbn. lia.
  - destruct x as [c k| | | | | | | | | | |]; cbn [get_literals_from] in H;
      cbn [filter isinstance_Literal List.length]; try (apply IH; exact H).
    destruct c.
    1-3: apply IH in H;
      match type of H with
      | context [od_set ?k0 ?v ?d0] => pose proof (od_set_length k0 v d0)
      end; lia.
    bind_inv H. apply IH in H.
    pose proof (od_setdefault_length a (Literal CString k) d). lia.
Qed.

Lemma dict_ok_values d :
  dict_ok d -> sizes (od_values d) = List.length d.
Proof.
  unfold sizes, od_values. induction d as [|[k v] d IH]; [reflexivity|].
  intros [[k' [Hk _]] [_ Hd]]. specialize (IH Hd).
  destruct v; try discriminate Hk.
  cbn [map snd size List.length]; rewrite ?list_sum_cons. lia.
Qed.

Lemma Comparison_optimize_bounds l c r y :
  Comparison_optimize l c r = Ok y ->
  size y <= size (Comparison l c r) /\ compound_free y = true.
Proof.
  intros H. destruct (Comparison_optimize_cases _ _ _ _ H) as [E|E].
  - destruct y; try discriminate E. cbn [size compound_free]. split; [lia|reflexivity].
  - subst. split; [lia | reflexivity].
Qed.

Lemma InSet_finish_bounds expression cont y :
  InSet_finish expression cont = Ok y ->
  size y <= S (size expression + sizes cont) /\ compound_free y = true.
Proof.
  intros H.
  destruct (InSet_finish_cases _ _ _ H) as [E|[[item [E1 [E2 E3]]]|[E1 E2]]].
  - destruct y; try discriminate E. cbn [size compound_free]. split; [lia|reflexivity].
  - subst. unfold sizes. cbn [size compound_free map].
    rewrite list_sum_cons. split; [lia | reflexivity].
  - subst. unfold sizes. cbn [size compound_free]. split; [lia | reflexivity].
Qed.

Lemma InSet_optimize_bounds expression container y :
  InSet_optimize expression container = Ok y ->
  size y <= size (InSet expression container) /\ compound_free y = true.
Proof.
  intros H. cbn [size]. fold (sizes container).
  pose proof (sizes_dynamic container) as SD.
  destruct (isinstance_Literal expression) eqn:L.
  - destruct expression as [c v| | | | | | | | | | |]; try discriminate L.
    rewrite InSet_optimize_literal in H. bind_inv H. bind_inv H.
    destruct (od_mem a0 a).
    + inversion H; subst. unfold Boolean. cbn [size compound_free].
      split; [lia | reflexivity].
    + destruct (InSet_finish_bounds _ _ _ H) as [B1 B2]. split; [lia | exact B2].
  - rewrite (InSet_optimize_dynamic _ _ L) in H. bind_inv H. rename a into d.
    assert (Hd : dict_ok d) by exact (get_literals_from_ok container [] d Logic.I Ha).
    pose proof (dict_ok_values d Hd) as V1.
    pose proof (get_literals_from_length container [] d Ha) as Len. cbn in Len.
    destruct (InSet_finish_bounds _ _ _ H) as [B1 B2].
    rewrite sizes_app in B1. split; [lia | exact B2].
Qed.

(** ** The recursive [optimize] methods, by stages *)

Lemma mapM_Ok {A : Type} (xs : list A) : mapM (@Ok A) xs = Ok xs.
Proof.
  induction xs as [|x xs IH]; [reflexivity|]. cbn [mapM bind]. rewrite IH. reflexivity.
Qed.

Lemma mapM_Forall2 {A B : Type} (f : A -> result B) xs ys :
  mapM f xs = Ok ys <-> Forall2 (fun x y => f x = Ok y) xs ys.
Proof.
  revert ys. induction xs as [|x xs IH]; intros ys; split.
  - intros H; inversion H; constructor.
  - intros H; inversion H; reflexivity.
  - cbn [mapM]. intros H. bind_inv H. bind_inv H. inversion H; subst.
    constructor; [exact Ha | apply IH; exact Ha0].
  - intros H. inversion H as [|? y ? ys' H1 H2]; subst.
    cbn [mapM]. rewrite H1. cbn [bind].
    apply IH in H2. rewrite H2. reflexivity.
Qed.

Section Stages.
Variable get_function : registry.

Lemma FunctionCall_optimize_stages opt name arguments as_method :
  FunctionCall_optimize get_function opt name arguments as_method
  = (arguments' <- mapM opt arguments ;;
     FunctionCall_optimize get_function Ok name arguments' as_method).
Proof.
  unfold FunctionCall_optimize.
  destruct (mapM opt arguments) as [arguments'| |]; cbn [bind]; trivial.
  rewrite mapM_Ok. reflexivity.
Qed.

Lemma MathOperation_optimize_stages opt l operator r :
  MathOperation_optimize opt l operator r
  = (left <- opt l ;; right <- opt r ;; MathOperation_optimize Ok left operator right).
Proof.
  unfold MathOperation_optimize.
  destruct (opt l) as [left| |]; cbn [bind]; trivial.
Qed.

Lemma MathOperation_finish_plain left operator right :
  folds left operator right = false -> rewrites operator right = false ->
  MathOperation_optimize Ok left operator right
  = Ok (MathOperation left operator right).
Proof.
  unfold MathOperation_optimize, folds, rewrites, divides_by_zero. cbn [bind].
  intros F R.
  assert (T : match right with
              | MathOperation rleft roperator rright =>
                if node_eqb rleft (Number (VInt 0))
                   && (is_additive operator && is_additive roperator)
                then Ok (MathOperation left
                           (if xorb (math_operator_eqb operator Sub)
                                    (math_operator_eqb roperator Sub)
                            then Sub else Add) rright)
                else Ok (MathOperation left operator right)
              | _ => Ok (MathOperation left operator right)
              end = Ok (MathOperation left operator right)).
  { destruct right; trivial. rewrite R. reflexivity. }
  destruct left as [cl lv| | | | | | | | | | |]; try exact T.
  destruct cl; try exact T.
  destruct right as [cr rv| | | | | | | | | | |]; try exact T.
  destruct cr; try exact T.
  rewrite F. exact T.
Qed.

Lemma MathOperation_finish_cases left operator right y :
  MathOperation_optimize Ok left operator right = Ok y ->
  (exists v, y = Number v)
  \/ (exists rleft roperator rright operator',
         right = MathOperation rleft roperator rright
         /\ node_eqb rleft (Number (VInt 0)) = true
         /\ is_additive roperator = true
         /\ is_additive operator' = true
         /\ y = MathOperation left operator' rright)
  \/ (y = MathOperation left operator right
      /\ folds left operator right = false
      /\ rewrites operator right = false).
Proof.
  intros H.
  destruct (folds left operator right) eqn:F.
  - left. unfold folds in F.
    destruct left as [cl lv| | | | | | | | | | |]; try discriminate F.
    destruct cl; try discriminate F.
    destruct right as [cr rv| | | | | | | | | | |]; try discriminate F.
    destruct cr; try discriminate F.
    unfold MathOperation_optimize in H. cbn [bind] in H.
    unfold divides_by_zero in F. rewrite F in H.
    bind_inv H. inversion H; subst. eauto.
  - destruct (rewrites operator right) eqn:R.
    + right; left. unfold rewrites in R.
      destruct right as [| | | | |rl rop rr| | | | | |]; try discriminate R.
      apply Bool.andb_true_iff in R. destruct R as [R1 R2].
      apply Bool.andb_true_iff in R2. destruct R2 as [R2 R3].
      exists rl, rop, rr,
        (if xorb (math_operator_eqb operator Sub) (math_operator_eqb rop Sub)
         then Sub else Add).
      repeat split; trivial.
      * destruct (xorb _ _); reflexivity.
      * unfold MathOperation_optimize in H. cbn [bind] in H.
        rewrite R1, R2, R3 in H. cbn [andb] in H.
        destruct left as [cl lv| | | | | | | | | | |]; try (inversion H; reflexivity).
        destruct cl; inversion H; reflexivity.
    + right; right. rewrite (MathOperation_finish_plain _ _ _ F R) in H.
      inversion H; subst. auto.
Qed.
End Stages.

(** ** The induction *)

Section Idempotence.
Variable get_function : registry.

Local Abbreviation opt := (optimize get_function).

Lemma node_invert_mono (o o' : node -> result node) t y :
  (forall x z, o x = Ok z -> o' x = Ok z) ->
  node_invert o t = Ok y -> node_invert o' t = Ok y.
Proof.
  intros Hoo H. destruct t; cbn [node_invert] in *; trivial.
  apply Hoo; exact H.
Qed.

(** More budget does not change an outcome. *)
Lemma optimize_mono fuel :
  forall x y, opt fuel x = Ok y -> opt (S fuel) x = Ok y.
Proof.
  induction fuel as [|fuel IH]; intros x y H; [discriminate H|].
  destruct x; trivial.
  - change (FunctionCall_optimize get_function (opt fuel) name arguments as_method = Ok y) in H.
    change (FunctionCall_optimize get_function (opt (S fuel)) name arguments as_method = Ok y).
    rewrite FunctionCall_optimize_stages in *. bind_inv H.
    assert (E : mapM (opt (S fuel)) arguments = Ok a).
    { apply mapM_Forall2. apply mapM_Forall2 in Ha.
      eapply Forall2_impl; [|exact Ha]. intros ? ?; apply IH. }
    rewrite E. exact H.
  - change (MathOperation_optimize (opt fuel) x1 operator x2 = Ok y) in H.
    change (MathOperation_optimize (opt (S fuel)) x1 operator x2 = Ok y).
    rewrite MathOperation_optimize_stages in *. bind_inv H. bind_inv H.
    rewrite (IH _ _ Ha), (IH _ _ Ha0). exact H.
  - change (Not_optimize (opt fuel) x = Ok y) in H.
    change (Not_optimize (opt (S fuel)) x = Ok y).
    unfold Not_optimize in *. bind_inv H. rewrite (IH _ _ Ha). cbn [bind].
    eapply node_invert_mono; [|exact H]. exact IH.
Qed.

Lemma optimize_mono_le fuel fuel' x y :
  fuel <= fuel' -> opt fuel x = Ok y -> opt fuel' x = Ok y.
Proof.
  induction 1 as [|fuel' _ IH]; [trivial|].
  intros H. apply optimize_mono. apply IH; exact H.
Qed.

Lemma shallow_fix_optimize y fuel : shallow_fix y -> opt (S fuel) y = Ok y.
Proof.
  destruct y; cbn [shallow_fix]; intros H; try contradiction; trivial.
Qed.

Lemma Forall2_sizes (R : node -> node -> Prop) xs ys :
  Forall2 (fun x y => R x y /\ size y <= size x) xs ys -> sizes ys <= sizes xs.
Proof.
  unfold sizes. induction 1 as [|x y xs ys [_ H] _ IH]; [reflexivity|].
  cbn [map]. rewrite !list_sum_cons. lia.
Qed.

Lemma settles_FunctionCall fuel name arguments as_method y :
  settles get_function fuel -> forallb compound_free arguments = true ->
  FunctionCall_optimize get_function (opt fuel) name arguments as_method = Ok y ->
  compound_free y = true
  /\ size y <= S (sizes arguments)
  /\ opt (S fuel) y = Ok y.
Proof.
  intros IH C H. rewrite FunctionCall_optimize_stages in H. bind_inv H.
  rename a into arguments'.
  assert (F : Forall2 (fun x z => (compound_free z = true /\ opt fuel z = Ok z)
                                  /\ size z <= size x) arguments arguments').
  { apply mapM_Forall2 in Ha. clear H.
    induction Ha as [|x z xs zs H1 _ IHF]; [constructor|].
    cbn [forallb] in C. apply Bool.andb_true_iff in C. destruct C as [C1 C2].
    destruct (IH x z C1 H1) as [A1 [A2 A3]].
    constructor; [tauto | apply IHF; exact C2]. }
  assert (S1 : sizes arguments' <= sizes arguments)
    by (eapply Forall2_sizes; exact F).
  assert (C' : forallb compound_free arguments' = true).
  { clear -F. induction F as [|x z xs zs [[H _] _] _ IHF]; [reflexivity|].
    cbn [forallb]. rewrite H. exact IHF. }
  assert (M : mapM (opt fuel) arguments' = Ok arguments').
  { apply mapM_Forall2. clear -F.
    induction F as [|x z xs zs [[_ H] _] _ IHF]; constructor; assumption. }
  assert (Y : (exists c v, y = Literal c v)
              \/ y = FunctionCall name arguments' as_method).
  { unfold FunctionCall_optimize in H. rewrite mapM_Ok in H. cbn [bind] in H.
    destruct (get_function name) as [run|]; [|inversion H; auto].
    destruct (forallb isinstance_Literal arguments'); [|inversion H; auto].
    destruct (run (map value_of arguments')) as [e|rv].
    - destruct e; try discriminate H; inversion H; auto.
    - inversion H; subst. left. unfold from_python. eauto. }
  destruct Y as [[c [v E]]|E]; subst y.
  - cbn [compound_free size]. split; [reflexivity|]. split; [lia | reflexivity].
  - cbn [compound_free size]. fold (sizes arguments').
    split; [exact C'|]. split; [lia|].
    change (FunctionCall_optimize get_function (opt fuel) name arguments' as_method
            = Ok (FunctionCall name arguments' as_method)).
    rewrite FunctionCall_optimize_stages, M. exact H.
Qed.

Lemma zero_is_a_Number rleft :
  node_eqb rleft (Number (VInt 0)) = true -> exists v, rleft = Literal CNumber v.
Proof.
  destruct rleft as [c v| | | | | | | | | | |]; try discriminate.
  destruct c; try discriminate. eauto.
Qed.

Lemma folds_additive_false v operator rright left operator' :
  is_additive operator = true ->
  folds (Literal CNumber v) operator rright = false ->
  folds left operator' rright = false.
Proof.
  intros A F. unfold folds in *.
  destruct rright as [c rv| | | | | | | | | | |];
    try (destruct left as [[] ?| | | | | | | | | | |]; reflexivity).
  destruct c; try (destruct left as [[] ?| | | | | | | | | | |]; reflexivity).
  unfold divides_by_zero in F. destruct operator; try discriminate A;
    rewrite Bool.andb_false_r in F; discriminate F.
Qed.

Lemma rewrites_additive operator operator' rright :
  is_additive operator = true -> is_additive operator' = true ->
  rewrites operator' rright = rewrites operator rright.
Proof.
  intros A A'. unfold rewrites. destruct rright; trivial. rewrite A, A'. reflexivity.
Qed.

Lemma settles_MathOperation fuel l operator r y :
  (forall g, g <= fuel -> settles get_function g) ->
  compound_free l = true -> compound_free r = true ->
  MathOperation_optimize (opt fuel) l operator r = Ok y ->
  compound_free y = true
  /\ size y <= S (size l + size r)
  /\ opt (S fuel) y = Ok y.
Proof.
  intros IH Cl Cr H. rewrite MathOperation_optimize_stages in H.
  bind_inv H. bind_inv H. rename a into left, a0 into right.
  destruct (IH fuel (le_n _) l left Cl Ha) as [Cleft [Sleft Fleft]].
  destruct (IH fuel (le_n _) r right Cr Ha0) as [Cright [Sright Fright]].
  destruct (MathOperation_finish_cases _ _ _ _ H)
    as [[v E]|[[rl [rop [rr [op' [E1 [Z [A [A' E2]]]]]]]]|[E [F R]]]].
  - subst y. unfold Number. cbn [compound_free size].
    split; [reflexivity|]. split; [lia | reflexivity].
  - subst right y.
    cbn [compound_free] in Cright. apply Bool.andb_true_iff in Cright.
    destruct Cright as [Crl Crr]. cbn [size] in Sright.
    destruct fuel as [|g]; [discriminate Fright|].
    change (MathOperation_optimize (opt g) rl rop rr = Ok (MathOperation rl rop rr))
      in Fright.
    rewrite MathOperation_optimize_stages in Fright.
    bind_inv Fright. bind_inv Fright. rename a into l2, a0 into r2.
    assert (G : g <= S g) by lia.
    destruct (IH g G rr r2 Crr Ha2) as [_ [Sr2 _]].
    destruct (MathOperation_finish_cases _ _ _ _ Fright)
      as [[v E]|[[rl' [rop' [rr' [op'' [E1 [_ [_ [_ E2]]]]]]]]|[E [F R]]]].
    + discriminate E.
    + exfalso. inversion E2; subst. cbn [size] in Sr2. lia.
    + inversion E; subst l2 r2.
      destruct (zero_is_a_Number _ Z) as [v0 Ez]. subst rl.
      assert (Frr : opt (S g) rr = Ok rr) by (apply optimize_mono; exact Ha2).
      cbn [compound_free size]. rewrite Cleft, Crr.
      split; [reflexivity|]. split; [lia|].
      change (MathOperation_optimize (opt (S g)) left op' rr
              = Ok (MathOperation left op' rr)).
      rewrite MathOperation_optimize_stages, Fleft, Frr. cbn [bind].
      apply MathOperation_finish_plain.
      * exact (folds_additive_false _ _ _ _ _ A F).
      * rewrite (rewrites_additive rop op' rr A A'). exact R.
  - subst y. cbn [compound_free size]. rewrite Cleft, Cright.
    split; [reflexivity|]. split; [lia|].
    change (MathOperation_optimize (opt fuel) left operator right
            = Ok (MathOperation left operator right)).
    rewrite MathOperation_optimize_stages, Fleft, Fright. exact H.
Qed.

Lemma settles_Not fuel t y :
  (forall g, g <= fuel -> settles get_function g) ->
  compound_free t = true ->
  Not_optimize (opt fuel) t = Ok y ->
  compound_free y = true
  /\ size y <= S (size t)
  /\ opt (S fuel) y = Ok y.
Proof.
  intros IH Ct H. unfold Not_optimize in H. bind_inv H. rename a into t'.
  destruct (IH fuel (le_n _) t t' Ct Ha) as [Ct' [St' Ft']].
  (* the cases in which [~t'] wraps [t'] in a [Not] *)
  assert (W : y = Not t' ->
              node_invert (opt fuel) t' = Ok (Not t') ->
              compound_free y = true /\ size y <= S (size t)
              /\ opt (S fuel) y = Ok y).
  { intros -> W. cbn [compound_free size].
    split; [exact Ct'|]. split; [lia|].
    change (Not_optimize (opt fuel) t' = Ok (Not t')).
    unfold Not_optimize. rewrite Ft'. exact W. }
  (* the cases in which [~t'] is a flipped comparison *)
  assert (F : forall l c c' r,
             t' = Comparison l c r -> Comparison_optimize l c' r = Ok y ->
             compound_free y = true /\ size y <= S (size t)
             /\ opt (S fuel) y = Ok y).
  { intros l c c' r -> F.
    destruct (Comparison_optimize_bounds _ _ _ _ F) as [B1 B2].
    cbn [size] in *.
    split; [exact B2|]. split; [lia|].
    apply shallow_fix_optimize. eapply Comparison_optimize_fix; exact F. }
  destruct t' as [c v| | | | | |l c r| |u| | |]; cbn [node_invert] in H;
    try (inversion H; subst y; apply W; reflexivity).
  - inversion H; subst y. unfold Boolean. cbn [compound_free size].
    split; [reflexivity|]. split; [lia | reflexivity].
  - destruct c; try (inversion H; subst y; apply W; reflexivity);
      eapply F; try reflexivity; exact H.
  - (* [t'] is [Not u]: the result is [u.optimize()] *)
    cbn [compound_free size] in Ct', St'.
    destruct fuel as [|g]; [discriminate Ft'|].
    change (Not_optimize (opt g) u = Ok (Not u)) in Ft'.
    unfold Not_optimize in Ft'. bind_inv Ft'. rename a into u2.
    assert (G : g <= S g) by lia.
    destruct (IH g G u u2 Ct' Ha0) as [Cu2 [Su2 _]].
    assert (E : u2 = u).
    { destruct u2 as [c v| | | | | |l c r| |z| | |]; cbn [node_invert] in Ft';
        try (inversion Ft'; reflexivity); try discriminate Ft'.
      - destruct c; try (inversion Ft'; reflexivity);
          destruct (Comparison_optimize_cases _ _ _ _ Ft') as [E|E];
          discriminate E.
      - exfalso. cbn [compound_free size] in Cu2, Su2.
        destruct (IH g G z (Not u) Cu2 Ft') as [_ [Sz _]].
        cbn [size] in Sz. lia. }
    subst u2.
    assert (Fu : opt (S g) u = Ok u) by (apply optimize_mono; exact Ha0).
    rewrite Fu in H. inversion H; subst y.
    split; [exact Ct'|]. split; [lia|]. apply optimize_mono; exact Fu.
Qed.

Lemma optimize_settles fuel : settles get_function fuel.
Proof.
  induction fuel as [fuel IH] using lt_wf_ind.
  destruct fuel as [|fuel]; intros x y C H; [discriminate H|].
  assert (IH' : forall g, g <= fuel -> settles get_function g) by (intros g Hg; apply IH; lia).
  destruct x; try discriminate C;
    try (inversion H; subst y; split; [exact C|]; split; [lia | reflexivity]).
  - destruct (settles_FunctionCall fuel _ _ _ _ (IH' fuel (le_n _)) C H)
      as [A1 [A2 A3]].
    repeat split; trivial.
  - cbn [compound_free] in C. apply Bool.andb_true_iff in C. destruct C as [C1 C2].
    destruct (settles_MathOperation fuel _ _ _ _ IH' C1 C2 H) as [A1 [A2 A3]].
    repeat split; trivial.
  - change (Comparison_optimize x1 cmp x2 = Ok y) in H.
    destruct (Comparison_optimize_bounds _ _ _ _ H) as [B1 B2].
    split; [exact B2|]. split; [exact B1|].
    apply shallow_fix_optimize. eapply Comparison_optimize_fix; exact H.
  - change (InSet_optimize x container = Ok y) in H.
    destruct (InSet_optimize_bounds _ _ _ H) as [B1 B2].
    split; [exact B2|]. split; [exact B1|].
    apply shallow_fix_optimize. eapply InSet_optimize_fix; exact H.
  - destruct (settles_Not fuel x y IH' C H) as [A1 [A2 A3]].
    repeat split; trivial.
Qed.

(** With a budget of the size of the tree, [optimize] comes back. *)
Lemma optimize_returns fuel :
  forall x, compound_free x = true -> size x <= fuel ->
            opt fuel x <> OutOfFuel.
Proof.
  induction fuel as [|fuel IH]; intros x C S.
  - pose proof (size_pos x). lia.
  - destruct x; try discriminate C; try discriminate.
    + change (FunctionCall_optimize get_function (opt fuel) name arguments as_method
              <> OutOfFuel).
      rewrite FunctionCall_optimize_stages. cbn [size] in S. fold (sizes arguments) in S.
      apply bind_not_OutOfFuel.
      * cbn [compound_free] in C. clear -IH C S.
        induction arguments as [|a args IHa]; [discriminate|].
        cbn [forallb] in C. apply Bool.andb_true_iff in C. destruct C as [C1 C2].
        unfold sizes in *. cbn [map] in S. rewrite list_sum_cons in S.
        cbn [mapM]. apply bind_not_OutOfFuel; [apply IH; [exact C1 | lia]|].
        intros. apply bind_not_OutOfFuel; [apply IHa; [exact C2 | lia]|].
        discriminate.
      * intros args' _. unfold FunctionCall_optimize. rewrite mapM_Ok. cbn [bind].
        destruct (get_function name) as [run|]; [|discriminate].
        destruct (forallb isinstance_Literal args'); [|discriminate].
        destruct (run _) as [[]|]; discriminate.
    + change (MathOperation_optimize (opt fuel) x1 operator x2 <> OutOfFuel).
      rewrite MathOperation_optimize_stages.
      cbn [compound_free] in C. apply Bool.andb_true_iff in C. destruct C as [C1 C2].
      cbn [size] in S.
      apply bind_not_OutOfFuel; [apply IH; [exact C1 | lia]|]. intros left _.
      apply bind_not_OutOfFuel; [apply IH; [exact C2 | lia]|]. intros right _.
      destruct (folds left operator right) eqn:F.
      * unfold folds in F.
        destruct left as [[] lv| | | | | | | | | | |]; try discriminate F.
        destruct right as [[] rv| | | | | | | | | | |]; try discriminate F.
        unfold MathOperation_optimize. cbn [bind].
        unfold divides_by_zero in F. rewrite F.
        apply bind_not_OutOfFuel; [|discriminate].
        apply op_lookup_not_OutOfFuel.
      * destruct (rewrites operator right) eqn:R.
        -- unfold rewrites in R.
           destruct right as [| | | | |rl rop rr| | | | | |]; try discriminate R.
           unfold MathOperation_optimize. cbn [bind]. rewrite R.
           destruct left as [[] lv| | | | | | | | | | |]; discriminate.
        -- rewrite (MathOperation_finish_plain _ _ _ F R). discriminate.
    + apply Comparison_optimize_not_OutOfFuel.
    + apply InSet_optimize_not_OutOfFuel.
    + change (Not_optimize (opt fuel) x <> OutOfFuel). unfold Not_optimize.
      cbn [compound_free size] in C, S.
      apply bind_not_OutOfFuel; [apply IH; [exact C | lia]|]. intros t' Ht'.
      destruct (optimize_settles fuel x t' C Ht') as [Ct' [St' _]].
      destruct t' as [c v| | | | | |l c r| |u| | |]; cbn [node_invert];
        try discriminate.
      * destruct c; try discriminate; apply Comparison_optimize_not_OutOfFuel.
      * cbn [compound_free size] in Ct', St'. apply IH; [exact Ct' | lia].
Qed.

Lemma list_eqb_refl {A : Type} (eqb : A -> A -> bool) (xs : list A) :
  Forall (fun x => eqb x x = true) xs -> list_eqb eqb xs xs = true.
Proof.
  induction 1 as [|x xs H _ IH]; [reflexivity|].
  cbn [list_eqb]. rewrite H, IH. reflexivity.
Qed.

Lemma path_key_eqb_refl k : path_key_eqb k k = true.
Proof. destruct k; cbn; [apply String.eqb_refl | apply Z.eqb_refl]. Qed.

(** [==] holds between a tree and itself. *)
Lemma node_eqb_refl : forall n, node_eqb n n = true.
Proof.
  fix IH 1. intros n.
  assert (L : forall xs : list node,
             (fix all (ys : list node) : Prop :=
                match ys with [] => True | y :: ys' => node_eqb y y = true /\ all ys' end) xs ->
             list_eqb node_eqb xs xs = true).
  { induction xs as [|x xs IHxs]; [reflexivity|]. intros [H1 H2].
    cbn [list_eqb]. rewrite H1, (IHxs H2). reflexivity. }
  destruct n as [c v|d|b p|f xs m|t q|l o r|l c r|e xs|t|ts|ts|t q]; cbn [node_eqb].
  - destruct c; cbn [literal_class_eqb andb]; apply py_eq_refl.
  - apply Z.eqb_refl.
  - rewrite String.eqb_refl. cbn [andb]. apply list_eqb_refl.
    induction p; constructor; [apply path_key_eqb_refl | assumption].
  - rewrite String.eqb_refl, Bool.eqb_reflx, Bool.andb_true_r. cbn [andb].
    apply L. induction xs as [|x xs IHxs]; [exact I|]. split; [apply IH | exact IHxs].
  - rewrite String.eqb_refl, IH. reflexivity.
  - rewrite !IH. destruct o; reflexivity.
  - rewrite !IH. destruct c; reflexivity.
  - rewrite IH. cbn [andb].
    apply L. induction xs as [|x xs IHxs]; [exact I|]. split; [apply IH | exact IHxs].
  - apply IH.
  - apply L. induction ts as [|x xs IHxs]; [exact I|]. split; [apply IH | exact IHxs].
  - apply L. induction ts as [|x xs IHxs]; [exact I|]. split; [apply IH | exact IHxs].
  - rewrite String.eqb_refl, IH. reflexivity.
Qed.

(** C2, as the code has it: on a tree in which [optimize] reaches no
    [And] and no [Or] node (none at the root, among the arguments of a
    function call, the operands of a math operation or under a [Not],
    however nested), [optimize] comes back (with a result or an
    exception) within a budget of the size of the tree, and a result
    [y] is optimized to itself, so that
    [x.optimize().optimize() == x.optimize()].  A result of the model
    holds values of the model only: where a float operation overflows
    to an infinity (from which alone a NaN, which is not equal to
    itself, can come), the outcome is [HostError], not [Ok], and
    nothing is said. *)
Theorem optimize_idempotent_without_compounds fuel x :
  compound_free x = true -> size x <= fuel ->
  optimize get_function fuel x <> OutOfFuel
  /\ (forall y,
        optimize get_function fuel x = Ok y ->
        optimize get_function fuel y = Ok y
        /\ (z <- optimize get_function fuel y ;; Ok (node_eqb z y)) = Ok true).
Proof.
  intros C S. split; [apply optimize_returns; assumption|].
  intros y H. destruct (optimize_settles fuel x y C H) as [_ [_ F]].
  split; [exact F|]. rewrite F. cbn [bind]. rewrite node_eqb_refl. reflexivity.
Qed.
End Idempotence.

Lemma optimize_idempotent_without_compounds_witness :
  let x := Not (InSet (Field "f" [])
                      [Number (VInt 1); Boolean (VBool true);
                       Or [Field "g" []; Field "h" []]]) in
  optimize no_functions 8 x <> OutOfFuel
  /\ (forall y,
        optimize no_functions 8 x = Ok y ->
        optimize no_functions 8 y = Ok y
        /\ (z <- optimize no_functions 8 y ;; Ok (node_eqb z y)) = Ok true).
Proof.
  intros x. apply (optimize_idempotent_without_compounds no_functions 8 x).
  - reflexivity.
  - vm_compute. lia.
Defined.

(** Where a fold overflows the model stops: [2.0**1023 * 2] is an
    infinity, and the difference of two of them a NaN, for which
    idempotence fails in Python. *)
Example overflow_is_outside_the_model :
  let inf := MathOperation (Number (VFloat (inject_Z (2 ^ 1023)))) Mul
                           (Number (VInt 2)) in
  optimize no_functions 3 (MathOperation inf Sub inf)
  = Raise (HostError "float infinity").
Proof. vm_compute. reflexivity. Qed.

(** C2 as stated fails on an [And]: [And([Boolean(true),
    Not(Boolean(true))]).optimize()] hands back its second term as it
    is, [Not(Boolean(true))], which [optimize] turns into
    [Boolean(false)]. *)
Lemma optimize_of_And_is_not_idempotent :
  optimize no_functions 3 (And [Boolean (VBool true); Not (Boolean (VBool true))])
  = Ok (Not (Boolean (VBool true)))
  /\ optimize no_functions 3 (Not (Boolean (VBool true)))
     = Ok (Boolean (VBool false))
  /\ node_eqb (Boolean (VBool false)) (Not (Boolean (VBool true))) = false.
Proof.
  repeat split.
Qed.

(* ================================================================== *)
(** * Equality of trees *)

(** Induction on a tree, with the hypothesis for every member of a
    list of children. *)
Lemma node_induction (P : node -> Prop) :
  (forall c v, P (Literal c v)) ->
  (forall d, P (TimeRange d)) ->
  (forall b p, P (Field b p)) ->
  (forall f xs m, Forall P xs -> P (FunctionCall f xs m)) ->
  (forall t q, P q -> P (NamedSubquery t q)) ->
  (forall l o r, P l -> P r -> P (MathOperation l o r)) ->
  (forall l c r, P l -> P r -> P (Comparison l c r)) ->
  (forall e xs, P e -> Forall P xs -> P (InSet e xs)) ->
  (forall t, P t -> P (Not t)) ->
  (forall ts, Forall P ts -> P (And ts)) ->
  (forall ts, Forall P ts -> P (Or ts)) ->
  (forall t q, P q -> P (EventQuery t q)) ->
  forall n, P n.
Proof.
  intros HL HT HF HC HS HM HCo HI HN HA HO HE.
  fix IH 1. intros n.
  pose (all := fix all (xs : list node) : Forall P xs :=
          match xs with
          | [] => Forall_nil P
          | x :: xs' => Forall_cons x (IH x) (all xs')
          end).
  destruct n as [c v|d|b p|f xs m|t q|l o r|l c r|e xs|t|ts|ts|t q].
  - apply HL.
  - apply HT.
  - apply HF.
  - apply HC, all.
  - apply HS, IH.
  - apply HM; apply IH.
  - apply HCo; apply IH.
  - apply HI; [apply IH | apply all].
  - apply HN, IH.
  - apply HA, all.
  - apply HO, all.
  - apply HE, IH.
Qed.

Lemma list_eqb_sym {A : Type} (eqb : A -> A -> bool) (xs : list A) :
  Forall (fun x => forall y, eqb x y = eqb y x) xs ->
  forall ys, list_eqb eqb xs ys = list_eqb eqb ys xs.
Proof.
  induction 1 as [|x xs H _ IH]; intros [|y ys]; cbn [list_eqb]; trivial.
  rewrite H, IH. reflexivity.
Qed.

Lemma list_eqb_trans {A : Type} (eqb : A -> A -> bool) (xs : list A) :
  Forall (fun x => forall y z, eqb x y = true -> eqb y z = true -> eqb x z = true) xs ->
  forall ys zs, list_eqb eqb xs ys = true -> list_eqb eqb ys zs = true ->
                list_eqb eqb xs zs = true.
Proof.
  induction 1 as [|x xs H _ IH]; intros [|y ys] [|z zs]; cbn [list_eqb];
    trivial; try discriminate.
  intros H1 H2. apply andb_true_iff in H1, H2. destruct H1, H2.
  apply andb_true_iff. split; [eapply H | eapply IH]; eassumption.
Qed.

Lemma literal_class_eqb_eq a b : literal_class_eqb a b = true <-> a = b.
Proof. destruct a, b; cbn; split; congruence. Qed.

Lemma comparator_eqb_eq a b : comparator_eqb a b = true <-> a = b.
Proof. destruct a, b; cbn; split; congruence. Qed.

Lemma math_operator_eqb_eq a b : math_operator_eqb a b = true <-> a = b.
Proof. destruct a, b; cbn; split; congruence. Qed.

Lemma path_key_eqb_eq a b : path_key_eqb a b = true <-> a = b.
Proof.
  destruct a, b; cbn; split; try congruence.
  - intros H. apply String.eqb_eq in H. congruence.
  - intros H. inversion H. apply String.eqb_refl.
  - intros H. apply Z.eqb_eq in H. congruence.
  - intros H. inversion H. apply Z.eqb_refl.
Qed.

Lemma path_eqb_eq p q : list_eqb path_key_eqb p q = true <-> p = q.
Proof.
  revert q. induction p as [|k p IH]; intros [|k' q]; cbn [list_eqb];
    split; try congruence; try discriminate.
  - intros H. apply andb_true_iff in H. destruct H as [H1 H2].
    apply path_key_eqb_eq in H1. apply IH in H2. congruence.
  - intros H. inversion H; subst. apply andb_true_iff. split.
    + apply path_key_eqb_eq; reflexivity.
    + apply IH; reflexivity.
Qed.

Lemma node_eqb_sym : forall a b, node_eqb a b = node_eqb b a.
Proof.
  assert (LC : forall a b, literal_class_eqb a b = literal_class_eqb b a)
    by (intros [] []; reflexivity).
  assert (CC : forall a b, comparator_eqb a b = comparator_eqb b a)
    by (intros [] []; reflexivity).
  assert (MC : forall a b, math_operator_eqb a b = math_operator_eqb b a)
    by (intros [] []; reflexivity).
  assert (BC : forall a b, Bool.eqb a b = Bool.eqb b a)
    by (intros [] []; reflexivity).
  assert (PC : forall p q, list_eqb path_key_eqb p q = list_eqb path_key_eqb q p).
  { intros p. apply list_eqb_sym. apply Forall_forall. intros [s|i] _ [t|j]; cbn;
      trivial; [apply String.eqb_sym | apply Z.eqb_sym]. }
  induction a as [c v|d|b p|f xs m IH|t q IH|l o r IHl IHr|l c r IHl IHr
                  |e xs IHe IH|t IH|ts IH|ts IH|t q IH] using node_induction;
    intros n'; destruct n'; cbn [node_eqb]; trivial.
  all: repeat apply (f_equal2 andb).
  all: first [ apply LC | apply CC | apply MC | apply BC | apply PC
             | apply py_eq_sym | apply String.eqb_sym | apply Z.eqb_sym
             | apply IHl | apply IHr | apply IHe | apply IH
             | apply (list_eqb_sym node_eqb _ IH) ].
Qed.

Ltac split_andb :=
  repeat match goal with
         | H : _ && _ = true |- _ => apply andb_true_iff in H; destruct H
         | |- _ && _ = true => apply andb_true_iff; split
         end.

Lemma node_eqb_trans :
  forall a b c, node_eqb a b = true -> node_eqb b c = true -> node_eqb a c = true.
Proof.
  induction a as [c v|d|b p|f xs m IH|t q IH|l o r IHl IHr|l c r IHl IHr
                  |e xs IHe IH|t IH|ts IH|ts IH|t q IH] using node_induction;
    intros n' n'' Hab Hbc;
    destruct n'; try discriminate Hab; destruct n''; try discriminate Hbc;
    cbn [node_eqb] in *; split_andb.
  all: repeat match goal with
       | H : literal_class_eqb _ _ = true |- _ => apply literal_class_eqb_eq in H
       | H : comparator_eqb _ _ = true |- _ => apply comparator_eqb_eq in H
       | H : math_operator_eqb _ _ = true |- _ => apply math_operator_eqb_eq in H
       | H : String.eqb _ _ = true |- _ => apply String.eqb_eq in H
       | H : Z.eqb _ _ = true |- _ => apply Z.eqb_eq in H
       | H : Bool.eqb _ _ = true |- _ => apply Bool.eqb_prop in H
       | H : list_eqb path_key_eqb _ _ = true |- _ => apply path_eqb_eq in H
       end; subst.
  all: try (apply literal_class_eqb_eq; reflexivity).
  all: try (apply comparator_eqb_eq; reflexivity).
  all: try (apply math_operator_eqb_eq; reflexivity).
  all: try apply String.eqb_refl.
  all: try apply Z.eqb_refl.
  all: try apply Bool.eqb_reflx.
  all: try (apply path_eqb_eq; reflexivity).
  all: try (eapply py_eq_trans; eassumption).
  all: try (eapply (list_eqb_trans node_eqb _ IH); eassumption).
  all: try (eapply IH; eassumption).
  all: try (eapply IHl; eassumption).
  all: try (eapply IHr; eassumption).
  all: try (eapply IHe; eassumption).
Qed.

(** X3.  [BaseNode.__eq__] is an equivalence on trees: every tree
    equals itself, [a == b] is [b == a], and equality is transitive
    (the values it compares are those of the model, without NaN);
    [__ne__] is its negation, so that no tree differs from itself. *)
Theorem node_eq_is_an_equivalence :
  (forall a, node_eqb a a = true)
  /\ (forall a b, node_eqb a b = node_eqb b a)
  /\ (forall a b c, node_eqb a b = true -> node_eqb b c = true ->
                    node_eqb a c = true)
  /\ (forall a, BaseNode__ne__ a a = false)
  /\ (forall a b, BaseNode__ne__ a b = BaseNode__ne__ b a).
Proof.
  split; [exact node_eqb_refl|]. split; [exact node_eqb_sym|].
  split; [exact node_eqb_trans|]. unfold BaseNode__ne__. split.
  - intros a. rewrite node_eqb_refl. reflexivity.
  - intros a b. rewrite node_eqb_sym. reflexivity.
Qed.

(* ================================================================== *)
(** * [String.escape] and [String.unescape] *)

Lemma unescape_escaped c s : unescape (escaped c ++ s) = String c (unescape s).
Proof.
  destruct c as [[] [] [] [] [] [] [] []]; reflexivity.
Qed.

(** X1.  [String.unescape] undoes [String.escape]: for every string
    [s], [unescape(escape(s))] is [s]. *)
Theorem unescape_escape s : unescape (escape s) = s.
Proof.
  induction s as [|c s IH]; [reflexivity|].
  cbn [escape]. rewrite unescape_escaped, IH. reflexivity.
Qed.

Lemma escaped_has_no_control c :
  forallb (fun x => negb (existsb (Ascii.eqb x) control_characters))
          (list_ascii_of_string (escaped c)) = true.
Proof.
  destruct c as [[] [] [] [] [] [] [] []]; reflexivity.
Qed.

Lemma list_ascii_of_append s t :
  list_ascii_of_string (s ++ t)
  = list_ascii_of_string s ++ list_ascii_of_string t.
Proof.
  induction s as [|c s IH]; [reflexivity|].
  cbn [append list_ascii_of_string app]. rewrite IH. reflexivity.
Qed.

Lemma escape_has_no_control s :
  forallb (fun x => negb (existsb (Ascii.eqb x) control_characters))
          (list_ascii_of_string (escape s)) = true.
Proof.
  induction s as [|c s IH]; [reflexivity|].
  cbn [escape]. rewrite list_ascii_of_append, forallb_app, escaped_has_no_control, IH.
  reflexivity.
Qed.

(** X2.  The rendering of a [String] literal is its escaped value
    between double quotes, from which [unescape] gives the value back,
    and is a single line: no backspace, tab, line feed, form feed or
    carriage return is in it.  A value that is no string raises
    [TypeError]. *)
Theorem String_render_is_one_line :
  (forall s, exists text,
        String_render (VStr s)
        = Ok (String double_quote (text ++ String double_quote ""))
        /\ unescape text = s
        /\ Forall (fun c => ~ In c control_characters)
                  (list_ascii_of_string
                     (String double_quote (text ++ String double_quote ""))))
  /\ (forall v, is_string v = false -> String_render v = Raise TypeError).
Proof.
  split.
  - intros s. exists (escape s). split; [reflexivity|].
    split; [apply unescape_escape|].
    assert (F : forallb (fun x => negb (existsb (Ascii.eqb x) control_characters))
                        (list_ascii_of_string
                           (String double_quote (escape s ++ String double_quote "")))
                = true).
    { cbn [list_ascii_of_string forallb].
      rewrite list_ascii_of_append, forallb_app, escape_has_no_control. reflexivity. }
    apply Forall_forall. intros c Hc Hin.
    rewrite forallb_forall in F. specialize (F c Hc).
    apply negb_true_iff in F.
    assert (T : existsb (Ascii.eqb c) control_characters = true).
    { apply existsb_exists. exists c. split; [exact Hin | apply Ascii.eqb_refl]. }
    rewrite T in F. discriminate F.
  - intros v H. destruct v; try reflexivity. discriminate H.
Qed.

(* ================================================================== *)
(** * [Field.query_multiple_events] *)

Lemma append_assoc (a b c : string) : ((a ++ b) ++ c = a ++ (b ++ c))%string.
Proof.
  induction a as [|x a IH]; [reflexivity|]. cbn [append]. rewrite IH. reflexivity.
Qed.

Lemma Field_render_from (path : list path_key) :
  forall prefix base,
    Field_render (prefix ++ base)%string path
    = (prefix ++ Field_render base path)%string.
Proof.
  unfold Field_render.
  induction path as [|key path IH]; intros prefix base; [reflexivity|].
  cbn [fold_left]. destruct (key_is_number key).
  - rewrite <- IH. f_equal. rewrite !append_assoc. reflexivity.
  - rewrite <- IH. f_equal. rewrite !append_assoc. reflexivity.
Qed.

(** X15.  [Field.query_multiple_events] hands back index 0 and the
    field itself, or splits the path of an [events] field behind its
    two first keys: the full path and the rendering of the field are
    then [events], the index, and those of the field returned. *)
Theorem query_multiple_events_splits base path :
  let (index, field) := query_multiple_events base path in
  (index = 0%Z /\ field = Field base path)
  \/ (exists name rest,
         field = Field name rest
         /\ full_path base path
            = KeyStr EVENTS :: KeyInt index :: full_path name rest
         /\ Field_render base path
            = ("events[" ++ str_of_Z index ++ "]." ++ Field_render name rest)%string).
Proof.
  unfold query_multiple_events.
  destruct path as [|[s|i] [|[s'|i'] rest]]; try (left; split; reflexivity);
    destruct (String.eqb base EVENTS) eqn:E; cbn [andb List.length Nat.leb key_is_number key_is_string];
    try (left; split; reflexivity).
  apply String.eqb_eq in E. subst base.
  right. exists s', rest. split; [reflexivity|]. split; [reflexivity|].
  unfold Field_render at 1. cbn [fold_left key_is_number].
  change (fold_left _ rest ?b) with (Field_render b rest).
  replace ((EVENTS ++ "[" ++ str_of_Z i ++ "]") ++ "." ++ s')%string
    with (("events[" ++ str_of_Z i ++ "].") ++ s')%string.
  - rewrite Field_render_from, !append_assoc. reflexivity.
  - unfold EVENTS. rewrite !append_assoc. reflexivity.
Qed.

(* ================================================================== *)
(** * Negation *)

Lemma bind_stable {A B : Type} (r r' : result A) (k k' : A -> result B) :
  bind r k <> OutOfFuel ->
  (r <> OutOfFuel -> r' = r) ->
  (forall a, r = Ok a -> k a <> OutOfFuel -> k' a = k a) ->
  bind r' k' = bind r k.
Proof.
  intros H Hr Hk. destruct r as [a|e|]; cbn [bind] in *.
  - rewrite Hr by discriminate. cbn [bind]. apply Hk; trivial.
  - rewrite Hr by discriminate. reflexivity.
  - contradiction.
Qed.

Lemma mapM_stable {A B : Type} (f g : A -> result B) (xs : list A) :
  (forall x, In x xs -> f x <> OutOfFuel -> g x = f x) ->
  mapM f xs <> OutOfFuel -> mapM g xs = mapM f xs.
Proof.
  induction xs as [|x xs IH]; intros Hfg H; [reflexivity|].
  cbn [mapM] in *.
  apply bind_stable; [exact H | intros; apply Hfg; [left; reflexivity | assumption] |].
  intros y Hy Hk.
  apply bind_stable; [exact Hk | | reflexivity].
  intros Hm. apply IH; [|exact Hm]. intros; apply Hfg; [right|]; assumption.
Qed.

Lemma node_invert_stable (o o' : node -> result node) t :
  (forall x, o x <> OutOfFuel -> o' x = o x) ->
  node_invert o t <> OutOfFuel -> node_invert o' t = node_invert o t.
Proof.
  intros Hoo H. destruct t; cbn [node_invert] in *; trivial.
  apply Hoo; exact H.
Qed.

Section Negation.
Variable get_function : registry.

Local Abbreviation opt := (optimize get_function).

(** More budget changes no outcome, a raised exception included. *)
Lemma optimize_stable fuel :
  forall x, opt fuel x <> OutOfFuel -> opt (S fuel) x = opt fuel x.
Proof.
  induction fuel as [|fuel IH]; intros x H; [contradiction H; reflexivity|].
  destruct x; trivial.
  - change (FunctionCall_optimize get_function (opt fuel) name arguments as_method
            <> OutOfFuel) in H.
    change (FunctionCall_optimize get_function (opt (S fuel)) name arguments as_method
            = FunctionCall_optimize get_function (opt fuel) name arguments as_method).
    rewrite !(FunctionCall_optimize_stages _ (opt _)) in *.
    apply bind_stable; [exact H | | reflexivity].
    apply mapM_stable. intros; apply IH; assumption.
  - change (MathOperation_optimize (opt fuel) x1 operator x2 <> OutOfFuel) in H.
    change (MathOperation_optimize (opt (S fuel)) x1 operator x2
            = MathOperation_optimize (opt fuel) x1 operator x2).
    rewrite !(MathOperation_optimize_stages (opt _)) in *.
    apply bind_stable; [exact H | apply IH |]. intros left _ Hl.
    apply bind_stable; [exact Hl | apply IH | reflexivity].
  - change (Not_optimize (opt fuel) x <> OutOfFuel) in H.
    change (Not_optimize (opt (S fuel)) x = Not_optimize (opt fuel) x).
    unfold Not_optimize in *.
    apply bind_stable; [exact H | apply IH |]. intros t' _ Ht'.
    apply node_invert_stable; [exact IH | exact Ht'].
Qed.

(** Negating a comparison with [==] or [!=] and negating the result
    again gives what [optimize] makes of the comparison. *)
Lemma Comparison_invert_optimize (o : node -> result node) l r :
  (y <- Comparison_optimize l NE r ;; node_invert o y) = Comparison_optimize l EQ r
  /\ (y <- Comparison_optimize l EQ r ;; node_invert o y) = Comparison_optimize l NE r.
Proof.
  assert (N : forall l' r',
             isinstance_Literal l' && isinstance_Literal r' = false ->
             (y <- (if node_eqb l' r'
                    then Ok (Boolean (VBool false))
                    else Ok (Comparison l' NE r')) ;; node_invert o y)
             = (if node_eqb l' r'
                then Ok (Boolean (VBool true))
                else Ok (Comparison l' EQ r'))
             /\ (y <- (if node_eqb l' r'
                       then Ok (Boolean (VBool true))
                       else Ok (Comparison l' EQ r')) ;; node_invert o y)
                = (if node_eqb l' r'
                   then Ok (Boolean (VBool false))
                   else Ok (Comparison l' NE r'))).
  { intros l' r' NL. destruct (node_eqb l' r') eqn:E; cbn [bind node_invert];
      [split; reflexivity|].
    unfold Comparison_optimize. rewrite E.
    destruct l'; try (split; reflexivity).
    destruct r'; try (split; reflexivity). discriminate NL. }
  destruct l as [cl lv| | | | | | | | | | |]; try (apply N; reflexivity).
  destruct r as [cr rv| | | | | | | | | | |];
    try (apply N; reflexivity).
  unfold Comparison_optimize.
  destruct (negb (literal_class_eqb cr cl)); [split; reflexivity|].
  destruct (match cl with
            | CString => l <- py_lower lv ;; r <- py_lower rv ;; Ok (l, r)
            | _ => Ok (lv, rv)
            end) as [[a b]|e|]; cbn [bind fst snd func_lookup node_invert];
    try (split; reflexivity).
  unfold Boolean. cbn [node_invert]. unfold py_not, py_truthy.
  rewrite ?Bool.negb_involutive. split; reflexivity.
Qed.

(** X4.  Negating twice optimizes: for every expression [x] that is
    not a literal, [~(~x)] has the outcome of [x.optimize()], result
    or exception (under any budget that is enough for
    [x.optimize()]). *)
Theorem double_negation_optimizes fuel x :
  isinstance_Literal x = false -> type_of x <> TyEventQuery ->
  optimize get_function fuel x <> OutOfFuel ->
  (y <- node_invert (optimize get_function fuel) x ;;
   node_invert (optimize get_function fuel) y)
  = optimize get_function fuel x.
Proof.
  intros NL NE H.
  destruct fuel as [|fuel]; [contradiction H; reflexivity|].
  destruct x as [c v|d|b p|f xs m|t q|l o r|l c r|e xs|t|ts|ts|t q];
    try discriminate NL; try (contradiction NE; reflexivity);
    try reflexivity.
  - destruct c; try reflexivity; cbn [node_invert];
      apply (Comparison_invert_optimize (opt (S fuel)) l r).
  - change (opt (S fuel) (Not t)) with (Not_optimize (opt fuel) t) in *.
    cbn [node_invert]. unfold Not_optimize in *.
    apply bind_stable; [exact H | apply optimize_stable |].
    intros t' _ Ht'. apply node_invert_stable; [apply optimize_stable | exact Ht'].
Qed.
End Negation.

Lemma double_negation_optimizes_witness :
  let x := Not (Comparison (Number (VInt 1)) LT (Number (VInt 2))) in
  optimize no_functions 3 x = Ok (Boolean (VBool false))
  /\ (y <- node_invert (optimize no_functions 3) x ;;
      node_invert (optimize no_functions 3) y)
     = optimize no_functions 3 x.
Proof.
  intros x. split; [reflexivity|].
  apply (double_negation_optimizes no_functions 3 x);
    [reflexivity | discriminate | discriminate].
Defined.

(** X5.  De Morgan's laws hold between literals as equations of
    nodes: [~(a & b)] is [~a | ~b] and [~(a | b)] is [~a & ~b], each
    the [Boolean] of the negated conjunction or disjunction of the
    truth values. *)
Theorem literals_obey_De_Morgan (opt : node -> result node) ca a cb b :
  let x := Literal ca a in
  let y := Literal cb b in
  (c <- node_and x y ;; node_invert opt c)
  = (x' <- node_invert opt x ;; y' <- node_invert opt y ;; node_or x' y')
  /\ (c <- node_or x y ;; node_invert opt c)
     = (x' <- node_invert opt x ;; y' <- node_invert opt y ;; node_and x' y')
  /\ (c <- node_and x y ;; node_invert opt c)
     = Ok (Boolean (VBool (negb (py_truthy a && py_truthy b))))
  /\ (c <- node_or x y ;; node_invert opt c)
     = Ok (Boolean (VBool (negb (py_truthy a || py_truthy b)))).
Proof.
  cbn. unfold py_and, py_or, py_not.
  destruct (py_truthy a) eqn:A, (py_truthy b) eqn:B; cbn; rewrite ?A, ?B;
    repeat split.
Qed.

(* ================================================================== *)
(** * [&] with a [Boolean] *)

(** X6.  [&] with a [Boolean]: [true] is neutral and [false]
    absorbing on either side of an expression that is neither a
    literal nor an [And]; an [And] on the left takes the literal as
    one more term. *)
Theorem and_with_a_Boolean b :
  (forall x, isinstance_Literal x = false -> type_of x <> TyEventQuery ->
             type_of x <> TyAnd ->
             node_and x (Boolean (VBool b))
             = Ok (if b then x else Boolean (VBool false)))
  /\ (forall x, isinstance_Literal x = false ->
                node_and (Boolean (VBool b)) x
                = Ok (if b then x else Boolean (VBool false)))
  /\ (forall terms, node_and (And terms) (Boolean (VBool b))
                    = Ok (And (terms ++ [Boolean (VBool b)]))).
Proof.
  split; [|split].
  - intros x NL NQ NA.
    destruct x; try discriminate NL; try (contradiction NQ; reflexivity);
      try (contradiction NA; reflexivity);
      try (destruct b; reflexivity).
    unfold node_and. cbn [and_dispatch]. unfold Comparison__and__.
    destruct cmp; destruct b; reflexivity.
  - intros x NL. destruct x; try discriminate NL; destruct b; reflexivity.
  - reflexivity.
Qed.

(* ================================================================== *)
(** * What [Comparison.optimize] and [InSet.optimize] return *)

Lemma func_lookup_bool c a b v :
  func_lookup c a b = Ok v -> exists t, v = VBool t.
Proof.
  unfold func_lookup. intros H.
  destruct c; try (inversion H; eexists; reflexivity);
    destruct (as_Q a), (as_Q b); try (inversion H; eexists; reflexivity);
    destruct a; try discriminate H; destruct b; try discriminate H;
    inversion H; eexists; reflexivity.
Qed.

Lemma Comparison_optimize_shape l c r y :
  Comparison_optimize l c r = Ok y ->
  (exists b, y = Boolean (VBool b)) \/ y = Comparison l c r.
Proof.
  unfold Comparison_optimize. intros H.
  assert (D : forall b : bool,
             (if b
              then Ok (Boolean (VBool match c with EQ | LE | GE => true | _ => false end))
              else Ok (Comparison l c r)) = Ok y ->
             (exists t, y = Boolean (VBool t)) \/ y = Comparison l c r).
  { intros [] E; inversion E; [left; eexists; reflexivity | right; reflexivity]. }
  destruct l; try (apply D in H; exact H).
  destruct r; try (apply D in H; exact H).
  destruct (negb (literal_class_eqb cls0 cls)).
  - inversion H. left; eexists; reflexivity.
  - apply bind_Ok in H. destruct H as [lr [_ H]].
    apply bind_Ok in H. destruct H as [b [Hb H]].
    destruct (func_lookup_bool _ _ _ _ Hb) as [t Ht]. subst b.
    inversion H. left; eexists; reflexivity.
Qed.

Lemma Comparison_optimize_unlike_classes cl lv cr rv c :
  cl <> cr ->
  Comparison_optimize (Literal cl lv) c (Literal cr rv)
  = Ok (Boolean (VBool (comparator_eqb c NE))).
Proof.
  intros N. unfold Comparison_optimize.
  destruct cl, cr; try reflexivity; contradiction N; reflexivity.
Qed.

Lemma Comparison_optimize_dynamic l c r :
  isinstance_Literal l && isinstance_Literal r = false ->
  Comparison_optimize l c r
  = Ok (if node_eqb l r
        then Boolean (VBool (match c with EQ | LE | GE => true | _ => false end))
        else Comparison l c r).
Proof.
  intros N. unfold Comparison_optimize.
  destruct l; try (destruct (node_eqb _ _); reflexivity).
  destruct r; try (destruct (node_eqb _ _); reflexivity).
  discriminate N.
Qed.

(** X7.  [Comparison.optimize] returns the comparison itself or a
    [Boolean] that holds a [bool].  Between literals of two different
    classes it decides by the classes alone and never raises: only
    [!=] holds.  When the operands are not both literals it never
    raises either, and folds exactly when they are equal trees. *)
Theorem Comparison_optimize_outcomes l c r :
  (forall y, Comparison_optimize l c r = Ok y ->
             (exists b, y = Boolean (VBool b)) \/ y = Comparison l c r)
  /\ (forall cl lv cr rv,
         cl <> cr ->
         Comparison_optimize (Literal cl lv) c (Literal cr rv)
         = Ok (Boolean (VBool (comparator_eqb c NE))))
  /\ (isinstance_Literal l && isinstance_Literal r = false ->
      Comparison_optimize l c r
      = Ok (if node_eqb l r
            then Boolean (VBool (match c with EQ | LE | GE => true | _ => false end))
            else Comparison l c r)).
Proof.
  split; [apply Comparison_optimize_shape|].
  split; [intros; apply Comparison_optimize_unlike_classes; assumption|].
  apply Comparison_optimize_dynamic.
Qed.

Lemma od_set_values_In {V : Type} k (x : V) d v :
  In v (od_values (od_set k x d)) -> v = x \/ In v (od_values d).
Proof.
  unfold od_values. induction d as [|[k0 v0] d IH]; cbn [od_set map snd In].
  - intros [E|[]]. left; congruence.
  - destruct (py_eq k0 k); cbn [map snd In].
    + intros [E|H]; [left; congruence | right; right; exact H].
    + intros [E|H]; [right; left; exact E|].
      destruct (IH H) as [E|H']; [left; exact E | right; right; exact H'].
Qed.

Lemma od_setdefault_values_In {V : Type} k (x : V) d v :
  In v (od_values (od_setdefault k x d)) -> v = x \/ In v (od_values d).
Proof.
  unfold od_setdefault, od_values. destruct (od_mem k d); [right; assumption|].
  rewrite map_app, in_app_iff. cbn. intros [H|[E|[]]]; [right | left]; congruence.
Qed.

(** The dictionary of a container holds members of the container. *)
Lemma get_literals_from_members container :
  forall d d' v,
    get_literals_from container d = Ok d' -> In v (od_values d') ->
    In v (od_values d) \/ In v container.
Proof.
  induction container as [|x xs IH]; intros d d' v H Hin.
  - inversion H; subst. left; exact Hin.
  - assert (F : forall c k d0,
               get_literals_from xs d0 = Ok d' ->
               (forall w, In w (od_values d0) -> w = Literal c k \/ In w (od_values d)) ->
               x = Literal c k ->
               In v (od_values d) \/ In v (x :: xs)).
    { intros c k d0 H0 Hd0 E. destruct (IH _ _ _ H0 Hin) as [H1|H1].
      - destruct (Hd0 _ H1) as [E'|H2]; [right; left; congruence | left; exact H2].
      - right; right; exact H1. }
    destruct x as [c k| | | | | | | | | | |]; cbn [get_literals_from] in H;
      try (destruct (IH _ _ _ H Hin) as [H1|H1]; [left | right; right]; exact H1).
    destruct c.
    1-3: eapply F; [exact H | intros w; apply od_set_values_In | reflexivity].
    apply bind_Ok in H. destruct H as [kl [_ H]].
    eapply F; [exact H | intros w; apply od_setdefault_values_In | reflexivity].
Qed.

Lemma dict_ok_keys d :
  dict_ok d ->
  forall k v, In (k, v) d -> exists k', key_of v = Some k' /\ py_eq k k' = true.
Proof.
  induction d as [|[k0 v0] d IH]; [intros _ ? ? []|].
  intros [Hk [_ Hd]] k v [E|H]; [inversion E; subst; exact Hk | apply IH; assumption].
Qed.

Lemma od_mem_false_In {V : Type} k (d : odict V) kv :
  od_mem k d = false -> In kv d -> py_eq (fst kv) k = false.
Proof.
  unfold od_mem. induction d as [|kv0 d IH]; [intros _ []|].
  cbn [existsb]. intros H [E|Hin]; apply orb_false_iff in H; destruct H as [H1 H2].
  - subst; exact H1.
  - apply IH; assumption.
Qed.

Lemma dict_ok_distinct d : dict_ok d -> distinct_keys (od_values d).
Proof.
  induction d as [|[k v] d IH]; [trivial|].
  intros [[kv [Hkv Ekv]] [Hm Hd]]. cbn [od_values map snd distinct_keys].
  split; [|apply IH; exact Hd].
  intros w k1 k2 Hw K1 K2. rewrite Hkv in K1. inversion K1; subst k1.
  apply in_map_iff in Hw. destruct Hw as [[k0 w0] [E Hin]]. cbn [snd] in E. subst w0.
  destruct (dict_ok_keys d Hd k0 w Hin) as [k0' [K0 E0]].
  rewrite K2 in K0. inversion K0; subst k0'.
  pose proof (od_mem_false_In k d (k0, w) Hm Hin) as F. cbn [fst] in F.
  destruct (py_eq kv k2) eqn:E; [|reflexivity].
  rewrite (py_eq_trans k0 k2 k) in F; [discriminate F | exact E0 |].
  rewrite py_eq_sym. exact (py_eq_trans _ _ _ Ekv E).
Qed.

Lemma InSet_finish_result expression cont y :
  InSet_finish expression cont = Ok y ->
  (exists b, y = Boolean (VBool b))
  \/ (exists item, cont = [item] /\ y = Comparison expression EQ item)
  \/ (y = InSet expression cont /\ 2 <= List.length cont
      /\ existsb (node_eqb expression) cont = false).
Proof.
  destruct cont as [|item [|item' cs]]; cbn [InSet_finish]; intros H.
  - inversion H. left; eexists; reflexivity.
  - destruct (Comparison_optimize_shape _ _ _ _ H) as [B|E]; [left; exact B|].
    right; left. exists item. split; [reflexivity | exact E].
  - destruct (existsb _ _) eqn:E; inversion H.
    + left; eexists; reflexivity.
    + right; right. split; [reflexivity|]. split; [cbn; lia | reflexivity].
Qed.

(** X8.  What [InSet.optimize] returns: a [Boolean] that holds a
    [bool]; or the comparison of the expression with one member of
    the container; or a set over the same expression of at least two
    members, none of them equal to the expression: literals of the
    container first, no two of them under equal keys, then the
    members that are not literals, as they stood in the container. *)
Theorem InSet_optimize_result expression container y :
  InSet_optimize expression container = Ok y ->
  (exists b, y = Boolean (VBool b))
  \/ (exists item, In item container /\ y = Comparison expression EQ item)
  \/ (exists literals,
         y = InSet expression (literals ++ dynamic container)
         /\ 2 <= List.length (literals ++ dynamic container)
         /\ is_literal literals = true
         /\ (forall v, In v literals -> In v container)
         /\ distinct_keys literals
         /\ existsb (node_eqb expression) (literals ++ dynamic container) = false).
Proof.
  intros H.
  assert (Dyn : forall v, In v (dynamic container) -> In v container).
  { intros v Hv. apply filter_In in Hv. tauto. }
  destruct (isinstance_Literal expression) eqn:L.
  - destruct expression as [c v| | | | | | | | | | |]; try discriminate L.
    rewrite InSet_optimize_literal in H.
    apply bind_Ok in H. destruct H as [d [Hd H]].
    apply bind_Ok in H. destruct H as [v' [_ H]].
    destruct (od_mem v' d); [inversion H; left; eexists; reflexivity|].
    destruct (InSet_finish_result _ _ _ H) as [B|[[item [E1 E2]]|[E1 [E2 E3]]]].
    + left; exact B.
    + right; left. exists item. split; [|exact E2].
      apply Dyn. rewrite E1. left; reflexivity.
    + right; right. exists []. cbn [app]. repeat split; trivial. intros ? [].
  - rewrite InSet_optimize_dynamic in H by exact L.
    apply bind_Ok in H. destruct H as [d [Hd H]].
    assert (Ok_d : dict_ok d) by exact (get_literals_from_ok container [] d Logic.I Hd).
    assert (Mem : forall v, In v (od_values d) -> In v container).
    { intros v Hv. destruct (get_literals_from_members _ _ _ _ Hd Hv) as [[]|Hc].
      exact Hc. }
    destruct (InSet_finish_result _ _ _ H) as [B|[[item [E1 E2]]|[E1 [E2 E3]]]].
    + left; exact B.
    + right; left. exists item. split; [|exact E2].
      assert (I : In item (od_values d ++ dynamic container))
        by (rewrite E1; left; reflexivity).
      apply in_app_iff in I. destruct I; [apply Mem | apply Dyn]; assumption.
    + right; right. exists (od_values d). repeat split; trivial.
      * apply dict_ok_values_literal; exact Ok_d.
      * apply dict_ok_distinct; exact Ok_d.
Qed.

Lemma InSet_optimize_result_witness :
  let e := Field "f" [] in
  let c := [Field "g" []; String_ (VStr "A"); Number (VInt 1); String_ (VStr "a")] in
  let y := InSet e [String_ (VStr "A"); Number (VInt 1); Field "g" []] in
  InSet_optimize e c = Ok y
  /\ ((exists b, y = Boolean (VBool b))
      \/ (exists item, In item c /\ y = Comparison e EQ item)
      \/ (exists literals,
             y = InSet e (literals ++ dynamic c)
             /\ 2 <= List.length (literals ++ dynamic c)
             /\ is_literal literals = true
             /\ (forall v, In v literals -> In v c)
             /\ distinct_keys literals
             /\ existsb (node_eqb e) (literals ++ dynamic c) = false)).
Proof.
  intros e c y. split; [reflexivity|].
  apply (InSet_optimize_result e c y). reflexivity.
Defined.

(* ================================================================== *)
(** * A set of literals and itself *)

Lemma od_mem_same {V : Type} (d d' : odict V) (R : V -> V -> Prop) k :
  Forall2 (fun kv kv' => py_eq (fst kv) (fst kv') = true /\ R (snd kv) (snd kv')) d d' ->
  od_mem k d' = od_mem k d.
Proof.
  induction 1 as [|kv kv' d d' [E _] _ IH]; [reflexivity|].
  unfold od_mem in *. cbn [existsb]. rewrite IH. f_equal.
  destruct (py_eq (fst kv) k) eqn:E1, (py_eq (fst kv') k) eqn:E2; trivial.
  - rewrite py_eq_sym in E. rewrite (py_eq_trans _ _ _ E E1) in E2. discriminate.
  - rewrite (py_eq_trans _ _ _ E E2) in E1. discriminate.
Qed.

Lemma od_mem_head {V : Type} k (v : V) d : od_mem k ((k, v) :: d) = true.
Proof. unfold od_mem. cbn [existsb fst]. rewrite py_eq_refl. reflexivity. Qed.

Lemma od_mem_own_keys {V : Type} (d : odict V) kv :
  In kv d -> od_mem (fst kv) d = true.
Proof.
  induction d as [|kv0 d IH]; [intros []|]. intros [E|H].
  - subst. destruct kv. apply od_mem_head.
  - unfold od_mem in *. cbn [existsb]. rewrite (IH H). apply orb_true_r.
Qed.

Lemma filter_all {A : Type} (f : A -> bool) xs :
  (forall x, In x xs -> f x = true) -> filter f xs = xs.
Proof.
  induction xs as [|x xs IH]; [reflexivity|]. intros H. cbn [filter].
  rewrite (H x (or_introl eq_refl)). f_equal. apply IH. intros; apply H; right; assumption.
Qed.

Lemma filter_none {A : Type} (f : A -> bool) xs :
  (forall x, In x xs -> f x = false) -> filter f xs = [].
Proof.
  induction xs as [|x xs IH]; [reflexivity|]. intros H. cbn [filter].
  rewrite (H x (or_introl eq_refl)). apply IH. intros; apply H; right; assumption.
Qed.

Lemma setdefault_own_keys {V : Type} (d' d : odict V) :
  (forall kv, In kv d' -> od_mem (fst kv) d = true) ->
  fold_left (fun d0 kv => od_setdefault (fst kv) (snd kv) d0) d' d = d.
Proof.
  induction d' as [|kv d' IH]; [reflexivity|]. intros H. cbn [fold_left].
  unfold od_setdefault at 2. rewrite (H kv (or_introl eq_refl)).
  apply IH. intros; apply H; right; assumption.
Qed.

(** The values of the dictionary of a container file under the same
    keys again. *)
Lemma get_literals_of_values container d :
  _get_literals container = Ok d ->
  exists d', _get_literals (od_values d) = Ok d' /\ Forall2 same_entry d d'.
Proof.
  intros H.
  assert (Hd : dict_ok d) by exact (get_literals_from_ok container [] d Logic.I H).
  destruct (get_literals_from_values d [] [] []) as [d' [HF E]];
    [constructor | exact Hd |].
  exists d'. split; [|exact HF].
  unfold _get_literals. rewrite app_nil_r in E. rewrite E. reflexivity.
Qed.

(** On a container of literals, [InSet.optimize] sees the same
    candidates in the values of the dictionary as in the container. *)
Lemma InSet_optimize_values expression container d :
  is_literal container = true -> _get_literals container = Ok d ->
  InSet_optimize expression (od_values d) = InSet_optimize expression container.
Proof.
  intros L H.
  assert (Hd : dict_ok d) by exact (get_literals_from_ok container [] d Logic.I H).
  destruct (get_literals_of_values _ _ H) as [d' [H' HF]].
  pose proof (same_entry_values _ _ HF) as V.
  assert (D : filter (fun v => negb (isinstance_Literal v)) container = [])
    by exact (dynamic_literals _ L).
  assert (D' : filter (fun v => negb (isinstance_Literal v)) (od_values d) = [])
    by exact (dynamic_literals _ (dict_ok_values_literal d Hd)).
  unfold InSet_optimize. rewrite H, H'. cbn [bind]. rewrite D, D', V.
  destruct expression; try reflexivity.
  destruct (if is_string value then py_lower value else Ok value); try reflexivity.
  cbn [bind]. rewrite (od_mem_same d d' eq a HF). reflexivity.
Qed.

Lemma InSet_optimize_empty expression :
  InSet_optimize expression [] = Ok (Boolean (VBool false)).
Proof.
  unfold InSet_optimize. cbn [_get_literals get_literals_from bind od_values map filter app].
  destruct expression; try reflexivity.
  destruct value; reflexivity.
Qed.

(** X9.  A set of literals and itself: the intersection [s & s] and
    the union [s | s] are the optimized set, and the difference
    [s & ~s] is [false] (an [AttributeError] of [_get_literals] on a
    [String] that holds no string comes through on both sides). *)
Theorem InSet_with_itself expression container :
  is_literal container = true ->
  let s := InSet expression container in
  node_and s s = InSet_optimize expression container
  /\ node_or s s = InSet_optimize expression container
  /\ node_and s (Not s)
     = (_ <- _get_literals container ;; Ok (Boolean (VBool false))).
Proof.
  intros L s. subst s. unfold node_and, node_or. cbn [and_dispatch].
  unfold InSet__and__, InSet__or__. rewrite node_eqb_refl, L. cbn [andb].
  destruct (_get_literals container) as [d|e|] eqn:H.
  - cbn [bind]. rewrite (filter_all _ d), (filter_none _ d), setdefault_own_keys.
    + rewrite (InSet_optimize_values _ _ _ L H).
      split; [reflexivity|]. split; [reflexivity|]. apply InSet_optimize_empty.
    + intros; apply od_mem_own_keys; assumption.
    + intros kv Hin. rewrite (od_mem_own_keys d kv Hin). reflexivity.
    + intros; apply od_mem_own_keys; assumption.
  - unfold InSet_optimize. rewrite H. repeat split.
  - unfold InSet_optimize. rewrite H. repeat split.
Qed.

Lemma InSet_with_itself_witness :
  let c := [Number (VInt 1); String_ (VStr "A"); Number (VFloat 1); String_ (VStr "a")] in
  let s := InSet (Field "f" []) c in
  node_and s s = InSet_optimize (Field "f" []) c
  /\ node_or s s = InSet_optimize (Field "f" []) c
  /\ node_and s (Not s)
     = (_ <- _get_literals c ;; Ok (Boolean (VBool false))).
Proof.
  intros c s. apply (InSet_with_itself (Field "f" []) c). reflexivity.
Defined.

(* ================================================================== *)
(** * [InSet.split_literals] and [InSet.synonym] *)

Lemma get_literals_from_grows container :
  forall d d', get_literals_from container d = Ok d' ->
               List.length d <= List.length d'.
Proof.
  assert (Hs : forall {V : Type} k (v : V) d,
             List.length d <= List.length (od_set k v d)).
  { intros V k v d. induction d as [|[k0 v0] d IH]; cbn [od_set List.length]; [lia|].
    destruct (py_eq k0 k); cbn [List.length]; lia. }
  assert (Hd : forall {V : Type} k (v : V) d,
             List.length d <= List.length (od_setdefault k v d)).
  { intros V k v d. unfold od_setdefault. destruct (od_mem k d); [lia|].
    rewrite length_app. lia. }
  induction container as [|x xs IH]; intros d d' H.
  - inversion H; subst; lia.
  - destruct x as [c k| | | | | | | | | | |]; cbn [get_literals_from] in H;
      try (apply IH; exact H).
    destruct c.
    1-3: specialize (IH _ _ H);
      match type of IH with
      | List.length (od_set ?k ?v ?d) <= _ => specialize (Hs node k v d)
      end; lia.
    apply bind_Ok in H. destruct H as [kl [_ H]].
    specialize (IH _ _ H). specialize (Hd node kl (Literal CString k) d). lia.
Qed.

Lemma od_set_not_empty {V : Type} k (v : V) d : od_set k v d <> [].
Proof. destruct d as [|[k0 v0] d]; cbn [od_set]; [|destruct (py_eq k0 k)]; discriminate. Qed.

Lemma get_literals_not_empty container d :
  existsb isinstance_Literal container = true ->
  _get_literals container = Ok d -> d <> [].
Proof.
  unfold _get_literals.
  assert (G : forall xs d0 d', d0 <> [] -> get_literals_from xs d0 = Ok d' -> d' <> []).
  { intros xs d0 d' N H. apply get_literals_from_grows in H.
    destruct d0; [contradiction|]. destruct d'; [cbn in H; lia | discriminate]. }
  assert (A : forall d0, existsb isinstance_Literal container = true ->
                         get_literals_from container d0 = Ok d -> d <> []);
    [|apply A].
  induction container as [|x xs IH]; intros d0 E H; [discriminate E|].
  cbn [existsb] in E.
  destruct x as [c k| | | | | | | | | | |]; cbn [get_literals_from isinstance_Literal orb] in *;
    try (eapply IH; eassumption).
  destruct c.
  1-3: eapply G; [|exact H]; apply od_set_not_empty.
  apply bind_Ok in H. destruct H as [kl [_ H]].
  eapply G; [|exact H]. unfold od_setdefault.
  destruct (od_mem kl d0) eqn:M; [destruct d0; [discriminate M | discriminate]|].
  destruct d0; discriminate.
Qed.

Lemma is_dynamic_false container :
  is_dynamic container = false -> existsb isinstance_Literal container = true.
Proof.
  unfold is_dynamic. induction container as [|x xs IH]; [discriminate|].
  cbn [forallb existsb]. destruct (isinstance_Literal x); [reflexivity|].
  cbn [negb andb orb]. exact IH.
Qed.

Lemma existsb_filter {A : Type} (f : A -> bool) xs :
  existsb f (filter f xs) = existsb f xs.
Proof.
  induction xs as [|x xs IH]; [reflexivity|]. cbn [filter existsb].
  destruct (f x) eqn:E; cbn [existsb]; rewrite ?E; cbn [orb]; [reflexivity | exact IH].
Qed.

Lemma node_eqb_literal_dynamic e v :
  isinstance_Literal e = false -> isinstance_Literal v = true -> node_eqb e v = false.
Proof. destruct e, v; try discriminate; reflexivity. Qed.

Lemma existsb_node_eqb_literals e vs :
  isinstance_Literal e = false -> forallb isinstance_Literal vs = true ->
  existsb (node_eqb e) vs = false.
Proof.
  intros NL. induction vs as [|v vs IH]; [reflexivity|]. cbn [forallb existsb].
  intros H. apply andb_true_iff in H. destruct H as [H1 H2].
  rewrite (node_eqb_literal_dynamic e v NL H1), (IH H2). reflexivity.
Qed.

(** The literal half of a set over an expression that is no literal
    optimizes to a comparison with a literal or to a set of literals. *)
Lemma InSet_optimize_literals e literals l :
  isinstance_Literal e = false ->
  is_literal literals = true -> existsb isinstance_Literal literals = true ->
  InSet_optimize e literals = Ok l ->
  (exists v, isinstance_Literal v = true /\ l = Comparison e EQ v)
  \/ (exists vs, is_literal vs = true /\ l = InSet e vs).
Proof.
  intros NL L E H. rewrite InSet_optimize_dynamic in H by exact NL.
  apply bind_Ok in H. destruct H as [d [Hd H]].
  assert (Ok_d : dict_ok d) by exact (get_literals_from_ok literals [] d Logic.I Hd).
  pose proof (dict_ok_values_literal d Ok_d) as V.
  pose proof (get_literals_not_empty _ _ E Hd) as N.
  fold (dynamic literals) in H. rewrite (dynamic_literals _ L), app_nil_r in H.
  destruct d as [|[k1 v1] [|[k2 v2] d]]; [contradiction | |];
    cbn [od_values map snd InSet_finish] in H, V.
  - left. exists v1. cbn [forallb] in V. rewrite andb_true_r in V. split; [exact V|].
    rewrite Comparison_optimize_dynamic in H by (rewrite NL; reflexivity).
    rewrite (node_eqb_literal_dynamic e v1 NL V) in H. inversion H; reflexivity.
  - right. rewrite (existsb_node_eqb_literals e _ NL V) in H.
    eexists. split; [exact V|]. inversion H; reflexivity.
Qed.

(** The other half optimizes to [true], to a comparison with a member
    that is no literal, or to a set with such a member. *)
Lemma InSet_optimize_dynamics e container d :
  isinstance_Literal e = false -> is_literal container = false ->
  InSet_optimize e (dynamic container) = Ok d ->
  d = Boolean (VBool true)
  \/ (exists x, isinstance_Literal x = false /\ d = Comparison e EQ x)
  \/ (exists xs, is_literal xs = false /\ d = InSet e xs).
Proof.
  intros NL L H. rewrite InSet_optimize_dynamic in H by exact NL.
  unfold _get_literals in H. rewrite get_literals_from_dynamic in H.
  cbn [bind od_values map app] in H. rewrite dynamic_dynamic in H.
  assert (A : forallb (fun v => negb (isinstance_Literal v)) (dynamic container) = true)
    by apply forallb_filter.
  assert (N : dynamic container <> []).
  { intros E. unfold is_literal in L. clear -L E.
    induction container as [|x xs IH]; [discriminate L|].
    cbn [forallb dynamic filter] in *. destruct (isinstance_Literal x); cbn [negb andb] in *;
      [apply IH; assumption | discriminate E]. }
  destruct (dynamic container) as [|x [|x' xs]]; [contradiction | |];
    cbn [InSet_finish] in H; cbn [forallb] in A.
  - rewrite Comparison_optimize_dynamic in H by (rewrite NL; reflexivity).
    destruct (node_eqb e x); inversion H; [left; reflexivity|].
    right; left. exists x. split; [|reflexivity].
    apply andb_true_iff in A. destruct A as [A _]. apply negb_true_iff in A. exact A.
  - destruct (existsb _ _); inversion H; [left; reflexivity|].
    right; right. eexists. split; [|reflexivity].
    apply andb_true_iff in A. destruct A as [A _]. apply negb_true_iff in A.
    unfold is_literal. cbn [forallb]. rewrite A. reflexivity.
Qed.

(** X13.  [InSet.split_literals] returns as it is a set that holds
    literals only or none at all.  Of a mixed set over an expression
    that is no literal it returns the [Or] of the optimized set of the
    literals and the optimized set of the other members, or [true]
    when the latter is [true]. *)
Theorem split_literals_halves expression container :
  (is_dynamic container || is_literal container = true ->
   split_literals expression container = Ok (InSet expression container))
  /\ (is_dynamic container || is_literal container = false ->
      isinstance_Literal expression = false ->
      split_literals expression container
      = (l <- InSet_optimize expression (filter isinstance_Literal container) ;;
         d <- InSet_optimize expression (dynamic container) ;;
         Ok (if isinstance_Literal d then Boolean (VBool true) else Or [l; d]))).
Proof.
  unfold split_literals. split; intros H; rewrite H; [reflexivity|].
  intros NL. apply orb_false_iff in H. destruct H as [HD HL].
  fold (dynamic container).
  destruct (InSet_optimize expression (filter isinstance_Literal container))
    as [l| |] eqn:El; try reflexivity.
  destruct (InSet_optimize expression (dynamic container)) as [d| |] eqn:Ed;
    try reflexivity.
  cbn [bind]. f_equal.
  assert (ee : node_eqb expression expression = true) by apply node_eqb_refl.
  destruct (InSet_optimize_literals _ _ _ NL (forallb_filter _ _)
              (eq_trans (existsb_filter _ _) (is_dynamic_false _ HD)) El)
    as [[v [Lv ->]]|[vs [Lvs ->]]];
    destruct (InSet_optimize_dynamics _ _ _ NL HL Ed)
      as [->|[[x [Lx ->]]|[xs [Lxs ->]]]];
    cbn [node_or isinstance_Literal]; unfold Comparison__or__, InSet__or__;
    cbn [comparator_eqb andb]; rewrite ?Lv, ?Lx, ?Lxs, ?Lvs, ?ee;
    cbn [andb]; rewrite ?andb_false_r; try reflexivity.
Qed.

Lemma synonym_fold e rest :
  forall acc vs,
    is_literal vs = true -> is_literal rest = true ->
    (st <- foldM (compound_step node_or terms_of_Or)
                 (map (fun v => Comparison e EQ v) rest) (acc, InSet e vs) ;;
     match fst st with
     | [] => Ok (snd st)
     | ts => Ok (Or (ts ++ [snd st]))
     end)
    = Ok (match acc ++ InSet e vs :: map (fun v => InSet e [v]) rest with
          | [x] => x
          | ts => Or ts
          end).
Proof.
  induction rest as [|v rest IH]; intros acc vs Lvs L.
  - cbn [map foldM bind fst snd]. destruct acc as [|a [|a' acc]]; reflexivity.
  - cbn [is_literal forallb] in L. apply andb_true_iff in L. destruct L as [Lv L].
    cbn [map foldM]. unfold compound_step at 1. cbn [fst snd node_or].
    unfold InSet__or__. rewrite node_eqb_refl, Lvs, Lv.
    cbn [andb bind Expression__or__ terms_of_Or split_last].
    rewrite (IH (acc ++ [InSet e vs]) [v]); [|cbn; rewrite Lv; reflexivity | exact L].
    rewrite <- app_assoc. reflexivity.
Qed.

(** X14.  The [Or] of comparisons that [InSet.synonym] gives for a
    set of literals does not optimize back to the set beyond two
    members: [Or.optimize] puts the first two into one set and each
    further member into a set of its own; of a single member it
    returns the comparison. *)
Theorem synonym_of_literals_optimized (get_function : registry) fuel e v1 v2 rest :
  is_literal (v1 :: v2 :: rest) = true ->
  optimize get_function (S fuel) (synonym e [v1]) = Ok (Comparison e EQ v1)
  /\ optimize get_function (S fuel) (synonym e (v1 :: v2 :: rest))
     = Ok (match rest with
           | [] => InSet e [v1; v2]
           | _ => Or (InSet e [v1; v2] :: map (fun v => InSet e [v]) rest)
           end).
Proof.
  intros L. split; [reflexivity|].
  cbn [is_literal forallb] in L. apply andb_true_iff in L. destruct L as [L1 L].
  apply andb_true_iff in L. destruct L as [L2 L].
  unfold synonym. cbn [optimize map]. unfold Or_optimize, compound_optimize.
  cbn [foldM]. unfold compound_step at 1. cbn [fst snd node_or].
  unfold Comparison__or__. rewrite node_eqb_refl, L1, L2.
  cbn [comparator_eqb andb bind terms_of_Or].
  rewrite (synonym_fold e rest [] [v1; v2]);
    [|cbn; rewrite L1, L2; reflexivity | exact L].
  destruct rest; reflexivity.
Qed.

Lemma synonym_of_literals_optimized_witness :
  let e := Field "f" [] in
  optimize no_functions 1 (synonym e [Number (VInt 1)])
  = Ok (Comparison e EQ (Number (VInt 1)))
  /\ optimize no_functions 1
              (synonym e [Number (VInt 1); Number (VInt 2); Number (VInt 3)])
     = Ok (Or [InSet e [Number (VInt 1); Number (VInt 2)]; InSet e [Number (VInt 3)]]).
Proof.
  intros e.
  apply (synonym_of_literals_optimized no_functions 0 e (Number (VInt 1))
           (Number (VInt 2)) [Number (VInt 3)]).
  reflexivity.
Defined.

(* ================================================================== *)
(** * [And.optimize] and [Or.optimize] flatten *)

Section Flattening.
Variable combine : node -> node -> result node.
Variable same_kind : node -> option (list node).
Variable rebuild : list node -> node.
Hypothesis same_kind_rebuild : forall t ts, same_kind t = Some ts <-> t = rebuild ts.
Hypothesis combine_plain :
  forall cur t, plain cur = true -> same_kind t = None -> plain t = true ->
                combine cur t = Ok (rebuild [cur; t]).
Hypothesis combine_compound :
  forall cur ts, plain cur = true -> combine cur (rebuild ts) = Ok (rebuild (cur :: ts)).

Lemma compound_step_flat acc cur t :
  plain cur = true -> plain_or_flat same_kind t = true ->
  exists acc' cur',
    compound_step combine same_kind (acc, cur) t = Ok (acc', cur')
    /\ plain cur' = true
    /\ acc' ++ [cur'] = (acc ++ [cur]) ++ spliced same_kind [t].
Proof.
  intros Pc Pt. unfold compound_step, plain_or_flat, spliced in *.
  cbn [fst snd flat_map]. rewrite app_nil_r.
  destruct (same_kind t) as [ts|] eqn:K.
  - apply same_kind_rebuild in K. subst t. rewrite combine_compound by exact Pc.
    cbn [bind]. rewrite (proj2 (same_kind_rebuild _ _) eq_refl).
    destruct (split_last_cons cur ts) as [init [last [E1 E2]]]. rewrite E1.
    exists (acc ++ init), last. split; [reflexivity|]. split.
    + assert (A : forallb plain (cur :: ts) = true) by (cbn; rewrite Pc, Pt; reflexivity).
      rewrite E2, forallb_app in A. apply andb_true_iff in A. destruct A as [_ A].
      cbn in A. rewrite andb_true_r in A. exact A.
    + rewrite <- !app_assoc. cbn [app]. rewrite <- E2. reflexivity.
  - rewrite combine_plain by assumption. cbn [bind].
    rewrite (proj2 (same_kind_rebuild _ _) eq_refl). cbn [split_last].
    exists (acc ++ [cur]), t. repeat split. exact Pt.
Qed.

Lemma foldM_flat rest :
  forall acc cur,
    plain cur = true -> forallb (plain_or_flat same_kind) rest = true ->
    exists acc' cur',
      foldM (compound_step combine same_kind) rest (acc, cur) = Ok (acc', cur')
      /\ acc' ++ [cur'] = (acc ++ [cur]) ++ spliced same_kind rest.
Proof.
  induction rest as [|t rest IH]; intros acc cur Pc Pr.
  - exists acc, cur. split; [reflexivity|]. cbn. rewrite app_nil_r. reflexivity.
  - cbn [forallb] in Pr. apply andb_true_iff in Pr. destruct Pr as [Pt Pr].
    destruct (compound_step_flat acc cur t Pc Pt) as [acc1 [cur1 [E1 [P1 F1]]]].
    destruct (IH acc1 cur1 P1 Pr) as [acc2 [cur2 [E2 F2]]].
    exists acc2, cur2. cbn [foldM]. rewrite E1. cbn [bind]. split; [exact E2|].
    rewrite F2, F1. unfold spliced. cbn [flat_map]. rewrite app_nil_r, <- !app_assoc.
    reflexivity.
Qed.

Lemma compound_optimize_flat first rest :
  plain first = true -> forallb (plain_or_flat same_kind) rest = true ->
  compound_optimize combine same_kind rebuild (first :: rest)
  = Ok (match spliced same_kind rest with
        | [] => first
        | ts => rebuild (first :: ts)
        end).
Proof.
  intros Pf Pr. unfold compound_optimize.
  destruct (foldM_flat rest [] first Pf Pr) as [acc [cur [E F]]].
  rewrite E. cbn [bind fst snd]. cbn [app] in F.
  destruct acc as [|a acc].
  - cbn [app] in F. inversion F. reflexivity.
  - rewrite F. destruct (spliced same_kind rest); [|reflexivity].
    destruct acc; discriminate F.
Qed.
End Flattening.

(** X10.  [And.optimize] and [Or.optimize] flatten: after a first
    term of a class that has the [&] and [|] of [Expression], with
    every other term of such a class or a compound of the class being
    optimized made of such terms, the result is the compound of all
    the terms, those of the inner compounds spliced in; a single term
    is returned as it is. *)
Theorem compound_optimize_flattens first rest :
  plain first = true ->
  (forallb (plain_or_flat terms_of_And) rest = true ->
   And_optimize (first :: rest)
   = Ok (match spliced terms_of_And rest with
         | [] => first
         | ts => And (first :: ts)
         end))
  /\ (forallb (plain_or_flat terms_of_Or) rest = true ->
      Or_optimize (first :: rest)
      = Ok (match spliced terms_of_Or rest with
            | [] => first
            | ts => Or (first :: ts)
            end)).
Proof.
  intros Pf. split; intros Pr.
  - apply compound_optimize_flat; trivial.
    + intros t ts. destruct t; cbn; split; congruence.
    + intros cur t Pc K Pt. destruct cur; try discriminate Pc;
        destruct t; try discriminate Pt; reflexivity.
    + intros cur ts Pc. destruct cur; try discriminate Pc; reflexivity.
  - apply compound_optimize_flat; trivial.
    + intros t ts. destruct t; cbn; split; congruence.
    + intros cur t Pc K Pt. destruct cur; try discriminate Pc;
        destruct t; try discriminate Pt; reflexivity.
    + intros cur ts Pc. destruct cur; try discriminate Pc; reflexivity.
Qed.

Lemma compound_optimize_flattens_witness :
  And_optimize [Field "a" []; And [Field "b" []; Field "c" []]; Field "d" []]
  = Ok (And [Field "a" []; Field "b" []; Field "c" []; Field "d" []])
  /\ Or_optimize [Field "a" []] = Ok (Field "a" []).
Proof.
  split.
  - apply (proj1 (compound_optimize_flattens (Field "a" [])
                    [And [Field "b" []; Field "c" []]; Field "d" []] eq_refl)).
    reflexivity.
  - apply (proj2 (compound_optimize_flattens (Field "a" []) [] eq_refl)).
    reflexivity.
Defined.

(* ================================================================== *)
(** * The exceptions of [optimize] *)

Section RaisesOnly.
Variable P : exn -> Prop.
Hypothesis P_own : forall e, own_exception e = true -> P e.
Hypothesis P_outside : forall e, outside_the_model e = true -> P e.

Lemma raises_only_bind {A B : Type} (r : result A) (k : A -> result B) :
  raises_only P r -> (forall a, r = Ok a -> raises_only P (k a)) ->
  raises_only P (bind r k).
Proof.
  intros Hr Hk. destruct r as [a|e|]; cbn [bind].
  - apply Hk; reflexivity.
  - intros e' E. inversion E; subst. apply Hr; reflexivity.
  - discriminate.
Qed.

Lemma raises_only_Ok {A : Type} (a : A) : raises_only P (Ok a).
Proof. discriminate. Qed.

Lemma raises_only_own {A : Type} e :
  own_exception e = true -> raises_only P (@Raise A e).
Proof. intros H e' E. inversion E; subst. apply P_own; exact H. Qed.

Ltac settle :=
  first [ apply raises_only_Ok
        | apply raises_only_own; reflexivity
        | discriminate ].

Lemma py_lower_raises v : raises_only P (py_lower v).
Proof. destruct v; settle. Qed.

Lemma func_lookup_raises c a b : raises_only P (func_lookup c a b).
Proof.
  unfold func_lookup.
  destruct c; try settle;
    destruct (as_Q a), (as_Q b); try settle;
    destruct a; try settle; destruct b; settle.
Qed.

Lemma get_literals_from_raises container values :
  raises_only P (get_literals_from container values).
Proof.
  revert values. induction container as [|x xs IH]; intros values.
  - settle.
  - destruct x as [c k| | | | | | | | | | |]; cbn [get_literals_from]; try apply IH.
    destruct c; try apply IH.
    apply raises_only_bind; [apply py_lower_raises | intros; apply IH].
Qed.

Lemma Comparison_optimize_raises l c r : raises_only P (Comparison_optimize l c r).
Proof.
  unfold Comparison_optimize.
  assert (D : forall b : bool, raises_only P (if b
    then Ok (Boolean (VBool match c with EQ | LE | GE => true | _ => false end))
    else Ok (Comparison l c r))) by (intros []; settle).
  destruct l; try apply D. destruct r; try apply D.
  destruct (negb (literal_class_eqb cls0 cls)); [settle|].
  apply raises_only_bind.
  - destruct cls; try settle.
    apply raises_only_bind; [apply py_lower_raises|]. intros.
    apply raises_only_bind; [apply py_lower_raises|]. intros; settle.
  - intros. apply raises_only_bind; [apply func_lookup_raises|]. intros; settle.
Qed.

Lemma InSet_optimize_raises expression container :
  raises_only P (InSet_optimize expression container).
Proof.
  unfold InSet_optimize.
  apply raises_only_bind; [apply get_literals_from_raises|]. intros lits _.
  apply raises_only_bind.
  - destruct expression; try settle.
    apply raises_only_bind.
    + destruct (is_string value); [apply py_lower_raises | settle].
    + intros. apply raises_only_bind; [apply get_literals_from_raises|].
      intros. destruct (od_mem a a0); settle.
  - intros cont _. destruct cont as [[|item [|item' cs]]|]; try settle.
    + apply Comparison_optimize_raises.
    + destruct (existsb (node_eqb expression) (item :: item' :: cs)); settle.
Qed.

Lemma foldM_raises {A B : Type} (f : A -> B -> result A) xs :
  (forall a x, raises_only P (f a x)) -> forall a, raises_only P (foldM f xs a).
Proof.
  intros Hf. induction xs as [|x xs IH]; intros a; cbn [foldM]; [settle|].
  apply raises_only_bind; [apply Hf | intros; apply IH].
Qed.

Lemma compound_optimize_raises combine same_kind rebuild terms :
  (forall a b, raises_only P (combine a b)) ->
  raises_only P (compound_optimize combine same_kind rebuild terms).
Proof.
  intros Hc. unfold compound_optimize. destruct terms as [|first rest]; [settle|].
  apply raises_only_bind.
  - apply foldM_raises. intros st term. unfold compound_step.
    apply raises_only_bind; [apply Hc|]. intros current _.
    destruct (same_kind current) as [ts|]; [|settle].
    destruct (split_last ts) as [[init last]|]; settle.
  - intros st _. destruct (fst st); settle.
Qed.

Lemma and_dispatch_raises nested self other :
  (forall a b, raises_only P (nested a b)) ->
  raises_only P (and_dispatch nested self other).
Proof.
  intros Hn.
  assert (R : forall expression (keep : pyval * node -> odict node -> bool)
                     container container',
             raises_only P
               (container1 <- _get_literals container ;;
                container2 <- _get_literals container' ;;
                InSet_optimize expression
                  (od_values (filter (fun kv => keep kv container2) container1)))).
  { intros. apply raises_only_bind; [apply get_literals_from_raises|].
    intros. apply raises_only_bind; [apply get_literals_from_raises|].
    intros. apply InSet_optimize_raises. }
  assert (I : forall expression container x,
             raises_only P (InSet__and__ nested expression container x)).
  { intros expression container x. unfold InSet__and__.
    destruct x as [| | | | | |l' c' r'|e' cs'|t| | |]; try settle.
    - destruct c'; try settle;
        (destruct (node_eqb expression l'); [|settle]);
        (destruct (is_literal container && isinstance_Literal r'); [|settle]);
        apply compound_optimize_raises; exact Hn.
    - destruct (node_eqb expression e'); [|settle].
      destruct (is_literal container && is_literal cs'); [|settle].
      apply (R expression (fun kv d => od_mem (fst kv) d)).
    - destruct t; try settle.
      destruct (node_eqb expression t); [|settle].
      destruct (is_literal container && is_literal container0); [|settle].
      apply (R expression (fun kv d => negb (od_mem (fst kv) d))). }
  destruct self; cbn [and_dispatch]; try settle.
  - unfold Comparison__and__.
    destruct cmp; try settle; destruct other; try settle.
    destruct (node_eqb self1 other); [apply I | settle].
  - apply I.
Qed.

Lemma node_and_raises self other : raises_only P (node_and self other).
Proof.
  unfold node_and. apply and_dispatch_raises. intros a b.
  apply and_dispatch_raises. intros; discriminate.
Qed.

Lemma node_or_raises self other : raises_only P (node_or self other).
Proof.
  destruct self; cbn [node_or]; try settle.
  unfold InSet__or__.
  destruct other; try settle.
  - destruct (node_eqb self other1); [|settle].
    destruct (is_literal container && isinstance_Literal other2); settle.
  - destruct (node_eqb self other); [|settle].
    destruct (is_literal container && is_literal container0); [|settle].
    apply raises_only_bind; [apply get_literals_from_raises|].
    intros. apply raises_only_bind; [apply get_literals_from_raises|].
    intros. apply InSet_optimize_raises.
Qed.

Lemma node_invert_raises opt self :
  (forall x, raises_only P (opt x)) -> raises_only P (node_invert opt self).
Proof.
  intros Ho. destruct self; cbn [node_invert]; try settle.
  - destruct cmp; try settle; apply Comparison_optimize_raises.
  - apply Ho.
Qed.

Lemma mapM_raises {A B : Type} (f : A -> result B) xs :
  (forall x, raises_only P (f x)) -> raises_only P (mapM f xs).
Proof.
  intros Hf. induction xs as [|x xs IH]; cbn [mapM]; [settle|].
  apply raises_only_bind; [apply Hf|]. intros.
  apply raises_only_bind; [exact IH|]. intros; settle.
Qed.

Lemma raises_only_outside {A : Type} e :
  outside_the_model e = true -> raises_only P (@Raise A e).
Proof. intros H e' E. inversion E; subst. apply P_outside; exact H. Qed.

Lemma float_result_raises x : raises_only P (float_result x).
Proof.
  unfold float_result. destruct (binary64 x); [settle|].
  apply raises_only_outside; reflexivity.
Qed.

Lemma float_of_raises v : raises_only P (float_of v).
Proof.
  destruct v; cbn [float_of]; try settle.
  destruct (binary64 (inject_Z z)); settle.
Qed.

(** A divisor that passes the guard is no zero as a float either. *)
Lemma float_of_divisor rvalue y :
  py_eq rvalue (VInt 0) = false -> float_of rvalue = Ok y -> Qeq_bool y 0 = false.
Proof.
  unfold py_eq. intros G Y.
  destruct rvalue as [|b|n|q|]; try discriminate Y; cbn [as_Q float_of] in *.
  - inversion Y; subst y. exact G.
  - destruct (binary64 (inject_Z n)) as [q|] eqn:B; inversion Y; subst q.
    destruct (Qeq_bool y 0) eqn:E; [|reflexivity]. exfalso.
    apply Qeq_bool_iff in E. revert E.
    apply (binary64_not_zero (inject_Z n)); [|exact B].
    assert (N : n <> 0%Z).
    { intros ->. discriminate G. }
    assert (A : Qabs (inject_Z n) == inject_Z (Z.abs n)).
    { unfold inject_Z. rewrite Zabs_Qabs. reflexivity. }
    rewrite A. change 1%Q with (inject_Z 1). rewrite <- Zle_Qle. lia.
  - inversion Y; subst y. exact G.
Qed.

(** Under the division guard, arithmetic raises [TypeError] or
    [OverflowError], or gives an infinity. *)
Lemma op_lookup_raises operator lvalue rvalue :
  divides_by_zero operator rvalue = false ->
  raises_only P (op_lookup operator lvalue rvalue).
Proof.
  intros G.
  assert (D : (match operator with TrueDiv | Mod => true | _ => false end) = true ->
              py_eq rvalue (VInt 0) = false).
  { intros H. unfold divides_by_zero in G. rewrite H, Bool.andb_true_r in G. exact G. }
  assert (I : forall m n, as_Z rvalue = Some n ->
                          raises_only P (int_arith operator m n)).
  { intros m n E.
    assert (N : (match operator with TrueDiv | Mod => true | _ => false end) = true ->
                (n =? 0)%Z = false).
    { intros H. specialize (D H). unfold py_eq in D.
      destruct rvalue as [|b|k|q|]; try discriminate E; cbn [as_Z as_Q] in *;
        inversion E; subst n.
      - destruct b; [reflexivity | discriminate D].
      - destruct (Z.eqb_spec k 0) as [->|]; [discriminate D | reflexivity]. }
    unfold int_arith, int_truediv. destruct operator; try settle;
      rewrite (N eq_refl); try settle.
    destruct (binary64 (inject_Z m / inject_Z n)); settle. }
  assert (F : raises_only P (x <- float_of lvalue ;; y <- float_of rvalue ;;
                             float_arith operator x y)).
  { apply raises_only_bind; [apply float_of_raises|]. intros x _.
    apply raises_only_bind; [apply float_of_raises|]. intros y Y.
    unfold float_arith. apply raises_only_bind; [|intros; settle].
    unfold float_rem.
    destruct operator; try apply float_result_raises;
      rewrite (float_of_divisor rvalue y (D eq_refl) Y); apply float_result_raises. }
  unfold op_lookup.
  destruct lvalue as [|b|m|x|s]; destruct rvalue as [|c|n|y|t];
    try (apply raises_only_outside; reflexivity); try settle;
    cbn [as_Z]; first [exact F | apply I; reflexivity].
Qed.

Lemma MathOperation_optimize_raises opt l operator r :
  (forall x, raises_only P (opt x)) ->
  raises_only P (MathOperation_optimize opt l operator r).
Proof.
  intros Ho. unfold MathOperation_optimize.
  apply raises_only_bind; [apply Ho|]. intros left _.
  apply raises_only_bind; [apply Ho|]. intros right _.
  assert (R : raises_only P
                (match right with
                 | MathOperation rleft roperator rright =>
                   if node_eqb rleft (Number (VInt 0))
                      && (is_additive operator && is_additive roperator)
                   then Ok (MathOperation left
                              (if xorb (math_operator_eqb operator Sub)
                                       (math_operator_eqb roperator Sub)
                               then Sub else Add) rright)
                   else Ok (MathOperation left operator right)
                 | _ => Ok (MathOperation left operator right)
                 end)).
  { destruct right; try settle. destruct (_ && _); settle. }
  destruct left as [[] lvalue| | | | | | | | | | |]; try exact R.
  destruct right as [[] rvalue| | | | | | | | | | |]; try exact R.
  fold (divides_by_zero operator rvalue).
  destruct (divides_by_zero operator rvalue) eqn:G; cbn [negb]; [settle|].
  apply raises_only_bind; [apply op_lookup_raises; exact G | intros; settle].
Qed.
End RaisesOnly.

(** X11.  [optimize] raises what the [run] of a registered function
    raised, other than [NotImplementedError], or one of [TypeError],
    [AttributeError], [IndexError] and [OverflowError]: never a
    [NotImplementedError], and no [ZeroDivisionError] of its own.  (The
    third case is no exception of Python: the model has stopped at a
    float infinity or at arithmetic on a [str].) *)
Theorem optimize_raises_only (get_function : registry) fuel x e :
  optimize get_function fuel x = Raise e ->
  own_exception e = true
  \/ (e <> NotImplementedError /\ raised_by_a_function get_function e)
  \/ outside_the_model e = true.
Proof.
  set (P := fun e => own_exception e = true
                     \/ (e <> NotImplementedError
                         /\ raised_by_a_function get_function e)
                     \/ outside_the_model e = true).
  assert (P_own : forall e, own_exception e = true -> P e) by (intros; left; assumption).
  assert (P_outside : forall e, outside_the_model e = true -> P e)
    by (intros; right; right; assumption).
  revert x e. change (forall x, raises_only P (optimize get_function fuel x)).
  induction fuel as [|fuel IH]; intros x; [discriminate|].
  destruct x; cbn [optimize]; try discriminate.
  - unfold FunctionCall_optimize.
    apply raises_only_bind; [apply mapM_raises; exact IH|]. intros arguments' _.
    destruct (get_function name) as [run|] eqn:F; [|discriminate].
    destruct (forallb isinstance_Literal arguments'); [|discriminate].
    destruct (run (map value_of arguments')) as [e|rv] eqn:R; [|discriminate].
    assert (Q : e <> NotImplementedError -> raises_only P (@Raise node e)).
    { intros N e' E. inversion E; subst. right. left. split; [exact N|].
      exists name, run, (map value_of arguments'). split; assumption. }
    destruct e; try discriminate; apply Q; discriminate.
  - apply MathOperation_optimize_raises; assumption.
  - apply Comparison_optimize_raises; assumption.
  - apply InSet_optimize_raises; assumption.
  - unfold Not_optimize. apply raises_only_bind; [apply IH|]. intros.
    apply node_invert_raises; assumption.
  - apply compound_optimize_raises; [assumption|]. intros; apply node_and_raises; assumption.
  - apply compound_optimize_raises; [assumption|]. intros; apply node_or_raises; assumption.
Qed.

Lemma optimize_raises_only_witness :
  optimize no_functions 2
           (MathOperation (Number (VInt (10 ^ 400))) TrueDiv (Number (VInt 3)))
  = Raise OverflowError
  /\ (own_exception OverflowError = true
      \/ (OverflowError <> NotImplementedError
          /\ raised_by_a_function no_functions OverflowError)
      \/ outside_the_model OverflowError = true).
Proof.
  assert (E : optimize no_functions 2
                (MathOperation (Number (VInt (10 ^ 400))) TrueDiv (Number (VInt 3)))
              = Raise OverflowError) by (vm_compute; reflexivity).
  split; [exact E|].
  exact (optimize_raises_only no_functions 2 _ OverflowError E).
Defined.

(* ================================================================== *)
(** * The size of an optimized tree *)

(** X12.  On a tree in which [optimize] reaches no [And] and no [Or],
    the result has no more nodes than the tree, and [optimize]
    reaches no [And] and no [Or] in it either. *)
Theorem optimize_does_not_grow (get_function : registry) fuel x y :
  compound_free x = true -> optimize get_function fuel x = Ok y ->
  size y <= size x /\ compound_free y = true.
Proof.
  intros C H. destruct (optimize_settles get_function fuel x y C H) as [A [B _]].
  split; assumption.
Qed.

Lemma optimize_does_not_grow_witness :
  let x := Not (Comparison (Number (VInt 1)) LT (Number (VInt 2))) in
  optimize no_functions 3 x = Ok (Boolean (VBool false))
  /\ size (Boolean (VBool false)) <= size x
  /\ compound_free (Boolean (VBool false)) = true.
Proof.
  intros x. split; [reflexivity|].
  apply (optimize_does_not_grow no_functions 3 x (Boolean (VBool false)));
    reflexivity.
Defined.

(* ================================================================== *)
(** * Which operators write to a list *)

Lemma only_grown_refl st : only_grown st st.
Proof. exists []. rewrite app_nil_r. reflexivity. Qed.

Lemma only_grown_trans st1 st2 st3 :
  only_grown st1 st2 -> only_grown st2 st3 -> only_grown st1 st3.
Proof.
  intros [e1 ->] [e2 ->]. exists (e1 ++ e2). rewrite app_assoc. reflexivity.
Qed.

Lemma only_grown_alloc st v : only_grown st (snd (Store.alloc st v)).
Proof. exists [v]. reflexivity. Qed.

Lemma only_grown_read st st' l :
  only_grown st st' -> l < List.length st -> Store.read st' l = Store.read st l.
Proof.
  intros [ext ->] H. unfold Store.read. apply app_nth1. exact H.
Qed.

Lemma read_alloc st v : Store.read (snd (Store.alloc st v)) (fst (Store.alloc st v)) = v.
Proof.
  unfold Store.alloc, Store.read. cbn [fst snd].
  rewrite app_nth2 by lia. rewrite Nat.sub_diag. reflexivity.
Qed.

Lemma Expression__or__grows self other st :
  only_grown st (snd (Store.Expression__or__ self other st)).
Proof.
  unfold Store.Expression__or__.
  destruct other; try apply only_grown_alloc.
  destruct (py_truthy value); [apply only_grown_refl | apply only_grown_alloc].
Qed.

Lemma Expression__and__grows self other st :
  only_grown st (snd (Store.Expression__and__ self other st)).
Proof. apply Expression__and__allocates. Qed.

Section StoreOperators.
Variable fuel : nat.

Lemma InSet__and__grows nested expression container other st r st' :
  (forall e c x st0 r0 st0',
      nested (Store.HInSet e c) x st0 = Ok (r0, st0') -> only_grown st0 st0') ->
  Store.InSet__and__ fuel nested expression container other st = Ok (r, st') ->
  only_grown st st'.
Proof.
  intros Hn H.
  assert (Hs : forall o,
             Ok (Store.Expression__and__ (Store.HInSet expression container) o st)
             = Ok (r, st') -> only_grown st st').
  { intros o E. inversion E as [E'].
    pose proof (Expression__and__grows (Store.HInSet expression container) o st) as G.
    rewrite E' in G. exact G. }
  assert (R : forall keep c',
             Store.reduce_literals fuel keep st expression container c' = Ok (r, st') ->
             only_grown st st').
  { intros keep c' E. unfold Store.reduce_literals in E.
    apply bind_Ok in E. destruct E as [c1 [_ E]].
    apply bind_Ok in E. destruct E as [c2 [_ E]].
    apply bind_Ok in E. destruct E as [r0 [_ E]].
    inversion E; subst. apply only_grown_refl. }
  assert (A : forall x,
             (let (l, st1) := Store.alloc st [Store.HInSet expression container; x] in
              Store.And_optimize_with nested l st1) = Ok (r, st') ->
             only_grown st st').
  { intros x E.
    pose proof (read_alloc st [Store.HInSet expression container; x]) as Rd.
    pose proof (only_grown_alloc st [Store.HInSet expression container; x]) as G1.
    destruct (Store.alloc st [Store.HInSet expression container; x]) as [l st1].
    cbn [fst snd] in Rd, G1.
    unfold Store.And_optimize_with, Store.compound_optimize in E. rewrite Rd in E.
    apply bind_Ok in E. destruct E as [[[terms current] st2] [L E]].
    cbn [Store.compound_loop] in L.
    apply bind_Ok in L. destruct L as [[current' st1'] [N L]].
    apply Hn in N.
    assert (st2 = st1').
    { destruct (Store.terms_of_And current') as [l2|].
      - destruct (split_last (Store.read st1' l2)) as [[init last]|];
          inversion L; reflexivity.
      - inversion L; reflexivity. }
    subst st2.
    apply (only_grown_trans _ _ _ G1). apply (only_grown_trans _ _ _ N).
    destruct terms.
    - inversion E; subst. apply only_grown_refl.
    - pose proof (only_grown_alloc st1' ((h :: terms) ++ [current])) as G3.
      destruct (Store.alloc st1' ((h :: terms) ++ [current])) as [l3 st3].
      inversion E; subst. exact G3. }
  unfold Store.InSet__and__ in H.
  destruct other as [| | | | | |l' c' r'|e' cs'|t| | |]; try (eapply Hs; exact H).
  - destruct c'; try (eapply Hs; exact H);
      apply bind_Ok in H; destruct H as [same [_ H]];
      (destruct same; [|eapply Hs; exact H]);
      (destruct (_ && _); [|eapply Hs; exact H]);
      eapply A; exact H.
  - apply bind_Ok in H. destruct H as [same [_ H]].
    destruct same; [|eapply Hs; exact H].
    destruct (_ && _); [|eapply Hs; exact H]. eapply R; exact H.
  - destruct t; try (eapply Hs; exact H).
    apply bind_Ok in H. destruct H as [same [_ H]].
    destruct same; [|eapply Hs; exact H].
    destruct (_ && _); [|eapply Hs; exact H]. eapply R; exact H.
Qed.

Lemma and_dispatch_grows nested self other st r st' :
  (forall e c x st0 r0 st0',
      nested (Store.HInSet e c) x st0 = Ok (r0, st0') -> only_grown st0 st0') ->
  Store.terms_of_And self = None ->
  Store.and_dispatch fuel nested self other st = Ok (r, st') ->
  only_grown st st'.
Proof.
  intros Hn NA H.
  assert (Hs : forall s o, Ok (Store.Expression__and__ s o st) = Ok (r, st') ->
                           only_grown st st').
  { intros s o E. inversion E as [E'].
    pose proof (Expression__and__grows s o st) as G. rewrite E' in G. exact G. }
  destruct self; try discriminate NA; cbn [Store.and_dispatch] in H;
    try (eapply Hs; exact H); try discriminate H.
  - inversion H; subst. apply only_grown_refl.
  - unfold Store.Comparison__and__ in H.
    destruct cmp; try (eapply Hs; exact H); destruct other; try (eapply Hs; exact H).
    apply bind_Ok in H. destruct H as [same [_ H]].
    destruct same; [|eapply Hs; exact H].
    eapply InSet__and__grows; [exact Hn | exact H].
  - eapply InSet__and__grows; [exact Hn | exact H].
Qed.

Lemma node_or_grows self other st r st' :
  Store.terms_of_Or self = None ->
  Store.node_or fuel self other st = Ok (r, st') -> only_grown st st'.
Proof.
  intros NO H.
  assert (Hs : forall s o, Ok (Store.Expression__or__ s o st) = Ok (r, st') ->
                           only_grown st st').
  { intros s o E. inversion E as [E'].
    pose proof (Expression__or__grows s o st) as G. rewrite E' in G. exact G. }
  destruct self; try discriminate NO; cbn [Store.node_or] in H;
    try (eapply Hs; exact H); try discriminate H.
  - inversion H; subst. apply only_grown_refl.
  - unfold Store.Comparison__or__ in H.
    destruct (_ && _); [|eapply Hs; exact H].
    destruct other; try (eapply Hs; exact H);
      apply bind_Ok in H; destruct H as [same [_ H]];
      (destruct (_ && _); [|eapply Hs; exact H]).
    + destruct (Store.isinstance_HLiteral other2); [|eapply Hs; exact H].
      inversion H; subst. apply only_grown_refl.
    + inversion H; subst. apply only_grown_refl.
  - unfold Store.InSet__or__ in H.
    destruct other; try (eapply Hs; exact H);
      apply bind_Ok in H; destruct H as [same [_ H]];
      (destruct same; [|eapply Hs; exact H]);
      (destruct (_ && _); [|eapply Hs; exact H]).
    + eapply Hs; exact H.
    + apply bind_Ok in H. destruct H as [c1 [_ H]].
      apply bind_Ok in H. destruct H as [c2 [_ H]].
      apply bind_Ok in H. destruct H as [r0 [_ H]].
      inversion H; subst. apply only_grown_refl.
Qed.

(** X20.  [&] writes to a list only when its left operand is an
    [And], and [|] only when it is an [Or]: on any other left operand
    the store only grows by new lists, and every list it held reads as
    before. *)
Theorem operators_write_to_their_left_compound_only self other st r st' :
  (Store.terms_of_And self = None ->
   Store.node_and fuel self other st = Ok (r, st') ->
   (exists new, st' = st ++ new)
   /\ forall l, l < List.length st -> Store.read st' l = Store.read st l)
  /\ (Store.terms_of_Or self = None ->
      Store.node_or fuel self other st = Ok (r, st') ->
      (exists new, st' = st ++ new)
      /\ forall l, l < List.length st -> Store.read st' l = Store.read st l).
Proof.
  split; intros N H.
  - assert (G : only_grown st st').
    { unfold Store.node_and in H. eapply and_dispatch_grows; [|exact N|exact H].
      intros e c x st0 r0 st0' E. cbn [Store.and_dispatch] in E.
      eapply InSet__and__grows; [|exact E]. intros; discriminate. }
    split; [exact G | intros; apply only_grown_read; assumption].
  - assert (G : only_grown st st') by (eapply node_or_grows; eassumption).
    split; [exact G | intros; apply only_grown_read; assumption].
Qed.
End StoreOperators.

(* ================================================================== *)
(** * Macros, constants and the preprocessor *)

Lemma mapM_same {A : Type} (f : A -> result A) xs :
  Forall (fun x => f x = Ok x) xs -> mapM f xs = Ok xs.
Proof.
  induction 1 as [|x xs H _ IH]; [reflexivity|].
  cbn [mapM]. rewrite H, IH. reflexivity.
Qed.

Lemma existsb_false_Forall {A : Type} (f : A -> bool) (P : A -> Prop) xs :
  Forall (fun x => f x = false -> P x) xs -> existsb f xs = false -> Forall P xs.
Proof.
  induction 1 as [|x xs H _ IH]; [constructor|]. cbn [existsb]. intros E.
  apply orb_false_iff in E. destruct E as [E1 E2]. constructor; auto.
Qed.

(** The rewrite walk returns a tree as it is when the callbacks do so
    on every node that does not pass [test], and no node passes. *)
Lemma walk_untouched callbacks (test : node -> bool) :
  (forall x, test x = false ->
             match callbacks (type_of x) with
             | Some callback => callback x = Ok x
             | None => True
             end) ->
  forall n, some_node test n = false -> walk callbacks n = Ok n.
Proof.
  intros Hc.
  assert (F : forall x, test x = false ->
                        match callbacks (type_of x) with
                        | Some callback => callback x
                        | None => Ok x
                        end = Ok x).
  { intros x Hx. specialize (Hc x Hx). destruct (callbacks (type_of x)); trivial. }
  induction n as [c v|d|b p|f xs m IH|t q IH|l o r IHl IHr|l c r IHl IHr
                  |e xs IHe IH|t IH|ts IH|ts IH|t q IH] using node_induction;
    cbn [some_node]; intros H; apply orb_false_iff in H; destruct H as [H0 H];
    cbn [walk].
  - cbn [bind]. apply (F _ H0).
  - cbn [bind]. apply (F _ H0).
  - cbn [bind]. apply (F _ H0).
  - rewrite (mapM_same _ _ (existsb_false_Forall _ _ _ IH H)). cbn [bind].
    apply (F _ H0).
  - rewrite (IH H). cbn [bind]. apply (F _ H0).
  - apply orb_false_iff in H. destruct H as [H1 H2].
    rewrite (IHl H1), (IHr H2). cbn [bind]. apply (F _ H0).
  - apply orb_false_iff in H. destruct H as [H1 H2].
    rewrite (IHl H1), (IHr H2). cbn [bind]. apply (F _ H0).
  - apply orb_false_iff in H. destruct H as [H1 H2].
    rewrite (IHe H1), (mapM_same _ _ (existsb_false_Forall _ _ _ IH H2)).
    cbn [bind]. apply (F _ H0).
  - rewrite (IH H). cbn [bind]. apply (F _ H0).
  - rewrite (mapM_same _ _ (existsb_false_Forall _ _ _ IH H)). cbn [bind].
    apply (F _ H0).
  - rewrite (mapM_same _ _ (existsb_false_Forall _ _ _ IH H)). cbn [bind].
    apply (F _ H0).
  - rewrite (IH H). cbn [bind]. apply (F _ H0).
Qed.

Lemma zip_lookup_absent ps : forall args k,
  existsb (String.eqb k) ps = false -> zip_lookup ps args k = None.
Proof.
  induction ps as [|p ps IH]; intros [|a args] k H; try reflexivity.
  cbn [existsb] in H. apply orb_false_iff in H. destruct H as [H1 H2].
  cbn [zip_lookup]. rewrite (IH args k H2), String.eqb_sym, H1. reflexivity.
Qed.








(** X16.  A macro whose body names none of its parameters (in a field
    without a path) expands to its optimized body, whatever arguments
    it is given, as many as it has parameters. *)
Theorem Macro_expand_without_parameters
        (get_function : registry) fuel m arguments :
  List.length arguments = List.length (parameters m) ->
  some_node (names_one_of (parameters m)) (expression m) = false ->
  Macro_expand get_function fuel m arguments
  = optimize get_function fuel (expression m).
Proof.
  intros L U. unfold Macro_expand. rewrite L, Nat.eqb_refl. cbn [negb].
  rewrite (walk_untouched _ (names_one_of (parameters m))); [reflexivity | | exact U].
  intros x Hx. unfold register_func.
  destruct x; cbn [type_of node_type_eqb]; trivial.
  cbn [_walk_field]. destruct path; [|destruct (zip_lookup _ _ _); reflexivity].
  cbn [names_one_of] in Hx. rewrite (zip_lookup_absent _ _ _ Hx). reflexivity.
Qed.

Lemma Macro_expand_without_parameters_witness :
  let m := {| macro_name := "plus"; parameters := ["x"];
              expression := MathOperation (Field "y" []) Add
                                          (MathOperation (Field "x" [KeyInt 0]) Add
                                                         (Number (VInt 1))) |} in
  Macro_expand no_functions 3 m [Number (VInt 5)]
  = optimize no_functions 3 (expression m).
Proof.
  intros m. apply (Macro_expand_without_parameters no_functions 3 m [Number (VInt 5)]);
    reflexivity.
Defined.


Lemma od_get_set {V : Type} k (v : V) d k' :
  od_get k' (od_set k v d) = if py_eq k k' then Some v else od_get k' d.
Proof.
  induction d as [|[k0 v0] d IH]; cbn [od_set od_get]; [reflexivity|].
  destruct (py_eq k0 k) eqn:E; cbn [od_get].
  - destruct (py_eq k0 k') eqn:E1, (py_eq k k') eqn:E2; trivial.
    + rewrite py_eq_sym in E. rewrite (py_eq_trans _ _ _ E E1) in E2. discriminate.
    + rewrite (py_eq_trans _ _ _ E E2) in E1. discriminate.
  - rewrite IH. destruct (py_eq k0 k') eqn:E1; [|reflexivity].
    destruct (py_eq k k') eqn:E2; [|reflexivity].
    rewrite py_eq_sym in E2. rewrite (py_eq_trans _ _ _ E1 E2) in E. discriminate.
Qed.

Section PreProcessorFacts.
Variable get_function : registry.
Variable fuel : nat.



(** X18.  A constant is defined once: [add_definition] stores a
    constant under a name that no constant has, where [expand] finds
    it, and raises [KeyError] for a name that a constant has, so that
    the first stays, also when both come in the list given to
    [PreProcessor].  A macro is stored under its name whether or not a
    macro has it, and the constants are not looked at. *)
Theorem add_definition_constant_once self c :
  (od_mem (VStr (constant_name c)) (constants self) = false ->
   exists self',
     add_definition get_function fuel self (DConstant c) = Ok (Stored self')
     /\ od_get (VStr (constant_name c)) (constants self') = Some c
     /\ macros self' = macros self
     /\ (forall c', constant_name c' = constant_name c ->
                    add_definition get_function fuel self' (DConstant c')
                    = Ok (KeyError ("Constant " ++ constant_name c
                                    ++ " already defined"))))
  /\ (od_mem (VStr (constant_name c)) (constants self) = true ->
      add_definition get_function fuel self (DConstant c)
      = Ok (KeyError ("Constant " ++ constant_name c ++ " already defined")))
  /\ (forall c', constant_name c' = constant_name c ->
                 PreProcessor__init__ get_function fuel
                                      (Some [DConstant c; DConstant c'])
                 = ({| constants := [(VStr (constant_name c), c)]; macros := [] |},
                    Ok (KeyError ("Constant " ++ constant_name c
                                  ++ " already defined"))))
  /\ (forall m self',
         add_definition get_function fuel self (DMacro m) = Ok (Stored self') ->
         constants self' = constants self
         /\ exists expanded,
             PreProcessor_expand_macro get_function fuel self m = Ok expanded
             /\ od_get (VStr (definition_name (DMacro m))) (macros self')
                = Some expanded).
Proof.
  split; [|split; [|split]].
  - intros H. eexists. unfold add_definition. cbn [definition_name]. rewrite H.
    split; [reflexivity|]. cbn [constants macros].
    split; [rewrite od_get_set, py_eq_refl; reflexivity|].
    split; [reflexivity|].
    intros c' E. cbn [definition_name]. rewrite E.
    rewrite od_mem_od_set, py_eq_refl, orb_true_r. reflexivity.
  - intros H. unfold add_definition. cbn [definition_name]. rewrite H. reflexivity.
  - intros c' E. unfold PreProcessor__init__. cbn [add_definitions].
    unfold add_definition at 1. cbn [definition_name constants macros od_mem existsb od_set].
    cbn [add_definitions]. unfold add_definition. cbn [definition_name constants].
    rewrite E. unfold od_mem. cbn [existsb fst]. rewrite py_eq_refl. reflexivity.
  - intros m self' H. unfold add_definition in H.
    destruct (PreProcessor_expand_macro get_function fuel self m) as [x| |];
      try discriminate H.
    cbn [bind] in H. inversion H; subst self'. cbn [constants macros].
    split; [reflexivity|]. exists x. split; [reflexivity|].
    rewrite od_get_set, py_eq_refl. reflexivity.
Qed.
End PreProcessorFacts.

(* ================================================================== *)
(** * [PipeCommand.register] *)

Section PipeCommandFacts.
Variable pipe_class : Type.
Variable same_class : forall a b : pipe_class, {a = b} + {a <> b}.
Variable class_text : pipe_class -> string.

Lemma lookup_get_set (d : list (string * pipe_class)) k v k' :
  lookup_get (lookup_set d k v) k'
  = if String.eqb k k' then Some v else lookup_get d k'.
Proof.
  induction d as [|[k0 v0] d IH]; cbn [lookup_set lookup_get].
  - reflexivity.
  - destruct (String.eqb k0 k) eqn:E; cbn [lookup_get].
    + apply String.eqb_eq in E. subst k0. destruct (String.eqb k k'); reflexivity.
    + rewrite IH. destruct (String.eqb k0 k') eqn:E'; [|reflexivity].
      apply String.eqb_eq in E'. subst k0.
      rewrite String.eqb_sym, E. reflexivity.
Qed.

(** X19.  A pipe name is registered once.  Registering a class under
    a free name enters it there and changes no other entry, and any
    further registration under that name raises [KeyError]; under a
    taken name [register] raises [KeyError] and leaves the table as it
    was.  The class given has taken the name as its [name] attribute
    in either case. *)
Theorem register_once name c st :
  let (st', outcome) := register same_class class_text name c st in
  name_of st' c = Some name
  /\ match lookup_get (lookup st) name with
     | None =>
       outcome = Stored c
       /\ (forall k, lookup_get (lookup st') k
                     = if String.eqb name k then Some c else lookup_get (lookup st) k)
       /\ (forall c', exists msg,
              snd (register same_class class_text name c' st') = KeyError msg)
     | Some old =>
       outcome = KeyError ("Pipe " ++ class_text old
                           ++ " already registered as " ++ name)
       /\ lookup st' = lookup st
     end.
Proof.
  unfold register. cbn [lookup name_of].
  destruct (lookup_get (lookup st) name) as [old|] eqn:E; cbn [lookup name_of].
  - split; [destruct (same_class c c); [reflexivity | contradiction]|].
    split; reflexivity.
  - split; [destruct (same_class c c); [reflexivity | contradiction]|].
    split; [reflexivity|]. split; [intros k; apply lookup_get_set|].
    intros c'. rewrite lookup_get_set, String.eqb_refl. eexists; reflexivity.
Qed.
End PipeCommandFacts.
